(** * CernVM-FS client core: a shallow embedding and its verified properties

    The development follows the client sources: the Fuse front-end
    (cvmfs.cc: remount fence, remount state machine, lookup/forget,
    open/read, getxattr, state hand-over), the catalog (catalog.cc: inode
    mangling, transition points) and the tiered cache manager
    (cache_tiered.cc).  Machine integers are modelled as [Z] with their
    wrap-around written out; hash maps are stdpp [gmap]s. *)

From Stdlib Require Import ZArith List String Ascii Bool Lia DecimalString.
From stdpp Require Import base option list gmap strings.

Local Open Scope Z_scope.

#[local] Set Warnings "-register-all".

(** ** Machine integers *)

Definition wrap_u32 (x : Z) : Z := x mod 2 ^ 32.
Definition wrap_u64 (x : Z) : Z := x mod 2 ^ 64.
Definition wrap_s32 (x : Z) : Z := (x + 2 ^ 31) mod 2 ^ 32 - 2 ^ 31.
Definition wrap_s64 (x : Z) : Z := (x + 2 ^ 63) mod 2 ^ 64 - 2 ^ 63.

Definition is_u32 (x : Z) : Prop := 0 <= x < 2 ^ 32.
Definition is_s32 (x : Z) : Prop := - 2 ^ 31 <= x < 2 ^ 31.
Definition is_u64 (x : Z) : Prop := 0 <= x < 2 ^ 64.

Lemma wrap_u64_id x : is_u64 x -> wrap_u64 x = x.
Proof. intros H. apply Z.mod_small. exact H. Qed.

Lemma wrap_u32_id x : is_u32 x -> wrap_u32 x = x.
Proof. intros H. apply Z.mod_small. exact H. Qed.

Lemma wrap_u64_range x : is_u64 (wrap_u64 x).
Proof. apply Z.mod_pos_bound. lia. Qed.

Lemma wrap_u32_range x : is_u32 (wrap_u32 x).
Proof. apply Z.mod_pos_bound. lia. Qed.

Lemma wrap_s32_id x : - 2 ^ 31 <= x < 2 ^ 31 -> wrap_s32 x = x.
Proof. intros H. unfold wrap_s32. rewrite Z.mod_small; lia. Qed.

Lemma wrap_s32_inc_dec x : wrap_s32 (wrap_s32 (x + 1) - 1) = wrap_s32 x.
Proof.
  unfold wrap_s32.
  replace ((x + 1 + 2 ^ 31) mod 2 ^ 32 - 2 ^ 31 - 1 + 2 ^ 31)
    with ((x + 1 + 2 ^ 31) mod 2 ^ 32 - 1) by lia.
  rewrite Zminus_mod_idemp_l. f_equal. f_equal. lia.
Qed.

(** POSIX error numbers used by the front-end (Linux values). *)
Definition ENOENT : Z := 2.
Definition EIO : Z := 5.
Definition EEXIST : Z := 17.
Definition ENOTDIR : Z := 20.
Definition EINVAL : Z := 22.
Definition EMFILE : Z := 24.
Definition ERANGE : Z := 34.
Definition ENODATA : Z := 61.
Definition ENOATTR : Z := ENODATA.

(** A call either completes or trips one of the source's [assert]s. *)
Inductive Outcome (A : Type) : Type :=
| Done (a : A)
| AssertionFailed.

Arguments Done {A} a.
Arguments AssertionFailed {A}.

(** * State hand-over of directory handles (cvmfs.cc: RestoreState,
      cvmfs_opendir, cvmfs_releasedir) *)

Module Handover.

(** [struct DirectoryListing]: the Fuse-formatted buffer and its sizes. *)
Record DirectoryListing := mkListing {
  buffer : list Z;
  size : Z;
  capacity : Z
}.

(** [struct InodeGenerationInfo]. *)
Record InodeGenerationInfo := mkGenInfo {
  version : Z;
  initial_revision : Z;
  incarnation : Z;
  overflow_counter : Z;
  inode_generation : Z
}.

(** Keys that google::dense_hash_map reserves: Init() sets the empty key to
    (uint64_t)(-1) and the deleted key to (uint64_t)(-2), so neither can be
    stored in a [DirectoryHandles] table. *)
Definition kEmptyKey : Z := 2 ^ 64 - 1.
Definition kDeletedKey : Z := 2 ^ 64 - 2.

Definition storable_key (k : Z) : Prop := 0 <= k < kDeletedKey.

Definition DirectoryHandles_ok (h : gmap Z DirectoryListing) : Prop :=
  forall k, is_Some (h !! k) -> storable_key k.

Section WithCollaborators.

(** The inode tracker, the chunk tables, the two legacy tracker layouts and
    the inode annotation are opaque payloads for the hand-over; their
    migration and generation functions live in compat.h and catalog.h. *)
Variables Tracker Chunks CompatV1 CompatV2 Annotation : Type.
Variable MigrateV1 : CompatV1 -> Tracker -> Tracker.
Variable MigrateV2 : CompatV2 -> Tracker -> Tracker.
Variable IncGeneration : Z -> Annotation -> Annotation.

(** [loader::SavedState]: a state id together with its payload. *)
Inductive SavedState :=
| kStateOpenDirs (saved_handles : gmap Z DirectoryListing)
| kStateGlueBuffer (saved_inode_tracker : CompatV1)
| kStateGlueBufferV2 (saved_inode_tracker : CompatV2)
| kStateGlueBufferV3 (saved_inode_tracker : Tracker)
| kStateOpenFiles (saved_chunk_tables : Chunks)
| kStateInodeGeneration (old_info : InodeGenerationInfo)
| kStateOpenFilesCounter (saved_num_fd : Z)
| kStateUnknown.

(** The globals of namespace cvmfs that the hand-over touches. *)
Record State := mkState {
  directory_handles_ : gmap Z DirectoryListing;
  next_directory_handle_ : Z;
  open_dirs_ : Z;
  inode_tracker_ : Tracker;
  chunk_tables_ : Chunks;
  inode_generation_info_ : InodeGenerationInfo;
  open_files_ : Z;
  inode_annotation_ : option Annotation;
  num_fs_dir_open_ : Z
}.

(** One round of the inner loop of RestoreState (lines 2365-2368):
    [if (i->first >= next_directory_handle_) next_directory_handle_ =
    i->first + 1;] on a uint64_t. *)
Definition bump_handle (next k : Z) : Z :=
  if k >=? next then wrap_u64 (k + 1) else next.

(** The iteration visits the stored keys in the table's own order. *)
Definition restore_next_handle (h : gmap Z DirectoryListing) (next : Z) : Z :=
  foldl bump_handle next (map_to_list h).*1.

Definition restore_one (st : State) (s : SavedState) : State :=
  match s with
  | kStateOpenDirs saved_handles =>
      mkState saved_handles
              (restore_next_handle saved_handles (next_directory_handle_ st))
              (wrap_s32 (Z.of_nat (base.size saved_handles)))
              (inode_tracker_ st) (chunk_tables_ st)
              (inode_generation_info_ st) (open_files_ st)
              (inode_annotation_ st) (num_fs_dir_open_ st)
  | kStateGlueBuffer old =>
      mkState (directory_handles_ st) (next_directory_handle_ st)
              (open_dirs_ st) (MigrateV1 old (inode_tracker_ st))
              (chunk_tables_ st) (inode_generation_info_ st) (open_files_ st)
              (inode_annotation_ st) (num_fs_dir_open_ st)
  | kStateGlueBufferV2 old =>
      mkState (directory_handles_ st) (next_directory_handle_ st)
              (open_dirs_ st) (MigrateV2 old (inode_tracker_ st))
              (chunk_tables_ st) (inode_generation_info_ st) (open_files_ st)
              (inode_annotation_ st) (num_fs_dir_open_ st)
  | kStateGlueBufferV3 saved =>
      mkState (directory_handles_ st) (next_directory_handle_ st)
              (open_dirs_ st) saved
              (chunk_tables_ st) (inode_generation_info_ st) (open_files_ st)
              (inode_annotation_ st) (num_fs_dir_open_ st)
  | kStateOpenFiles saved =>
      mkState (directory_handles_ st) (next_directory_handle_ st)
              (open_dirs_ st) (inode_tracker_ st)
              saved (inode_generation_info_ st) (open_files_ st)
              (inode_annotation_ st) (num_fs_dir_open_ st)
  | kStateInodeGeneration old_info =>
      let cur := inode_generation_info_ st in
      let migrated :=
        if version old_info =? 1
        then mkGenInfo (version cur) (initial_revision old_info)
                       (incarnation old_info) (overflow_counter cur)
                       (inode_generation cur)
        else old_info in
      let bumped :=
        mkGenInfo (version migrated) (initial_revision migrated)
                  (wrap_u32 (incarnation migrated + 1))
                  (overflow_counter migrated) (inode_generation migrated) in
      mkState (directory_handles_ st) (next_directory_handle_ st)
              (open_dirs_ st) (inode_tracker_ st)
              (chunk_tables_ st) bumped (open_files_ st)
              (inode_annotation_ st) (num_fs_dir_open_ st)
  | kStateOpenFilesCounter saved_num_fd =>
      mkState (directory_handles_ st) (next_directory_handle_ st)
              (open_dirs_ st) (inode_tracker_ st)
              (chunk_tables_ st) (inode_generation_info_ st)
              (wrap_s32 saved_num_fd)
              (inode_annotation_ st) (num_fs_dir_open_ st)
  | kStateUnknown => st
  end.

(** RestoreState: the loop over [saved_states], then the generation of the
    inode annotation is advanced by the saved inode generation. *)
Definition RestoreState (saved_states : list SavedState) (st : State) : State :=
  let st1 := foldl restore_one st saved_states in
  match inode_annotation_ st1 with
  | Some a =>
      mkState (directory_handles_ st1) (next_directory_handle_ st1)
              (open_dirs_ st1) (inode_tracker_ st1)
              (chunk_tables_ st1) (inode_generation_info_ st1)
              (open_files_ st1)
              (Some (IncGeneration
                       (inode_generation (inode_generation_info_ st1)) a))
              (num_fs_dir_open_ st1)
  | None => st1
  end.

(** The table that the loop leaves installed: the last saved table. *)
Fixpoint last_open_dirs (saved_states : list SavedState)
  : option (gmap Z DirectoryListing) :=
  match saved_states with
  | [] => None
  | s :: rest =>
      match last_open_dirs rest with
      | Some h => Some h
      | None => match s with kStateOpenDirs h => Some h | _ => None end
      end
  end.

(** What a Fuse request is answered with. *)
Inductive Reply :=
| reply_err (errno : Z)
| reply_open (fh : Z).

(** cvmfs_opendir.  The catalog phase (lines 776-855) either fails with an
    errno (ENOENT, ENOTDIR, EIO) or has built the listing; the tail (lines
    857-868) stores it under [next_directory_handle_] and advances the
    counter. *)
Definition cvmfs_opendir (catalog_phase : Z + DirectoryListing) (st : State)
  : Reply * State :=
  match catalog_phase with
  | inl errno => (reply_err errno, st)
  | inr stream_listing =>
      let fh := next_directory_handle_ st in
      (reply_open fh,
       mkState (<[fh := stream_listing]> (directory_handles_ st))
               (wrap_u64 (fh + 1))
               (wrap_s32 (open_dirs_ st + 1))
               (inode_tracker_ st) (chunk_tables_ st)
               (inode_generation_info_ st) (open_files_ st)
               (inode_annotation_ st)
               (wrap_s64 (num_fs_dir_open_ st + 1)))
  end.

(** cvmfs_releasedir (lines 875-901). *)
Definition cvmfs_releasedir (fh : Z) (st : State) : Reply * State :=
  match directory_handles_ st !! fh with
  | Some _ =>
      (reply_err 0,
       mkState (delete fh (directory_handles_ st))
               (next_directory_handle_ st)
               (wrap_s32 (open_dirs_ st - 1))
               (inode_tracker_ st) (chunk_tables_ st)
               (inode_generation_info_ st) (open_files_ st)
               (inode_annotation_ st) (num_fs_dir_open_ st))
  | None => (reply_err EINVAL, st)
  end.

(** Directory traffic after the hand-over. *)
Inductive DirCall :=
| CallOpendir (catalog_phase : Z + DirectoryListing)
| CallReleasedir (fh : Z).

Definition serve (c : DirCall) (st : State) : Reply * State :=
  match c with
  | CallOpendir p => cvmfs_opendir p st
  | CallReleasedir fh => cvmfs_releasedir fh st
  end.

(** Serves the calls in order; returns the handles that opendir issued. *)
Fixpoint serve_all (calls : list DirCall) (st : State) : list Z * State :=
  match calls with
  | [] => ([], st)
  | c :: rest =>
      let rs := serve c st in
      let later := serve_all rest rs.2 in
      (match c, rs.1 with
       | CallOpendir _, reply_open fh => fh :: later.1
       | _, _ => later.1
       end, later.2)
  end.

End WithCollaborators.

Arguments kStateOpenDirs {_ _ _ _} _.
Arguments kStateGlueBuffer {_ _ _ _} _.
Arguments kStateGlueBufferV2 {_ _ _ _} _.
Arguments kStateGlueBufferV3 {_ _ _ _} _.
Arguments kStateOpenFiles {_ _ _ _} _.
Arguments kStateInodeGeneration {_ _ _ _} _.
Arguments kStateOpenFilesCounter {_ _ _ _} _.
Arguments kStateUnknown {_ _ _ _}.
Arguments mkState {_ _ _} _ _ _ _ _ _ _ _ _.
Arguments directory_handles_ {_ _ _} _.
Arguments next_directory_handle_ {_ _ _} _.
Arguments open_dirs_ {_ _ _} _.
Arguments inode_tracker_ {_ _ _} _.
Arguments chunk_tables_ {_ _ _} _.
Arguments inode_generation_info_ {_ _ _} _.
Arguments open_files_ {_ _ _} _.
Arguments inode_annotation_ {_ _ _} _.
Arguments num_fs_dir_open_ {_ _ _} _.
Arguments restore_one {_ _ _ _ _} _ _ _ _.
Arguments RestoreState {_ _ _ _ _} _ _ _ _ _.
Arguments last_open_dirs {_ _ _ _} _.
Arguments cvmfs_opendir {_ _ _} _ _.
Arguments cvmfs_releasedir {_ _ _} _ _.
Arguments serve {_ _ _} _ _.
Arguments serve_all {_ _ _} _ _.

(** *** Properties of the hand-over *)

Lemma bump_handle_spec next k :
  is_u64 next -> storable_key k ->
  is_u64 (bump_handle next k) /\ next <= bump_handle next k /\
  k < bump_handle next k.
Proof.
  unfold is_u64, storable_key, kDeletedKey, bump_handle. intros Hn Hk.
  destruct (Z.geb_spec k next) as [Hge | Hlt].
  - rewrite wrap_u64_id by (unfold is_u64; lia). lia.
  - lia.
Qed.

Lemma foldl_bump_handle keys : forall next,
  is_u64 next -> (forall k, k ∈ keys -> storable_key k) ->
  is_u64 (foldl bump_handle next keys) /\
  next <= foldl bump_handle next keys /\
  forall k, k ∈ keys -> k < foldl bump_handle next keys.
Proof.
  induction keys as [| k0 keys IH]; intros next Hn Hk; simpl.
  - split; [exact Hn | split; [lia |]]. intros k Hin. inversion Hin.
  - destruct (bump_handle_spec next k0 Hn) as (Hu & Hle & Hlt).
    { apply Hk. apply list_elem_of_here. }
    destruct (IH (bump_handle next k0) Hu) as (Hu' & Hle' & Hall).
    { intros k Hin. apply Hk. apply list_elem_of_further. exact Hin. }
    split; [exact Hu' | split; [lia |]].
    intros k Hin. apply elem_of_cons in Hin as [-> | Hin].
    + lia.
    + apply Hall. exact Hin.
Qed.

Lemma restore_next_handle_spec (h : gmap Z DirectoryListing) next :
  is_u64 next -> DirectoryHandles_ok h ->
  is_u64 (restore_next_handle h next) /\
  next <= restore_next_handle h next /\
  forall k, is_Some (h !! k) -> k < restore_next_handle h next.
Proof.
  intros Hn Hok. unfold restore_next_handle.
  assert (Hkeys : forall k, k ∈ (map_to_list h).*1 -> storable_key k).
  { intros k Hin. apply list_elem_of_fmap in Hin as ([k' v] & -> & Hin).
    apply elem_of_map_to_list in Hin. apply Hok. simpl. eauto. }
  destruct (foldl_bump_handle _ next Hn Hkeys) as (Hu & Hle & Hall).
  split; [exact Hu | split; [exact Hle |]].
  intros k [v Hv]. apply Hall. apply list_elem_of_fmap.
  exists (k, v). split; [reflexivity |]. apply elem_of_map_to_list. exact Hv.
Qed.

Section HandoverFacts.

Context {Tracker Chunks CompatV1 CompatV2 Annotation : Type}.
Variable MigrateV1 : CompatV1 -> Tracker -> Tracker.
Variable MigrateV2 : CompatV2 -> Tracker -> Tracker.
Variable IncGeneration : Z -> Annotation -> Annotation.

Implicit Types (saved_states : list (SavedState Tracker Chunks CompatV1 CompatV2))
               (st : State Tracker Chunks Annotation).

Definition saved_tables_ok saved_states : Prop :=
  forall h, kStateOpenDirs h ∈ saved_states -> DirectoryHandles_ok h.

Lemma restore_one_spec st s :
  is_u64 (next_directory_handle_ st) ->
  (forall h, s = kStateOpenDirs h -> DirectoryHandles_ok h) ->
  let st1 := restore_one MigrateV1 MigrateV2 st s in
  is_u64 (next_directory_handle_ st1) /\
  next_directory_handle_ st <= next_directory_handle_ st1 /\
  forall h k, s = kStateOpenDirs h -> is_Some (h !! k) ->
              k < next_directory_handle_ st1.
Proof.
  intros Hn Hok.
  destruct s; simpl;
    try (split; [exact Hn | split; [lia | intros; discriminate]]).
  destruct (restore_next_handle_spec saved_handles _ Hn) as (Hu & Hle & Hall).
  { apply Hok. reflexivity. }
  split; [exact Hu | split; [exact Hle |]].
  intros h k [= <-]. apply Hall.
Qed.

Lemma restore_loop_spec saved_states : forall st,
  is_u64 (next_directory_handle_ st) ->
  saved_tables_ok saved_states ->
  let st1 := foldl (restore_one MigrateV1 MigrateV2) st saved_states in
  is_u64 (next_directory_handle_ st1) /\
  next_directory_handle_ st <= next_directory_handle_ st1 /\
  directory_handles_ st1 =
    default (directory_handles_ st) (last_open_dirs saved_states) /\
  forall h k, kStateOpenDirs h ∈ saved_states ->
              is_Some (h !! k) -> k < next_directory_handle_ st1.
Proof.
  induction saved_states as [| s rest IH]; intros st Hn Hok; simpl.
  - repeat split; [apply Hn | apply Hn | lia |]. intros h k Hin. inversion Hin.
  - assert (Hrest : saved_tables_ok rest).
    { intros h Hin. apply Hok. apply list_elem_of_further. exact Hin. }
    destruct (restore_one_spec st s Hn) as (Hu & Hle & Hkeys).
    { intros h ->. apply Hok. apply list_elem_of_here. }
    destruct (IH _ Hu Hrest) as (Hu' & Hle' & Htab & Hall).
    split; [exact Hu' | split; [lia | split]].
    + rewrite Htab. destruct (last_open_dirs rest); [reflexivity |].
      destruct s; reflexivity.
    + intros h k Hin Hsome. apply elem_of_cons in Hin as [<- | Hin].
      * specialize (Hkeys h k eq_refl Hsome). lia.
      * eapply Hall; eassumption.
Qed.

Lemma last_open_dirs_elem saved_states h :
  last_open_dirs saved_states = Some h -> kStateOpenDirs h ∈ saved_states.
Proof.
  induction saved_states as [| s rest IH]; simpl; [discriminate |].
  destruct (last_open_dirs rest) eqn:E.
  - intros [= <-]. apply list_elem_of_further. apply IH. reflexivity.
  - destruct s; try discriminate. intros [= <-]. apply list_elem_of_here.
Qed.

Lemma RestoreState_keeps_handles saved_states st :
  directory_handles_ (RestoreState MigrateV1 MigrateV2 IncGeneration saved_states st) =
    directory_handles_ (foldl (restore_one MigrateV1 MigrateV2) st saved_states) /\
  next_directory_handle_ (RestoreState MigrateV1 MigrateV2 IncGeneration saved_states st) =
    next_directory_handle_ (foldl (restore_one MigrateV1 MigrateV2) st saved_states).
Proof.
  unfold RestoreState.
  destruct (inode_annotation_ (foldl (restore_one MigrateV1 MigrateV2) st saved_states));
    split; reflexivity.
Qed.

Lemma serve_all_issued calls : forall st fh,
  is_u64 (next_directory_handle_ st) ->
  next_directory_handle_ st + Z.of_nat (length calls) <= 2 ^ 64 ->
  fh ∈ (serve_all calls st).1 ->
  next_directory_handle_ st <= fh.
Proof.
  induction calls as [| c rest IH]; intros st fh Hn Hlen; simpl.
  - intros Hin. inversion Hin.
  - simpl in Hlen. rewrite Nat2Z.inj_succ in Hlen. unfold is_u64 in Hn.
    destruct c as [[errno | listing] | fh0]; simpl.
    + intros Hin. apply (IH st fh Hn); [lia | exact Hin].
    + intros Hin. apply elem_of_cons in Hin as [-> | Hin]; [lia |].
      destruct rest as [| c' rest']; [inversion Hin |].
      simpl in Hlen. rewrite Nat2Z.inj_succ in Hlen.
      rewrite wrap_u64_id in Hin by (unfold is_u64; lia).
      match type of Hin with
      | _ ∈ (serve_all _ ?s).1 => pose proof (IH s fh) as IH'
      end.
      simpl in IH'. rewrite Nat2Z.inj_succ in IH'.
      assert (next_directory_handle_ st + 1 <= fh); [| lia].
      apply IH'; [unfold is_u64; lia | lia | exact Hin].
    + unfold cvmfs_releasedir.
      destruct (directory_handles_ st !! fh0); simpl; intros Hin.
      * match type of Hin with
        | _ ∈ (serve_all _ ?s).1 => pose proof (IH s fh) as IH'
        end.
        apply IH'; [exact Hn | simpl; lia | exact Hin].
      * apply (IH st fh Hn); [lia | exact Hin].
Qed.

(** C10.  Once RestoreState has installed a saved directory-handle table,
    [next_directory_handle_] is strictly greater than every restored handle
    id, and every handle that a later opendir issues differs from every
    restored handle (as long as the 64 bit counter does not wrap). *)
Theorem RestoreState_next_handle_above_restored saved_states st h :
  last_open_dirs saved_states = Some h ->
  saved_tables_ok saved_states ->
  is_u64 (next_directory_handle_ st) ->
  let st' := RestoreState MigrateV1 MigrateV2 IncGeneration saved_states st in
  directory_handles_ st' = h /\
  (forall k, is_Some (h !! k) -> k < next_directory_handle_ st') /\
  (forall calls fh,
     next_directory_handle_ st' + Z.of_nat (length calls) <= 2 ^ 64 ->
     fh ∈ (serve_all calls st').1 ->
     h !! fh = None).
Proof.
  intros Hlast Hok Hn st'.
  destruct (RestoreState_keeps_handles saved_states st) as [Htab Hnext].
  destruct (restore_loop_spec saved_states st Hn Hok) as (Hu & _ & Hdh & Hall).
  fold st' in Htab, Hnext. rewrite <- Hnext in Hu, Hall. rewrite <- Htab in Hdh.
  assert (Habove : forall k, is_Some (h !! k) -> k < next_directory_handle_ st').
  { intros k Hk. apply (Hall h k); [| exact Hk].
    apply last_open_dirs_elem. exact Hlast. }
  split; [| split].
  - rewrite Hdh, Hlast. reflexivity.
  - exact Habove.
  - intros calls fh Hlen Hin.
    pose proof (serve_all_issued calls st' fh Hu Hlen Hin) as Hge.
    destruct (h !! fh) eqn:E; [| reflexivity].
    assert (fh < next_directory_handle_ st') by (apply Habove; eauto).
    lia.
Qed.

End HandoverFacts.

(** A concrete hand-over: two open directories (handles 3 and 7) and the
    open-files counter are restored into a freshly initialised process. *)
Definition demo_listing : DirectoryListing := mkListing [46; 0] 2 512.

Definition demo_table : gmap Z DirectoryListing :=
  <[7 := demo_listing]> (<[3 := demo_listing]> ∅).

Definition demo_state : State unit unit unit :=
  mkState ∅ 0 0 tt tt (mkGenInfo 2 0 0 0 0) 0 None 0.

Definition demo_saved : list (SavedState unit unit unit unit) :=
  [kStateOpenFilesCounter 4; kStateOpenDirs demo_table].

Lemma demo_table_ok : DirectoryHandles_ok demo_table.
Proof.
  intros k [v Hv]. unfold demo_table in Hv.
  apply lookup_insert_Some in Hv as [[<- _] | [_ Hv]].
  - unfold storable_key, kDeletedKey. lia.
  - apply lookup_insert_Some in Hv as [[<- _] | [_ Hv]].
    + unfold storable_key, kDeletedKey. lia.
    + rewrite lookup_empty in Hv. discriminate.
Qed.

Lemma RestoreState_next_handle_witness :
  let st' := RestoreState (fun _ t => t) (fun _ t => t) (fun _ a => a)
                          demo_saved demo_state in
  directory_handles_ st' = demo_table /\
  (forall k, is_Some (demo_table !! k) -> k < next_directory_handle_ st') /\
  (forall calls fh,
     next_directory_handle_ st' + Z.of_nat (length calls) <= 2 ^ 64 ->
     fh ∈ (serve_all calls st').1 ->
     demo_table !! fh = None).
Proof.
  apply (RestoreState_next_handle_above_restored
           (fun _ t => t) (fun _ t => t) (fun _ a => a) demo_saved demo_state).
  - reflexivity.
  - intros h Hin. unfold demo_saved in Hin.
    apply elem_of_cons in Hin as [Hin | Hin]; [discriminate |].
    apply list_elem_of_singleton in Hin. injection Hin as ->.
    exact demo_table_ok.
  - unfold is_u64. simpl. lia.
Defined.

Example RestoreState_demo_next :
  next_directory_handle_
    (RestoreState (fun _ t => t) (fun _ t => t) (fun _ a => a)
                  demo_saved demo_state) = 8.
Proof. vm_compute. reflexivity. Qed.

End Handover.

(** * The catalog (catalog.cc): inode mangling and transition points *)

Module Catalog.

(** [hash::Md5] of a full path, as the two 64 bit halves the catalog table
    stores (md5path_1, md5path_2). *)
Definition Md5 : Type := (Z * Z)%type.

Definition md5_eqb (a b : Md5) : bool := (a.1 =? b.1) && (a.2 =? b.2).

(** [struct InodeRange]. *)
Record InodeRange := mkRange {
  offset : Z;
  range_size : Z
}.

(** The [InodeAnnotation] interface: the catalog only calls [Annotate] and
    [Strip] through the pointer it is given. *)
Record InodeAnnotation := mkAnnotation {
  Annotate : Z -> Z;
  Strip : Z -> Z
}.

(** [DirectoryEntry], with the fields the catalog layer reads and writes. *)
Record DirectoryEntry := mkDirent {
  inode_ : Z;
  name_ : string;
  mode_ : Z;
  size_ : Z;
  mtime_ : Z;
  hardlink_group_ : Z;
  is_nested_catalog_root_ : bool;
  is_nested_catalog_mountpoint_ : bool
}.

Definition inode (d : DirectoryEntry) : Z := inode_ d.
Definition IsNestedCatalogRoot (d : DirectoryEntry) : bool :=
  is_nested_catalog_root_ d.

Definition set_inode (d : DirectoryEntry) (i : Z) : DirectoryEntry :=
  mkDirent i (name_ d) (mode_ d) (size_ d) (mtime_ d) (hardlink_group_ d)
           (is_nested_catalog_root_ d) (is_nested_catalog_mountpoint_ d).

(** One row of the [catalog] table: its rowid, the hash of its path, the
    hash of its parent directory, and the stored attributes. *)
Record Row := mkRow {
  rowid : Z;
  md5path : Md5;
  parent_md5path : Md5;
  row_hardlink_group : Z;
  row_name : string;
  row_mode : Z;
  row_size : Z;
  row_mtime : Z;
  row_nested_root : bool;
  row_nested_mountpoint : bool
}.

(** A loaded catalog.  [hardlink_groups_] is the mutable cache that
    GetMangledInode fills; [parent_] is the back pointer into the tree. *)
Inductive Catalog := mkCatalog {
  table : list Row;
  initialized_ : bool;
  inode_range_ : InodeRange;
  inode_annotation_ : option InodeAnnotation;
  hardlink_groups_ : gmap Z Z;
  parent_ : option Catalog
}.

Definition IsInitialized (c : Catalog) : bool := initialized_ c.

(** IsRoot() is declared in catalog.h as [NULL == parent_]; this is the
    reading under which FixTransitionPoint may dereference [parent_]. *)
Definition IsRoot (c : Catalog) : bool :=
  match parent_ c with None => true | Some _ => false end.

Section WithInodeRange.

(** InodeRange::IsDummy and DirectoryEntry::kInvalidInode are declared in
    catalog.h and directory_entry.h. *)
Variable IsDummy : InodeRange -> bool.
Variable kInvalidInode : Z.

(** Catalog::GetMangledInode (lines 391-420).  Returns the inode and the
    hard link cache it leaves behind. *)
Definition GetMangledInode (c : Catalog) (row_id hardlink_group : Z)
  : Outcome (Z * gmap Z Z) :=
  if negb (IsInitialized c) then AssertionFailed
  else if IsDummy (inode_range_ c)
  then Done (kInvalidInode, hardlink_groups_ c)
  else
    let inode0 := wrap_u64 (row_id + offset (inode_range_ c)) in
    let resolved :=
      if hardlink_group >? 0 then
        match hardlink_groups_ c !! hardlink_group with
        | None => (inode0, <[hardlink_group := inode0]> (hardlink_groups_ c))
        | Some cached => (cached, hardlink_groups_ c)
        end
      else (inode0, hardlink_groups_ c) in
    Done (match inode_annotation_ c with
          | Some a => Annotate a resolved.1
          | None => resolved.1
          end, resolved.2).

(** Catalog::GetRowIdFromInode (lines 426-432). *)
Definition GetRowIdFromInode (c : Catalog) (inode : Z) : Z :=
  let row_id := match inode_annotation_ c with
                | Some a => Strip a inode
                | None => inode
                end in
  wrap_u64 (row_id - offset (inode_range_ c)).

(** Modelled from the spec: SqlLookup::GetDirent is in catalog_sql.cc.  The
    data model says the inode is "assigned at read time, not stored" and is
    "row_id + offset, optionally transformed by an inode annotation"; the
    other fields are copied from the row. *)
Definition GetDirent (c : Catalog) (r : Row)
  : Outcome (DirectoryEntry * gmap Z Z) :=
  match GetMangledInode c (rowid r) (row_hardlink_group r) with
  | AssertionFailed => AssertionFailed
  | Done (i, groups) =>
      Done (mkDirent i (row_name r) (row_mode r) (row_size r) (row_mtime r)
                     (row_hardlink_group r) (row_nested_root r)
                     (row_nested_mountpoint r), groups)
  end.

(** Modelled from the spec: the prepared statements are in catalog_sql.cc.
    The catalog is "keyed by MD5(path)": the lookup statement yields the row
    with the bound path hash, the listing statement the rows whose
    parent_1/parent_2 columns equal the bound hash. *)
Definition sql_lookup_md5path (t : list Row) (h : Md5) : option Row :=
  List.find (fun r => md5_eqb (md5path r) h) t.

Definition sql_listing (t : list Row) (h : Md5) : list Row :=
  List.filter (fun r => md5_eqb (parent_md5path r) h) t.

(** Catalog::FixTransitionPoint (lines 612-622).  [parent_lookup] is
    [parent_->LookupMd5Path(md5path, &parent_dirent)], absent for a root
    catalog; the result carries the parent as the query left it. *)
Definition FixTransitionPoint
    (parent_lookup : option (Outcome (bool * option DirectoryEntry * Catalog)))
    (dirent : DirectoryEntry) : Outcome (DirectoryEntry * option Catalog) :=
  match parent_lookup with
  | Some looked_up =>
      if IsNestedCatalogRoot dirent then
        match looked_up with
        | Done (true, Some parent_dirent, p') =>
            Done (set_inode dirent (inode parent_dirent), Some p')
        | _ => AssertionFailed
        end
      else Done (dirent, None)
  | None => Done (dirent, None)
  end.

Definition with_parent (old : option Catalog) (queried : option Catalog)
  : option Catalog :=
  match queried with Some p' => Some p' | None => old end.

(** Catalog::LookupMd5Path (lines 224-240).  [want_dirent] is
    [dirent != NULL].  Returns [found], the entry, and the catalog with the
    caches as the call left them. *)
Fixpoint LookupMd5Path (c : Catalog) (md5path : Md5) (want_dirent : bool)
    {struct c} : Outcome (bool * option DirectoryEntry * Catalog) :=
  match c with
  | mkCatalog t init range annot groups parent =>
      if negb init then AssertionFailed
      else
        match sql_lookup_md5path t md5path with
        | None => Done (false, None, c)
        | Some r =>
            if want_dirent then
              match GetDirent c r with
              | AssertionFailed => AssertionFailed
              | Done (dirent, groups') =>
                  match FixTransitionPoint
                          (match parent with
                           | Some p => Some (LookupMd5Path p md5path true)
                           | None => None
                           end) dirent with
                  | AssertionFailed => AssertionFailed
                  | Done (dirent', parent') =>
                      Done (true, Some dirent',
                            mkCatalog t init range annot groups'
                                      (with_parent parent parent'))
                  end
              end
            else Done (true, None, c)
        end
  end.

Definition parent_lookup (c : Catalog) (md5path : Md5)
  : option (Outcome (bool * option DirectoryEntry * Catalog)) :=
  match parent_ c with
  | Some p => Some (LookupMd5Path p md5path true)
  | None => None
  end.

(** The body shared by the two listing loops: GetDirent, then
    FixTransitionPoint with the hash the listing was called with. *)
Definition listing_step (md5path : Md5)
    (acc : Outcome (list DirectoryEntry * Catalog)) (r : Row)
  : Outcome (list DirectoryEntry * Catalog) :=
  match acc with
  | AssertionFailed => AssertionFailed
  | Done (listing, c) =>
      match GetDirent c r with
      | AssertionFailed => AssertionFailed
      | Done (dirent, groups') =>
          match FixTransitionPoint (parent_lookup c md5path) dirent with
          | AssertionFailed => AssertionFailed
          | Done (dirent', parent') =>
              Done (listing ++ [dirent'],
                    mkCatalog (table c) (initialized_ c) (inode_range_ c)
                              (inode_annotation_ c) groups'
                              (with_parent (parent_ c) parent'))
          end
      end
  end.

(** Catalog::ListingMd5Path (lines 280-296). *)
Definition ListingMd5Path (c : Catalog) (md5path : Md5)
  : Outcome (list DirectoryEntry * Catalog) :=
  if negb (IsInitialized c) then AssertionFailed
  else foldl (listing_step md5path) (Done ([], c)) (sql_listing (table c) md5path).

(** [StatEntry]: name and the stat structure; of the latter the inode and
    the fields copied from the entry. *)
Record StatEntry := mkStatEntry {
  entry_name : string;
  st_ino : Z;
  st_mode : Z;
  st_size : Z;
  st_mtime : Z
}.

Definition GetStatStructure (d : DirectoryEntry) : StatEntry :=
  mkStatEntry (name_ d) (inode d) (mode_ d) (size_ d) (mtime_ d).

(** Catalog::ListingMd5PathStat (lines 249-270). *)
Definition ListingMd5PathStat (c : Catalog) (md5path : Md5)
  : Outcome (list StatEntry * Catalog) :=
  match ListingMd5Path c md5path with
  | AssertionFailed => AssertionFailed
  | Done (listing, c') => Done (List.map GetStatStructure listing, c')
  end.

End WithInodeRange.

(** The inode an annotation-carrying catalog hands out for a raw inode. *)
Definition annotated (c : Catalog) (raw : Z) : Z :=
  match inode_annotation_ c with
  | Some a => Annotate a raw
  | None => raw
  end.

(** An annotation that can be undone, as SetInodeAnnotation's comment
    expects ("annotated inodes could come back to the catalog in order to
    get stripped"). *)
Definition annotation_lawful (a : InodeAnnotation) : Prop :=
  forall raw, is_u64 raw -> Strip a (Annotate a raw) = raw.

(** Modelled from the spec: the concrete annotation class is declared in
    catalog.h; the data model describes "an inode annotation that XORs in a
    generation counter". *)
Definition InodeGenerationAnnotation (generation : Z) : InodeAnnotation :=
  mkAnnotation (fun raw => Z.lxor raw generation)
               (fun annotated => Z.lxor annotated generation).

Lemma InodeGenerationAnnotation_lawful generation :
  annotation_lawful (InodeGenerationAnnotation generation).
Proof.
  intros raw _. simpl.
  rewrite Z.lxor_assoc, Z.lxor_nilpotent, Z.lxor_0_r. reflexivity.
Qed.

Lemma unmangle_offset row_id off :
  is_u64 row_id -> wrap_u64 (wrap_u64 (row_id + off) - off) = row_id.
Proof.
  intros Hr. unfold wrap_u64.
  rewrite Zminus_mod_idemp_l.
  replace (row_id + off - off) with row_id by lia.
  apply Z.mod_small. exact Hr.
Qed.

Section CatalogFacts.

Variable IsDummy : InodeRange -> bool.
Variable kInvalidInode : Z.

(** C8.  In an initialised catalog whose inode range is not a dummy, an
    entry outside any hard link group gets the inode row_id + offset
    (uint64 arithmetic), passed through the annotation if there is one; and
    GetRowIdFromInode maps that inode back to the row id. *)
Theorem GetRowIdFromInode_inverts_GetMangledInode c row_id :
  IsInitialized c = true ->
  IsDummy (inode_range_ c) = false ->
  is_u64 row_id ->
  (forall a, inode_annotation_ c = Some a -> annotation_lawful a) ->
  exists assigned,
    GetMangledInode IsDummy kInvalidInode c row_id 0
      = Done (assigned, hardlink_groups_ c) /\
    assigned = annotated c (wrap_u64 (row_id + offset (inode_range_ c))) /\
    (row_id + offset (inode_range_ c) < 2 ^ 64 ->
     0 <= offset (inode_range_ c) ->
     assigned = annotated c (row_id + offset (inode_range_ c))) /\
    GetRowIdFromInode c assigned = row_id.
Proof.
  intros Hinit Hdummy Hrow Hlaw.
  exists (annotated c (wrap_u64 (row_id + offset (inode_range_ c)))).
  split; [| split; [reflexivity | split]].
  - unfold GetMangledInode, annotated. rewrite Hinit, Hdummy. simpl.
    destruct (inode_annotation_ c); reflexivity.
  - intros Hsum Hoff. rewrite wrap_u64_id; [reflexivity |].
    unfold is_u64 in *. lia.
  - unfold GetRowIdFromInode, annotated.
    destruct (inode_annotation_ c) as [a |] eqn:Ea.
    + rewrite (Hlaw a eq_refl) by apply wrap_u64_range.
      apply unmangle_offset. exact Hrow.
    + apply unmangle_offset. exact Hrow.
Qed.

Lemma LookupMd5Path_unfold c md5path want_dirent :
  LookupMd5Path IsDummy kInvalidInode c md5path want_dirent =
  if negb (initialized_ c) then AssertionFailed
  else
    match sql_lookup_md5path (table c) md5path with
    | None => Done (false, None, c)
    | Some r =>
        if want_dirent then
          match GetDirent IsDummy kInvalidInode c r with
          | AssertionFailed => AssertionFailed
          | Done (dirent, groups') =>
              match FixTransitionPoint
                      (parent_lookup IsDummy kInvalidInode c md5path) dirent with
              | AssertionFailed => AssertionFailed
              | Done (dirent', parent') =>
                  Done (true, Some dirent',
                        mkCatalog (table c) (initialized_ c) (inode_range_ c)
                                  (inode_annotation_ c) groups'
                                  (with_parent (parent_ c) parent'))
              end
          end
        else Done (true, None, c)
    end.
Proof. destruct c as [t init range annot groups [p |]]; reflexivity. Qed.

Lemma FixTransitionPoint_nested_root looked_up dirent dirent' parent' :
  FixTransitionPoint looked_up dirent = Done (dirent', parent') ->
  IsNestedCatalogRoot dirent' = true ->
  match looked_up with
  | Some res =>
      exists parent_dirent p',
        res = Done (true, Some parent_dirent, p') /\
        dirent' = set_inode dirent (inode parent_dirent) /\
        parent' = Some p'
  | None => dirent' = dirent /\ parent' = None
  end.
Proof.
  unfold FixTransitionPoint. intros Hfix Hbit.
  destruct looked_up as [res |].
  - destruct (IsNestedCatalogRoot dirent) eqn:Eroot.
    + destruct res as [[[[] [pd |]] p'] |]; try discriminate.
      injection Hfix as <- <-. eauto.
    + injection Hfix as <- <-. congruence.
  - injection Hfix as <- <-. split; reflexivity.
Qed.

(** C4 (as amended).  An entry with the nested-catalog-root bit that
    LookupMd5Path returns from a catalog with a parent carries the inode of
    the entry the parent's LookupMd5Path returns for the same path hash; a
    root catalog returns the entry with the inode it assigned itself. *)
Theorem LookupMd5Path_fixes_transition_point c md5path d c' :
  LookupMd5Path IsDummy kInvalidInode c md5path true = Done (true, Some d, c') ->
  IsNestedCatalogRoot d = true ->
  match parent_ c with
  | Some p =>
      exists parent_dirent p',
        LookupMd5Path IsDummy kInvalidInode p md5path true
          = Done (true, Some parent_dirent, p') /\
        inode d = inode parent_dirent /\
        parent_ c' = Some p'
  | None =>
      exists r groups',
        sql_lookup_md5path (table c) md5path = Some r /\
        GetDirent IsDummy kInvalidInode c r = Done (d, groups') /\
        parent_ c' = None
  end.
Proof.
  rewrite LookupMd5Path_unfold. intros Hlookup Hbit.
  destruct (negb (initialized_ c)); [discriminate |].
  destruct (sql_lookup_md5path (table c) md5path) as [r |]; [| discriminate].
  destruct (GetDirent IsDummy kInvalidInode c r) as [[dirent groups'] |] eqn:Eget;
    [| discriminate].
  destruct (FixTransitionPoint _ dirent) as [[dirent' parent'] |] eqn:Efix;
    [| discriminate].
  injection Hlookup as <- <-.
  pose proof (FixTransitionPoint_nested_root _ _ _ _ Efix Hbit) as Hfix.
  unfold parent_lookup in Hfix. destruct (parent_ c) as [p |].
  - destruct Hfix as (pd & p' & Hres & -> & ->).
    exists pd, p'. split; [exact Hres | split; reflexivity].
  - destruct Hfix as [-> ->]. exists r, groups'.
    split; [reflexivity | split; [exact Eget | reflexivity]].
Qed.

End CatalogFacts.

(** *** A small repository: a root catalog and one nested catalog *)

Definition IsDummy (r : InodeRange) : bool :=
  (0 <? offset r) && (range_size r =? 0).

Definition md5_root : Md5 := (1, 1).
Definition md5_a : Md5 := (10, 1).
Definition md5_a_b : Md5 := (20, 2).
Definition md5_a_b_f : Md5 := (30, 3).

Definition dir_mode : Z := 16877.
Definition file_mode : Z := 33188.

(** Root catalog: "", "/a" and the mountpoint "/a/b". *)
Definition root_catalog : Catalog :=
  mkCatalog
    [ mkRow 1 md5_root (0, 0) 0 "" dir_mode 4096 1000 false false;
      mkRow 2 md5_a md5_root 0 "a" dir_mode 4096 1000 false false;
      mkRow 3 md5_a_b md5_a 0 "b" dir_mode 4096 1000 false true ]
    true (mkRange 255 3) None ∅ None.

Definition nested_table : list Row :=
  [ mkRow 1 md5_a_b md5_a 0 "b" dir_mode 4096 1000 true false;
    mkRow 2 md5_a_b_f md5_a_b 0 "f" file_mode 12 1000 false false ].

(** The catalog mounted at "/a/b", attached below the root catalog. *)
Definition nested_catalog : Catalog :=
  mkCatalog nested_table true (mkRange 258 2) None ∅ (Some root_catalog).

(** The same database attached without a parent. *)
Definition detached_catalog : Catalog :=
  mkCatalog nested_table true (mkRange 258 2) None ∅ None.

Example lookup_mountpoint_in_root :
  LookupMd5Path IsDummy 0 root_catalog md5_a_b true
  = Done (true, Some (mkDirent 258 "b" dir_mode 4096 1000 0 false true),
          root_catalog).
Proof. vm_compute. reflexivity. Qed.

Example lookup_transition_point_fixed :
  LookupMd5Path IsDummy 0 nested_catalog md5_a_b true
  = Done (true, Some (mkDirent 258 "b" dir_mode 4096 1000 0 true false),
          nested_catalog).
Proof. vm_compute. reflexivity. Qed.

Example lookup_detached_keeps_own_inode :
  LookupMd5Path IsDummy 0 detached_catalog md5_a_b true
  = Done (true, Some (mkDirent 259 "b" dir_mode 4096 1000 0 true false),
          detached_catalog).
Proof. vm_compute. reflexivity. Qed.

(** Listing "/a" in the nested catalog: the entry "/a/b" receives the inode
    the parent records for the listed directory "/a" (257), not the one it
    records for "/a/b" (258). *)
Example listing_fixes_with_directory_hash :
  ListingMd5Path IsDummy 0 nested_catalog md5_a
  = Done ([mkDirent 257 "b" dir_mode 4096 1000 0 true false], nested_catalog).
Proof. vm_compute. reflexivity. Qed.

(** The fix-up as the specification words it, for lookups ... *)
Definition lookup_fixup_as_stated : Prop :=
  forall c md5path d c',
    LookupMd5Path IsDummy 0 c md5path true = Done (true, Some d, c') ->
    IsNestedCatalogRoot d = true ->
    exists p parent_dirent p',
      parent_ c = Some p /\
      LookupMd5Path IsDummy 0 p md5path true = Done (true, Some parent_dirent, p') /\
      inode d = inode parent_dirent.

(** ... and for listings, where "the same path" is the path of the row the
    entry was read from. *)
Definition listing_fixup_as_stated : Prop :=
  forall c md5path listing c' (i : nat) d r,
    ListingMd5Path IsDummy 0 c md5path = Done (listing, c') ->
    listing !! i = Some d ->
    sql_listing (table c) md5path !! i = Some r ->
    IsNestedCatalogRoot d = true ->
    exists p parent_dirent p',
      parent_ c = Some p /\
      LookupMd5Path IsDummy 0 p (Catalog.md5path r) true
        = Done (true, Some parent_dirent, p') /\
      inode d = inode parent_dirent.

(** C4 (counterexample).  A catalog attached without a parent returns its
    root entry with the bit set and its own inode; and the listing of "/a"
    in the nested catalog returns "/a/b" with inode 257 although the parent
    records 258 for "/a/b". *)
Lemma transition_fixup_counterexample :
  ~ lookup_fixup_as_stated /\ ~ listing_fixup_as_stated.
Proof.
  split.
  - intros H.
    destruct (H detached_catalog md5_a_b _ _ lookup_detached_keeps_own_inode eq_refl)
      as (p & pd & p' & Hparent & _).
    discriminate Hparent.
  - intros H.
    destruct (H nested_catalog md5_a _ _ 0%nat
                (mkDirent 257 "b" dir_mode 4096 1000 0 true false)
                (mkRow 1 md5_a_b md5_a 0 "b" dir_mode 4096 1000 true false)
                listing_fixes_with_directory_hash eq_refl eq_refl eq_refl)
      as (p & pd & p' & Hparent & Hlookup & Hinode).
    injection Hparent as <-.
    change (Catalog.md5path _) with md5_a_b in Hlookup.
    rewrite lookup_mountpoint_in_root in Hlookup.
    injection Hlookup as <- _. vm_compute in Hinode. discriminate Hinode.
Qed.

Lemma LookupMd5Path_fixes_transition_point_witness :
  exists parent_dirent p',
    LookupMd5Path IsDummy 0 root_catalog md5_a_b true
      = Done (true, Some parent_dirent, p') /\
    inode (mkDirent 258 "b" dir_mode 4096 1000 0 true false)
      = inode parent_dirent /\
    parent_ nested_catalog = Some p'.
Proof.
  apply (LookupMd5Path_fixes_transition_point IsDummy 0 nested_catalog md5_a_b
           (mkDirent 258 "b" dir_mode 4096 1000 0 true false) nested_catalog).
  - vm_compute. reflexivity.
  - reflexivity.
Defined.

(** A catalog whose inodes carry a generation annotation. *)
Definition annotated_catalog : Catalog :=
  mkCatalog nested_table true (mkRange 258 2)
            (Some (InodeGenerationAnnotation (2 ^ 40))) ∅ None.

Lemma GetRowIdFromInode_inverts_GetMangledInode_witness :
  exists assigned,
    GetMangledInode IsDummy 0 annotated_catalog 2 0
      = Done (assigned, hardlink_groups_ annotated_catalog) /\
    assigned = annotated annotated_catalog
                 (wrap_u64 (2 + offset (inode_range_ annotated_catalog))) /\
    (2 + offset (inode_range_ annotated_catalog) < 2 ^ 64 ->
     0 <= offset (inode_range_ annotated_catalog) ->
     assigned = annotated annotated_catalog
                  (2 + offset (inode_range_ annotated_catalog))) /\
    GetRowIdFromInode annotated_catalog assigned = 2.
Proof.
  apply (GetRowIdFromInode_inverts_GetMangledInode IsDummy 0 annotated_catalog 2).
  - reflexivity.
  - reflexivity.
  - unfold is_u64. lia.
  - intros a Ha. injection Ha as <-. apply InodeGenerationAnnotation_lawful.
Defined.

Example mangled_inode_annotated :
  GetMangledInode IsDummy 0 annotated_catalog 2 0
  = Done (2 ^ 40 + 260, ∅).
Proof. vm_compute. reflexivity. Qed.

End Catalog.

(** * The remount fence (cvmfs.cc: class RemountFence, RemountFinish) *)

Module Fence.

(** The primitives of atomic.h are the sequentially consistent
    read-modify-write operations their names say. *)
Definition atomic_read32 (x : Z) : Z := x.
Definition atomic_read64 (x : Z) : Z := x.
Definition atomic_inc64 (x : Z) : Z := wrap_s64 (x + 1).
Definition atomic_dec64 (x : Z) : Z := wrap_s64 (x - 1).
Definition atomic_cas32 (x old new : Z) : bool * Z :=
  if x =? old then (true, new) else (false, x).

(** [class RemountFence]. *)
Record RemountFence := mkFence {
  counter_ : Z;
  blocking_ : Z
}.

(** Where a filesystem call stands with respect to Enter()/Leave().  Each
    constructor is the point before one atomic operation of the source. *)
Inductive ReaderPc :=
| Outside      (* no call in flight, or after Leave() *)
| EnterTest    (* Enter(): about to evaluate atomic_read32(&blocking_) *)
| EnterSleep   (* Enter(): in SafeSleepMs(100) *)
| EnterInc     (* Enter(): loop left, about to atomic_inc64(&counter_) *)
| Inside.      (* Enter() returned, Leave() not yet called *)

(** Where RemountFinish stands with respect to Block()/Unblock(). *)
Inductive CommitterPc :=
| Steady       (* not remounting *)
| BlockCas     (* Block(): about to atomic_cas32(&blocking_, 0, 1) *)
| BlockTest    (* Block(): about to evaluate atomic_read64(&counter_) > 0 *)
| BlockSleep   (* Block(): in SafeSleepMs(100) *)
| Swapping.    (* Block() returned: Remount(false) runs; Unblock() pending *)

Record System := mkSystem {
  fence : RemountFence;
  readers : list ReaderPc;
  committer : CommitterPc
}.

(** RemountFence::Enter and RemountFence::Leave, one atomic step at a
    time. *)
Definition reader_step (pc : ReaderPc) (f : RemountFence)
  : ReaderPc * RemountFence :=
  match pc with
  | Outside => (EnterTest, f)
  | EnterTest =>
      if atomic_read32 (blocking_ f) =? 0 then (EnterInc, f)
      else (EnterSleep, f)
  | EnterSleep => (EnterTest, f)
  | EnterInc => (Inside, mkFence (atomic_inc64 (counter_ f)) (blocking_ f))
  | Inside => (Outside, mkFence (atomic_dec64 (counter_ f)) (blocking_ f))
  end.

(** RemountFence::Block and RemountFence::Unblock as RemountFinish calls
    them (lines 422-428), one atomic step at a time. *)
Definition committer_step (pc : CommitterPc) (f : RemountFence)
  : CommitterPc * RemountFence :=
  match pc with
  | Steady => (BlockCas, f)
  | BlockCas =>
      (BlockTest, mkFence (counter_ f) (atomic_cas32 (blocking_ f) 0 1).2)
  | BlockTest =>
      if atomic_read64 (counter_ f) >? 0 then (BlockSleep, f)
      else (Swapping, f)
  | BlockSleep => (BlockTest, f)
  | Swapping =>
      (Steady, mkFence (counter_ f) (atomic_cas32 (blocking_ f) 1 0).2)
  end.

(** The scheduler picks the thread that performs the next atomic step. *)
Inductive Thread :=
| Reader (i : nat)
| Committer.

Definition step (t : Thread) (s : System) : System :=
  match t with
  | Reader i =>
      match readers s !! i with
      | Some pc =>
          let r := reader_step pc (fence s) in
          mkSystem r.2 (<[i := r.1]> (readers s)) (committer s)
      | None => s
      end
  | Committer =>
      let r := committer_step (committer s) (fence s) in
      mkSystem r.2 (readers s) r.1
  end.

Definition run (schedule : list Thread) (s : System) : System :=
  foldl (fun s t => step t s) s schedule.

(** [n] filesystem threads, none of them in a call; fence as constructed
    (both atomics initialised to zero). *)
Definition initial (n : nat) : System :=
  mkSystem (mkFence 0 0) (replicate n Outside) Steady.

Definition is_inside (pc : ReaderPc) : bool :=
  match pc with Inside => true | _ => false end.

Fixpoint count_inside (l : list ReaderPc) : nat :=
  match l with
  | [] => 0%nat
  | pc :: rest => ((if is_inside pc then 1 else 0) + count_inside rest)%nat
  end.

(** What the fence is for: while the committer is between Block() and
    Unblock(), no call is between Enter() and Leave(). *)
Definition mutual_exclusion (s : System) : Prop :=
  committer s = Swapping -> count_inside (readers s) = 0%nat.

(** The counter counts the calls between Enter() and Leave(). *)
Definition counter_exact (s : System) : Prop :=
  counter_ (fence s) = Z.of_nat (count_inside (readers s)).

Definition ind (pc : ReaderPc) : Z := if is_inside pc then 1 else 0.

Lemma count_inside_cons pc l :
  Z.of_nat (count_inside (pc :: l)) = ind pc + Z.of_nat (count_inside l).
Proof. unfold ind. simpl. destruct (is_inside pc); lia. Qed.

Lemma count_inside_insert l : forall (i : nat) pc pc',
  l !! i = Some pc ->
  Z.of_nat (count_inside (<[i := pc']> l))
  = Z.of_nat (count_inside l) - ind pc + ind pc'.
Proof.
  induction l as [| x l IH]; intros i pc pc' Hi; [discriminate |].
  destruct i as [| i]; simpl in Hi.
  - injection Hi as ->. change (<[0%nat := pc']> (pc :: l)) with (pc' :: l).
    rewrite !count_inside_cons. lia.
  - change (<[S i := pc']> (x :: l)) with (x :: <[i := pc']> l).
    rewrite !count_inside_cons. rewrite (IH i pc pc' Hi). lia.
Qed.

Lemma count_inside_le l : (count_inside l <= length l)%nat.
Proof.
  induction l as [| pc l IH]; simpl; [lia |]. destruct (is_inside pc); lia.
Qed.

Lemma step_readers_length t s : length (readers (step t s)) = length (readers s).
Proof.
  destruct t as [i |]; simpl; [| reflexivity].
  destruct (readers s !! i); simpl; [apply length_insert | reflexivity].
Qed.

Lemma step_counter_exact t s :
  Z.of_nat (length (readers s)) < 2 ^ 62 ->
  counter_exact s -> counter_exact (step t s).
Proof.
  unfold counter_exact. intros Hlen Hc.
  pose proof (count_inside_le (readers s)) as Hle.
  destruct t as [i |]; simpl.
  - destruct (readers s !! i) as [pc |] eqn:Ei; [| exact Hc]. simpl.
    rewrite (count_inside_insert _ _ _ _ Ei).
    pose proof (count_inside_insert _ _ _ Outside Ei) as Hpos.
    destruct pc; simpl; unfold ind in *; simpl in *; try lia.
    + destruct (atomic_read32 (blocking_ (fence s)) =? 0); simpl; lia.
    + unfold atomic_inc64. unfold wrap_s64. rewrite Hc.
      rewrite Z.mod_small by lia. lia.
    + unfold atomic_dec64. unfold wrap_s64. rewrite Hc.
      rewrite Z.mod_small by lia. lia.
  - destruct (committer s); simpl; try exact Hc.
    destruct (atomic_read64 (counter_ (fence s)) >? 0); exact Hc.
Qed.

Lemma run_counter_exact schedule : forall s,
  Z.of_nat (length (readers s)) < 2 ^ 62 ->
  counter_exact s -> counter_exact (run schedule s).
Proof.
  induction schedule as [| t rest IH]; intros s Hlen Hc; [exact Hc |].
  simpl. apply IH.
  - rewrite step_readers_length. exact Hlen.
  - apply step_counter_exact; assumption.
Qed.

(** At the step at which Block() returns, the counter is zero and nobody is
    between Enter() and Leave(). *)
Lemma Block_returns_on_zero_counter s :
  Z.of_nat (length (readers s)) < 2 ^ 62 ->
  counter_exact s ->
  committer s = BlockTest ->
  committer (step Committer s) = Swapping ->
  counter_ (fence s) = 0 /\ count_inside (readers (step Committer s)) = 0%nat.
Proof.
  unfold counter_exact. intros _ Hc Hpc. simpl. rewrite Hpc. simpl.
  unfold atomic_read64.
  destruct (Z.gtb_spec (counter_ (fence s)) 0) as [Hgt | Hle]; simpl;
    [discriminate |].
  intros _. lia.
Qed.

(** A call whose Enter() tests the flag while it is set goes to sleep and
    does not increment the counter before the flag is cleared. *)
Lemma Enter_waits_while_blocking f :
  blocking_ f <> 0 ->
  reader_step EnterTest f = (EnterSleep, f) /\
  reader_step EnterSleep f = (EnterTest, f).
Proof.
  intros Hb. simpl. unfold atomic_read32.
  destruct (Z.eqb_spec (blocking_ f) 0); [contradiction | split; reflexivity].
Qed.

(** The interleaving that defeats the fence: the call tests the flag, the
    committer sets the flag and finds the counter at zero, the call
    increments the counter. *)
Definition racing_schedule : list Thread :=
  [ Reader 0; Reader 0;              (* Enter(): blocking_ read as 0 *)
    Committer; Committer; Committer; (* Block(): cas, counter_ == 0, return *)
    Reader 0 ].                      (* Enter(): atomic_inc64, return *)

(** C1 (defect).  From the initial state the racing schedule reaches a state
    in which Block() has returned, Unblock() has not been called, and a
    filesystem call is between Enter() and Leave(). *)
Theorem fence_admits_reader_during_swap :
  let s := run racing_schedule (initial 1) in
  committer s = Swapping /\
  readers s = [Inside] /\
  fence s = mkFence 1 1 /\
  ~ mutual_exclusion s.
Proof.
  repeat split. intros H. specialize (H eq_refl). discriminate H.
Qed.

End Fence.

(** * The tiered cache manager (cache_tiered.cc) *)

Module Tiered.

(** The [CacheManager] interface, as far as TieredCacheManager::Open uses
    it.  A backend is a set of operations on its own state; the memory of
    the transaction handed to StartTxn is part of that state.  Pread
    returns its result together with the bytes it stored into the buffer. *)
Record CacheManager (Hash ObjectInfo S : Type) := mkCacheManager {
  cm_Open : Hash -> ObjectInfo -> S -> Z * S;
  cm_GetSize : Z -> S -> Z * S;
  cm_Close : Z -> S -> Z * S;
  cm_Pread : Z -> Z -> Z -> S -> (Z * list Z) * S;
  cm_StartTxn : Hash -> Z -> S -> Z * S;
  cm_CtrlTxn : ObjectInfo -> Z -> S -> S;
  cm_Write : list Z -> Z -> S -> Z * S;
  cm_AbortTxn : S -> Z * S;
  cm_OpenFromTxn : S -> Z * S;
  cm_CommitTxn : S -> Z * S
}.

Arguments cm_Open {Hash ObjectInfo S} _ _ _ _.
Arguments cm_GetSize {Hash ObjectInfo S} _ _ _.
Arguments cm_Close {Hash ObjectInfo S} _ _ _.
Arguments cm_Pread {Hash ObjectInfo S} _ _ _ _ _.
Arguments cm_StartTxn {Hash ObjectInfo S} _ _ _ _.
Arguments cm_CtrlTxn {Hash ObjectInfo S} _ _ _ _.
Arguments cm_Write {Hash ObjectInfo S} _ _ _ _.
Arguments cm_AbortTxn {Hash ObjectInfo S} _ _.
Arguments cm_OpenFromTxn {Hash ObjectInfo S} _ _.
Arguments cm_CommitTxn {Hash ObjectInfo S} _ _.

(** The calls Open makes on the two layers, with what they returned. *)
Inductive Event (Hash ObjectInfo : Type) :=
| UpperOpen (r : Z)
| LowerOpen (r : Z)
| LowerGetSize (fd r : Z)
| LowerClose (fd : Z)
| UpperStartTxn (id : Hash) (size r : Z)
| UpperCtrlTxn (info : ObjectInfo) (flags : Z)
| LowerPread (fd nbytes offset r : Z) (data : list Z)
| UpperWrite (data : list Z) (nbytes r : Z)
| UpperAbortTxn
| UpperOpenFromTxn (r : Z)
| UpperCommitTxn (r : Z)
| UpperClose (fd : Z).

Arguments UpperOpen {Hash ObjectInfo} r.
Arguments LowerOpen {Hash ObjectInfo} r.
Arguments LowerGetSize {Hash ObjectInfo} fd r.
Arguments LowerClose {Hash ObjectInfo} fd.
Arguments UpperStartTxn {Hash ObjectInfo} id size r.
Arguments UpperCtrlTxn {Hash ObjectInfo} info flags.
Arguments LowerPread {Hash ObjectInfo} fd nbytes offset r data.
Arguments UpperWrite {Hash ObjectInfo} data nbytes r.
Arguments UpperAbortTxn {Hash ObjectInfo}.
Arguments UpperOpenFromTxn {Hash ObjectInfo} r.
Arguments UpperCommitTxn {Hash ObjectInfo} r.
Arguments UpperClose {Hash ObjectInfo} fd.

Section WithLayers.

Variables Hash ObjectInfo SU SL : Type.

(** [BlessedObject]: the content hash and the object description. *)
Record BlessedObject := mkObject {
  id : Hash;
  info : ObjectInfo
}.

(** [class TieredCacheManager]. *)
Record TieredCacheManager := mkTiered {
  upper_ : CacheManager Hash ObjectInfo SU;
  lower_ : CacheManager Hash ObjectInfo SL;
  lower_readonly_ : bool
}.

(** kCopyBufferSize is declared in cache_tiered.h. *)
Variable kCopyBufferSize : Z.

(** The state of the two layers, the copy buffer [m_buffer], and the log
    of the calls made so far. *)
Record World := mkWorld {
  upper_state : SU;
  lower_state : SL;
  m_buffer : list Z;
  calls : list (Event Hash ObjectInfo)
}.

Variable mgr : TieredCacheManager.

Definition log (e : Event Hash ObjectInfo) (su : SU) (sl : SL) (w : World)
  : World :=
  mkWorld su sl (m_buffer w) (calls w ++ [e]).

Definition upper_Open (object : BlessedObject) (w : World) : Z * World :=
  let r := cm_Open (upper_ mgr) (id object) (info object) (upper_state w) in
  (r.1, log (UpperOpen r.1) r.2 (lower_state w) w).

Definition lower_Open (object : BlessedObject) (w : World) : Z * World :=
  let r := cm_Open (lower_ mgr) (id object) (info object) (lower_state w) in
  (r.1, log (LowerOpen r.1) (upper_state w) r.2 w).

Definition lower_GetSize (fd : Z) (w : World) : Z * World :=
  let r := cm_GetSize (lower_ mgr) fd (lower_state w) in
  (r.1, log (LowerGetSize fd r.1) (upper_state w) r.2 w).

Definition lower_Close (fd : Z) (w : World) : World :=
  let r := cm_Close (lower_ mgr) fd (lower_state w) in
  log (LowerClose fd) (upper_state w) r.2 w.

Definition upper_Close (fd : Z) (w : World) : World :=
  let r := cm_Close (upper_ mgr) fd (upper_state w) in
  log (UpperClose fd) r.2 (lower_state w) w.

Definition upper_StartTxn (h : Hash) (size : Z) (w : World) : Z * World :=
  let r := cm_StartTxn (upper_ mgr) h size (upper_state w) in
  (r.1, log (UpperStartTxn h size r.1) r.2 (lower_state w) w).

Definition upper_CtrlTxn (i : ObjectInfo) (flags : Z) (w : World) : World :=
  log (UpperCtrlTxn i flags)
      (cm_CtrlTxn (upper_ mgr) i flags (upper_state w)) (lower_state w) w.

(** Pread into [&m_buffer[0]]: the bytes read overwrite the front of the
    buffer. *)
Definition lower_Pread (fd nbytes offset : Z) (w : World) : Z * World :=
  let r := cm_Pread (lower_ mgr) fd nbytes offset (lower_state w) in
  let data := r.1.2 in
  (r.1.1,
   mkWorld (upper_state w) r.2 (data ++ drop (length data) (m_buffer w))
           (calls w ++ [LowerPread fd nbytes offset r.1.1 data])).

(** Write of the first [nbytes] bytes of [m_buffer]. *)
Definition upper_Write (nbytes : Z) (w : World) : Z * World :=
  let data := take (Z.to_nat nbytes) (m_buffer w) in
  let r := cm_Write (upper_ mgr) data nbytes (upper_state w) in
  (r.1, log (UpperWrite data nbytes r.1) r.2 (lower_state w) w).

Definition upper_AbortTxn (w : World) : World :=
  let r := cm_AbortTxn (upper_ mgr) (upper_state w) in
  log UpperAbortTxn r.2 (lower_state w) w.

Definition upper_OpenFromTxn (w : World) : Z * World :=
  let r := cm_OpenFromTxn (upper_ mgr) (upper_state w) in
  (r.1, log (UpperOpenFromTxn r.1) r.2 (lower_state w) w).

Definition upper_CommitTxn (w : World) : Z * World :=
  let r := cm_CommitTxn (upper_ mgr) (upper_state w) in
  (r.1, log (UpperCommitTxn r.1) r.2 (lower_state w) w).

(** The copy loop of Open (lines 74-91).  [Some (true, w)]: the loop ran to
    completion; [Some (false, w)]: a read or a write failed and the loop
    body closed [fd2] and aborted the transaction; [None]: [fuel] rounds
    did not exhaust [remaining]. *)
Fixpoint copy_loop (fuel : nat) (fd2 remaining offset : Z) (w : World)
  : option (bool * World) :=
  if remaining >? 0 then
    match fuel with
    | O => None
    | S fuel' =>
        let nbytes :=
          wrap_u32 (if remaining >? kCopyBufferSize then kCopyBufferSize
                    else remaining) in
        let rd := lower_Pread fd2 nbytes offset w in
        if (rd.1 <? 0) || negb (rd.1 =? nbytes)
        then Some (false, upper_AbortTxn (lower_Close fd2 rd.2))
        else
          let wr := upper_Write nbytes rd.2 in
          if wr.1 <? 0
          then Some (false, upper_AbortTxn (lower_Close fd2 wr.2))
          else copy_loop fuel' fd2 (wrap_u64 (remaining - nbytes))
                         (wrap_u64 (offset + nbytes)) wr.2
    end
  else Some (true, w).

(** TieredCacheManager::Open (lines 49-103).  The loop needs at most one
    round per byte. *)
Definition Open (object : BlessedObject) (w : World) : option (Z * World) :=
  let up := upper_Open object w in
  let fd := up.1 in
  if (fd >=? 0) || negb (fd =? - ENOENT) then Some (fd, up.2)
  else
    let lo := lower_Open object up.2 in
    let fd2 := lo.1 in
    if fd2 <? 0 then Some (fd, lo.2)
    else
      let sz := lower_GetSize fd2 lo.2 in
      let size := sz.1 in
      if size <? 0 then Some (fd, lower_Close fd2 sz.2)
      else
        let st := upper_StartTxn (id object) (wrap_u64 size) sz.2 in
        if st.1 <? 0 then Some (fd, lower_Close fd2 st.2)
        else
          let w5 := upper_CtrlTxn (info object) 0 st.2 in
          match copy_loop (Z.to_nat size) fd2 (wrap_u64 size) 0 w5 with
          | None => None
          | Some (false, w6) => Some (fd, w6)
          | Some (true, w6) =>
              let w7 := lower_Close fd2 w6 in
              let op := upper_OpenFromTxn w7 in
              let fd_return := op.1 in
              if fd_return <? 0 then Some (fd, upper_AbortTxn op.2)
              else
                let cm := upper_CommitTxn op.2 in
                if cm.1 <? 0 then Some (fd, upper_Close fd_return cm.2)
                else Some (fd_return, cm.2)
          end.

End WithLayers.

Arguments mkObject {Hash ObjectInfo} _ _.
Arguments id {Hash ObjectInfo} _.
Arguments info {Hash ObjectInfo} _.
Arguments mkTiered {Hash ObjectInfo SU SL} _ _ _.
Arguments upper_ {Hash ObjectInfo SU SL} _.
Arguments lower_ {Hash ObjectInfo SU SL} _.
Arguments mkWorld {Hash ObjectInfo SU SL} _ _ _ _.
Arguments upper_state {Hash ObjectInfo SU SL} _.
Arguments lower_state {Hash ObjectInfo SU SL} _.
Arguments m_buffer {Hash ObjectInfo SU SL} _.
Arguments calls {Hash ObjectInfo SU SL} _.
Arguments log {Hash ObjectInfo SU SL} _ _ _ _.
Arguments upper_Open {Hash ObjectInfo SU SL} _ _ _.
Arguments lower_Open {Hash ObjectInfo SU SL} _ _ _.
Arguments lower_GetSize {Hash ObjectInfo SU SL} _ _ _.
Arguments lower_Close {Hash ObjectInfo SU SL} _ _ _.
Arguments upper_Close {Hash ObjectInfo SU SL} _ _ _.
Arguments upper_StartTxn {Hash ObjectInfo SU SL} _ _ _ _.
Arguments upper_CtrlTxn {Hash ObjectInfo SU SL} _ _ _ _.
Arguments lower_Pread {Hash ObjectInfo SU SL} _ _ _ _ _.
Arguments upper_Write {Hash ObjectInfo SU SL} _ _ _.
Arguments upper_AbortTxn {Hash ObjectInfo SU SL} _ _.
Arguments upper_OpenFromTxn {Hash ObjectInfo SU SL} _ _.
Arguments upper_CommitTxn {Hash ObjectInfo SU SL} _ _.
Arguments copy_loop {Hash ObjectInfo SU SL} _ _ _ _ _ _ _.
Arguments Open {Hash ObjectInfo SU SL} _ _ _ _.

(** *** Reading the call log *)

Section Logs.

Context {Hash ObjectInfo : Type}.
Implicit Types (e : Event Hash ObjectInfo) (tr : list (Event Hash ObjectInfo)).

(** A call on the lower layer. *)
Definition lower_call e : bool :=
  match e with
  | LowerOpen _ | LowerGetSize _ _ | LowerClose _ | LowerPread _ _ _ _ _ => true
  | _ => false
  end.



(** Offsets and lengths of the reads, the bytes read, the bytes written. *)
Fixpoint read_plan tr : list (Z * Z) :=
  match tr with
  | [] => []
  | LowerPread _ nbytes offset _ _ :: rest => (offset, nbytes) :: read_plan rest
  | _ :: rest => read_plan rest
  end.




End Logs.

(** *** The log against the backends

    The log is what an observer of the two backends sees.  Making the
    logged calls again, in order, on the states the layers had before Open
    must give the logged results and the states Open leaves behind. *)

Section Replay.

Context {Hash ObjectInfo SU SL : Type}.
Variable mgr : @TieredCacheManager Hash ObjectInfo SU SL.
Variable object : BlessedObject Hash ObjectInfo.

Implicit Types (w : @World Hash ObjectInfo SU SL) (s : SU * SL).

(** Equality of two byte strings. *)
Fixpoint same_bytes (a b : list Z) : bool :=
  match a, b with
  | [], [] => true
  | x :: a', y :: b' => (x =? y) && same_bytes a' b'
  | _, _ => false
  end.

(** One logged call of Open for [object], made again on the backends in
    the states [s]: whether the backend returns what the log recorded, and
    the states the call leaves. *)
Definition replay_event (e : Event Hash ObjectInfo) s : bool * (SU * SL) :=
  match e with
  | UpperOpen r =>
      let c := cm_Open (upper_ mgr) (id object) (info object) s.1 in
      (c.1 =? r, (c.2, s.2))
  | LowerOpen r =>
      let c := cm_Open (lower_ mgr) (id object) (info object) s.2 in
      (c.1 =? r, (s.1, c.2))
  | LowerGetSize fd r =>
      let c := cm_GetSize (lower_ mgr) fd s.2 in (c.1 =? r, (s.1, c.2))
  | LowerClose fd => (true, (s.1, (cm_Close (lower_ mgr) fd s.2).2))
  | UpperStartTxn h size r =>
      let c := cm_StartTxn (upper_ mgr) h size s.1 in (c.1 =? r, (c.2, s.2))
  | UpperCtrlTxn i flags => (true, (cm_CtrlTxn (upper_ mgr) i flags s.1, s.2))
  | LowerPread fd nbytes offset r data =>
      let c := cm_Pread (lower_ mgr) fd nbytes offset s.2 in
      ((c.1.1 =? r) && same_bytes c.1.2 data, (s.1, c.2))
  | UpperWrite data nbytes r =>
      let c := cm_Write (upper_ mgr) data nbytes s.1 in (c.1 =? r, (c.2, s.2))
  | UpperAbortTxn => (true, ((cm_AbortTxn (upper_ mgr) s.1).2, s.2))
  | UpperOpenFromTxn r =>
      let c := cm_OpenFromTxn (upper_ mgr) s.1 in (c.1 =? r, (c.2, s.2))
  | UpperCommitTxn r =>
      let c := cm_CommitTxn (upper_ mgr) s.1 in (c.1 =? r, (c.2, s.2))
  | UpperClose fd => (true, ((cm_Close (upper_ mgr) fd s.1).2, s.2))
  end.

(** The log made again, call by call: whether every call returns what the
    log recorded, and the states of the two layers at the end. *)
Fixpoint replay (tr : list (Event Hash ObjectInfo)) s : bool * (SU * SL) :=
  match tr with
  | [] => (true, s)
  | e :: rest =>
      let r := replay_event e s in
      let later := replay rest r.2 in
      (r.1 && later.1, later.2)
  end.

(** [w'] is reached from [w] by making the calls [evs] on the backends. *)
Definition performs w (evs : list (Event Hash ObjectInfo)) w' : Prop :=
  calls w' = calls w ++ evs /\
  replay evs (upper_state w, lower_state w)
  = (true, (upper_state w', lower_state w')).

Lemma same_bytes_refl a : same_bytes a a = true.
Proof.
  induction a as [| x a IH]; [reflexivity |].
  simpl. rewrite Z.eqb_refl. exact IH.
Qed.

Lemma replay_app tr1 tr2 s :
  replay (tr1 ++ tr2) s
  = ((replay tr1 s).1 && (replay tr2 (replay tr1 s).2).1,
     (replay tr2 (replay tr1 s).2).2).
Proof.
  revert s. induction tr1 as [| e tr1 IH]; intros s.
  - simpl. destruct (replay tr2 s). reflexivity.
  - cbn [app replay fst snd]. rewrite IH. cbn [fst snd].
    rewrite andb_assoc. reflexivity.
Qed.

Lemma performs_refl w : performs w [] w.
Proof. split; [rewrite app_nil_r; reflexivity | reflexivity]. Qed.

Lemma performs_trans w1 evs1 w2 evs2 w3 :
  performs w1 evs1 w2 -> performs w2 evs2 w3 -> performs w1 (evs1 ++ evs2) w3.
Proof.
  intros [Hc1 Hr1] [Hc2 Hr2]. split.
  - rewrite Hc2, Hc1, app_assoc. reflexivity.
  - rewrite replay_app, Hr1. cbn [fst snd]. rewrite Hr2. reflexivity.
Qed.

Lemma performs_event w e w' :
  calls w' = calls w ++ [e] ->
  replay_event e (upper_state w, lower_state w)
  = (true, (upper_state w', lower_state w')) ->
  performs w [e] w'.
Proof.
  intros Hc He. split; [exact Hc |]. cbn [replay]. rewrite He. reflexivity.
Qed.

Lemma upper_Open_performs w :
  performs w [UpperOpen (upper_Open mgr object w).1] (upper_Open mgr object w).2.
Proof. apply performs_event; [reflexivity |]. simpl. rewrite Z.eqb_refl. reflexivity. Qed.

Lemma lower_Open_performs w :
  performs w [LowerOpen (lower_Open mgr object w).1] (lower_Open mgr object w).2.
Proof. apply performs_event; [reflexivity |]. simpl. rewrite Z.eqb_refl. reflexivity. Qed.

Lemma lower_GetSize_performs fd w :
  performs w [LowerGetSize fd (lower_GetSize mgr fd w).1] (lower_GetSize mgr fd w).2.
Proof. apply performs_event; [reflexivity |]. simpl. rewrite Z.eqb_refl. reflexivity. Qed.

Lemma lower_Close_performs fd w : performs w [LowerClose fd] (lower_Close mgr fd w).
Proof. apply performs_event; reflexivity. Qed.

Lemma upper_Close_performs fd w : performs w [UpperClose fd] (upper_Close mgr fd w).
Proof. apply performs_event; reflexivity. Qed.

Lemma upper_StartTxn_performs h size w :
  performs w [UpperStartTxn h size (upper_StartTxn mgr h size w).1]
           (upper_StartTxn mgr h size w).2.
Proof. apply performs_event; [reflexivity |]. simpl. rewrite Z.eqb_refl. reflexivity. Qed.

Lemma upper_CtrlTxn_performs i flags w :
  performs w [UpperCtrlTxn i flags] (upper_CtrlTxn mgr i flags w).
Proof. apply performs_event; reflexivity. Qed.

Lemma lower_Pread_performs fd nbytes offset w :
  performs w [LowerPread fd nbytes offset (lower_Pread mgr fd nbytes offset w).1
                (cm_Pread (lower_ mgr) fd nbytes offset (lower_state w)).1.2]
           (lower_Pread mgr fd nbytes offset w).2.
Proof.
  apply performs_event; [reflexivity |]. simpl.
  rewrite Z.eqb_refl, same_bytes_refl. reflexivity.
Qed.

Lemma upper_Write_performs nbytes w :
  performs w [UpperWrite (take (Z.to_nat nbytes) (m_buffer w)) nbytes
                (upper_Write mgr nbytes w).1]
           (upper_Write mgr nbytes w).2.
Proof. apply performs_event; [reflexivity |]. simpl. rewrite Z.eqb_refl. reflexivity. Qed.

Lemma upper_AbortTxn_performs w : performs w [UpperAbortTxn] (upper_AbortTxn mgr w).
Proof. apply performs_event; reflexivity. Qed.

Lemma upper_OpenFromTxn_performs w :
  performs w [UpperOpenFromTxn (upper_OpenFromTxn mgr w).1] (upper_OpenFromTxn mgr w).2.
Proof. apply performs_event; [reflexivity |]. simpl. rewrite Z.eqb_refl. reflexivity. Qed.

Lemma upper_CommitTxn_performs w :
  performs w [UpperCommitTxn (upper_CommitTxn mgr w).1] (upper_CommitTxn mgr w).2.
Proof. apply performs_event; [reflexivity |]. simpl. rewrite Z.eqb_refl. reflexivity. Qed.

Variable kCopyBufferSize : Z.

Lemma copy_loop_performs fuel : forall fd2 remaining offset w b w',
  copy_loop kCopyBufferSize mgr fuel fd2 remaining offset w = Some (b, w') ->
  exists evs, performs w evs w'.
Proof.
  induction fuel as [| fuel IH]; intros fd2 remaining offset w b w' Hloop;
    cbn [copy_loop] in Hloop; destruct (remaining >? 0);
    try discriminate;
    try (injection Hloop as <- <-; exists []; apply performs_refl).
  set (nbytes := wrap_u32 _) in Hloop.
  pose proof (lower_Pread_performs fd2 nbytes offset w) as Hrd.
  set (rd := lower_Pread mgr fd2 nbytes offset w) in *.
  destruct ((rd.1 <? 0) || negb (rd.1 =? nbytes)).
  { injection Hloop as <- <-. eexists.
    exact (performs_trans _ _ _ _ _ Hrd
             (performs_trans _ _ _ _ _ (lower_Close_performs fd2 rd.2)
                (upper_AbortTxn_performs _))). }
  pose proof (upper_Write_performs nbytes rd.2) as Hwr.
  set (wr := upper_Write mgr nbytes rd.2) in *.
  destruct (wr.1 <? 0).
  { injection Hloop as <- <-. eexists.
    exact (performs_trans _ _ _ _ _ Hrd
             (performs_trans _ _ _ _ _ Hwr
                (performs_trans _ _ _ _ _ (lower_Close_performs fd2 wr.2)
                   (upper_AbortTxn_performs _)))). }
  destruct (IH _ _ _ _ _ _ Hloop) as [evs Hevs].
  eexists.
  exact (performs_trans _ _ _ _ _ Hrd (performs_trans _ _ _ _ _ Hwr Hevs)).
Qed.

(** Whatever Open returns, its log is the record of the calls it made on
    the two backends. *)
Lemma Open_performs w r w' :
  Open kCopyBufferSize mgr object w = Some (r, w') ->
  exists evs, performs w evs w'.
Proof.
  unfold Open. intros Hopen.
  pose proof (upper_Open_performs w) as Hup.
  set (up := upper_Open mgr object w) in *.
  destruct ((up.1 >=? 0) || negb (up.1 =? - ENOENT)).
  { injection Hopen as <- <-. eexists. exact Hup. }
  pose proof (lower_Open_performs up.2) as Hlo.
  set (lo := lower_Open mgr object up.2) in *.
  pose proof (performs_trans _ _ _ _ _ Hup Hlo) as H2.
  destruct (lo.1 <? 0).
  { injection Hopen as <- <-. eexists. exact H2. }
  pose proof (lower_GetSize_performs lo.1 lo.2) as Hsz.
  set (sz := lower_GetSize mgr lo.1 lo.2) in *.
  pose proof (performs_trans _ _ _ _ _ H2 Hsz) as H3.
  destruct (sz.1 <? 0).
  { injection Hopen as <- <-. eexists.
    exact (performs_trans _ _ _ _ _ H3 (lower_Close_performs _ _)). }
  pose proof (upper_StartTxn_performs (id object) (wrap_u64 sz.1) sz.2) as Hst.
  set (st := upper_StartTxn mgr (id object) (wrap_u64 sz.1) sz.2) in *.
  pose proof (performs_trans _ _ _ _ _ H3 Hst) as H4.
  destruct (st.1 <? 0).
  { injection Hopen as <- <-. eexists.
    exact (performs_trans _ _ _ _ _ H4 (lower_Close_performs _ _)). }
  pose proof (performs_trans _ _ _ _ _ H4
                (upper_CtrlTxn_performs (info object) 0 st.2)) as H5.
  set (w5 := upper_CtrlTxn mgr (info object) 0 st.2) in *.
  destruct (copy_loop kCopyBufferSize mgr (Z.to_nat sz.1) lo.1 (wrap_u64 sz.1) 0 w5)
    as [[b w6] |] eqn:Hloop; [| discriminate].
  destruct (copy_loop_performs _ _ _ _ _ _ _ Hloop) as [copy Hcopy].
  pose proof (performs_trans _ _ _ _ _ H5 Hcopy) as H6.
  destruct b.
  2:{ injection Hopen as <- <-. eexists. exact H6. }
  pose proof (performs_trans _ _ _ _ _ H6 (lower_Close_performs lo.1 w6)) as H7.
  set (w7 := lower_Close mgr lo.1 w6) in *.
  pose proof (performs_trans _ _ _ _ _ H7 (upper_OpenFromTxn_performs w7)) as H8.
  set (op := upper_OpenFromTxn mgr w7) in *.
  destruct (op.1 <? 0).
  { injection Hopen as <- <-. eexists.
    exact (performs_trans _ _ _ _ _ H8 (upper_AbortTxn_performs _)). }
  pose proof (performs_trans _ _ _ _ _ H8 (upper_CommitTxn_performs op.2)) as H9.
  set (cm := upper_CommitTxn mgr op.2) in *.
  destruct (cm.1 <? 0).
  { injection Hopen as <- <-. eexists.
    exact (performs_trans _ _ _ _ _ H9 (upper_Close_performs _ _)). }
  injection Hopen as <- <-. eexists. exact H9.
Qed.

Lemma Open_replays w r w' :
  calls w = [] ->
  Open kCopyBufferSize mgr object w = Some (r, w') ->
  replay (calls w') (upper_state w, lower_state w)
  = (true, (upper_state w', lower_state w')).
Proof.
  intros Hcalls Hopen. destruct (Open_performs w r w' Hopen) as (evs & Hc & Hr).
  rewrite Hcalls in Hc. simpl in Hc. rewrite Hc. exact Hr.
Qed.

End Replay.

Section TieredFacts.

Context {Hash ObjectInfo SU SL : Type}.
Variable kCopyBufferSize : Z.
Variable mgr : @TieredCacheManager Hash ObjectInfo SU SL.

Implicit Types (w : @World Hash ObjectInfo SU SL).





End TieredFacts.

(** *** A backend to run the read path on *)

(** Modelled from the spec: the backends are other CacheManager subclasses.
    This one follows the cache backend contract (open returns a descriptor
    or -ENOENT, pread returns the bytes at the offset, a transaction
    collects the bytes written and becomes an object on commit) with
    everything held in memory. *)
Record MemCache := mkMemCache {
  objects : list (Z * list Z);
  open_fds : list (Z * list Z);
  next_fd : Z;
  txn : option (Z * Z * list Z)
}.

Definition EBADF : Z := 9.

Fixpoint assoc (k : Z) (l : list (Z * list Z)) : option (list Z) :=
  match l with
  | [] => None
  | (k', v) :: rest => if k' =? k then Some v else assoc k rest
  end.

Definition mem_cache : CacheManager Z unit MemCache :=
  mkCacheManager Z unit MemCache
    (fun h _ s =>
       match assoc h (objects s) with
       | Some content =>
           (next_fd s, mkMemCache (objects s) ((next_fd s, content) :: open_fds s)
                                  (next_fd s + 1) (txn s))
       | None => (- ENOENT, s)
       end)
    (fun fd s =>
       match assoc fd (open_fds s) with
       | Some content => (Z.of_nat (length content), s)
       | None => (- EBADF, s)
       end)
    (fun fd s =>
       (0, mkMemCache (objects s)
                      (List.filter (fun e => negb (e.1 =? fd)) (open_fds s))
                      (next_fd s) (txn s)))
    (fun fd nbytes offset s =>
       match assoc fd (open_fds s) with
       | Some content =>
           let data := take (Z.to_nat nbytes) (drop (Z.to_nat offset) content) in
           ((Z.of_nat (length data), data), s)
       | None => ((- EBADF, []), s)
       end)
    (fun h size s =>
       (0, mkMemCache (objects s) (open_fds s) (next_fd s) (Some (h, size, []))))
    (fun _ _ s => s)
    (fun data nbytes s =>
       match txn s with
       | Some (h, size, buf) =>
           (nbytes, mkMemCache (objects s) (open_fds s) (next_fd s)
                               (Some (h, size, buf ++ data)))
       | None => (- EBADF, s)
       end)
    (fun s => (0, mkMemCache (objects s) (open_fds s) (next_fd s) None))
    (fun s =>
       match txn s with
       | Some (h, size, buf) =>
           (next_fd s, mkMemCache (objects s) ((next_fd s, buf) :: open_fds s)
                                  (next_fd s + 1) (txn s))
       | None => (- EBADF, s)
       end)
    (fun s =>
       match txn s with
       | Some (h, size, buf) =>
           (0, mkMemCache ((h, buf) :: objects s) (open_fds s) (next_fd s) None)
       | None => (- EINVAL, s)
       end).

Definition mem_tiered : TieredCacheManager Z unit MemCache MemCache :=
  mkTiered mem_cache mem_cache false.


(** The upper layer is empty, the lower layer holds a ten byte object. *)
Definition cold_world : World Z unit MemCache MemCache :=
  mkWorld (mkMemCache [] [] 3 None)
          (mkMemCache [(7, [1; 2; 3; 4; 5; 6; 7; 8; 9; 10])] [] 100 None)
          [] [].

Definition wanted : BlessedObject Z unit := mkObject 7 tt.

Example Open_promotes_lower_hit :
  exists w',
    Open 4 mem_tiered wanted cold_world = Some (3, w') /\
    objects (upper_state w') = [(7, [1; 2; 3; 4; 5; 6; 7; 8; 9; 10])] /\
    assoc 3 (open_fds (upper_state w')) = Some [1; 2; 3; 4; 5; 6; 7; 8; 9; 10] /\
    read_plan (calls w') = [(0, 4); (4, 4); (8, 2)].
Proof. eexists. vm_compute. repeat split. Qed.

Example Open_miss_in_both :
  fst <$> Open 4 mem_tiered (mkObject 8 tt) cold_world = Some (- ENOENT).
Proof. vm_compute. reflexivity. Qed.


End Tiered.

(** * The open-file engine (cvmfs.cc: cvmfs_open, cvmfs_read) *)

Module OpenFile.

(** [FileChunk]: content hash, offset in the file, size. *)
Record FileChunk := mkChunk {
  content_hash : Z;
  offset : Z;
  size : Z
}.

(** [ChunkFd]: the descriptor a chunk handle currently holds and the index
    of the chunk it belongs to.  A fresh ChunkFd() has fd -1 (file_chunk.h);
    cvmfs_read tests for that value. *)
Record ChunkFd := mkChunkFd {
  fd : Z;
  chunk_idx : Z
}.

Definition ChunkFd_new : ChunkFd := mkChunkFd (-1) 0.

(** [FileChunkReflist]: the chunk list of an inode and its path. *)
Record FileChunkReflist := mkReflist {
  list_ : list FileChunk;
  path : string
}.

(** [ChunkTables]. *)
Record ChunkTables := mkChunkTables {
  next_handle : Z;
  inode2chunks : gmap Z FileChunkReflist;
  inode2references : gmap Z Z;
  handle2fd : gmap Z ChunkFd
}.

(** The globals that cvmfs_open reads and writes. *)
Record State := mkState {
  open_files_ : Z;
  max_open_files_ : Z;
  chunk_tables_ : ChunkTables;
  num_fs_open_ : Z;
  num_io_error_ : Z;
  previous_io_error_timestamp : Z;
  previous_io_error_delay : Z;
  slept_ms : Z
}.

Definition kNumReservedFd : Z := 512.
Definition kMaxInitIoDelay : Z := 32.
Definition kMaxIoDelay : Z := 2000.
Definition kForgetDos : Z := 10000.

(** [static_cast<int>(max_open_files_) - kNumReservedFd]. *)
Definition fd_limit (st : State) : Z :=
  wrap_s32 (wrap_s32 (max_open_files_ st) - kNumReservedFd).

Definition set_open_files (v : Z) (st : State) : State :=
  mkState v (max_open_files_ st) (chunk_tables_ st) (num_fs_open_ st)
          (num_io_error_ st) (previous_io_error_timestamp st)
          (previous_io_error_delay st) (slept_ms st).

Definition set_chunk_tables (t : ChunkTables) (st : State) : State :=
  mkState (open_files_ st) (max_open_files_ st) t (num_fs_open_ st)
          (num_io_error_ st) (previous_io_error_timestamp st)
          (previous_io_error_delay st) (slept_ms st).

Definition count_fs_open (st : State) : State :=
  mkState (open_files_ st) (max_open_files_ st) (chunk_tables_ st)
          (wrap_s64 (num_fs_open_ st + 1))
          (num_io_error_ st) (previous_io_error_timestamp st)
          (previous_io_error_delay st) (slept_ms st).

(** What the directory entry says about the file. *)
Record Entry := mkEntry {
  IsChunkedFile : bool;
  entry_path : string
}.

(** What the collaborators answer during one cvmfs_open: the catalog phase
    (GetDirentForInode && GetPathForInode), the O_EXCL bit of fi->flags,
    ListFileChunks ([None] when it returns false), cache::FetchDirent with
    the errno it leaves, close(), time(NULL) and random(). *)
Record OpenCall := mkOpenCall {
  found : option Entry;
  o_excl : bool;
  listed_chunks : option (list FileChunk);
  fetch_fd : Z;
  fetch_errno : Z;
  close_result : Z;
  now : Z;
  random_value : Z
}.

Inductive Reply :=
| reply_err (errno : Z)
| reply_open (fh : Z) (keep_cache : Z).

(** Lines 1040-1047: the new chunk handle. *)
Definition link_chunk_handle (t : ChunkTables) : Z * ChunkTables :=
  (wrap_u64 (- next_handle t),
   mkChunkTables (wrap_u64 (next_handle t + 1)) (inode2chunks t)
                 (inode2references t)
                 (<[next_handle t := ChunkFd_new]> (handle2fd t))).

(** Lines 1034-1037: one more reference to an inode whose chunk list is
    already loaded; [assert(retval)] on the lookup. *)
Definition add_reference (ino : Z) (t : ChunkTables) : Outcome ChunkTables :=
  match inode2references t !! ino with
  | Some refctr =>
      Done (mkChunkTables (next_handle t) (inode2chunks t)
                          (<[ino := wrap_u32 (refctr + 1)]> (inode2references t))
                          (handle2fd t))
  | None => AssertionFailed
  end.

(** Lines 1092-1101: the delay before an I/O error is reported. *)
Definition io_error_backoff (call : OpenCall) (st : State) : State :=
  let st1 :=
    if now call - previous_io_error_timestamp st <? kForgetDos then
      mkState (open_files_ st) (max_open_files_ st) (chunk_tables_ st)
              (num_fs_open_ st) (num_io_error_ st)
              (previous_io_error_timestamp st)
              (if previous_io_error_delay st <? kMaxIoDelay
               then wrap_s32 (previous_io_error_delay st * 2)
               else previous_io_error_delay st)
              (slept_ms st + previous_io_error_delay st)
    else
      mkState (open_files_ st) (max_open_files_ st) (chunk_tables_ st)
              (num_fs_open_ st) (num_io_error_ st)
              (previous_io_error_timestamp st)
              (Z.rem (random_value call) (kMaxInitIoDelay - 1) + 2)
              (slept_ms st) in
  mkState (open_files_ st1) (max_open_files_ st1) (chunk_tables_ st1)
          (num_fs_open_ st1) (wrap_s32 (num_io_error_ st1 + 1))
          (now call) (previous_io_error_delay st1) (slept_ms st1).

(** cvmfs_open (lines 954-1105) on the mangled inode [ino].  On Linux the
    O_SHLOCK/O_EXLOCK test is compiled out. *)
Definition cvmfs_open (call : OpenCall) (ino : Z) (st : State)
  : Outcome (Reply * State) :=
  match found call with
  | None => Done (reply_err ENOENT, st)
  | Some dirent =>
      if o_excl call then Done (reply_err EEXIST, st)
      else
        let st1 := count_fs_open st in
        if IsChunkedFile dirent then
          (* atomic_xadd32(&open_files_, 1) *)
          let before := open_files_ st1 in
          let st2 := set_open_files (wrap_s32 (before + 1)) st1 in
          if before >=? fd_limit st2 then
            Done (reply_err EMFILE,
                  set_open_files (wrap_s32 (open_files_ st2 - 1)) st2)
          else
            let t := chunk_tables_ st2 in
            match inode2chunks t !! ino with
            | None =>
                (* The tables are unlocked while the chunks are listed and
                   tested again afterwards; in this sequential model the
                   second test repeats the first. *)
                match listed_chunks call with
                | None | Some [] => Done (reply_err EIO, st2)
                | Some chunks =>
                    let t1 :=
                      mkChunkTables (next_handle t)
                        (<[ino := mkReflist chunks (entry_path dirent)]>
                           (inode2chunks t))
                        (<[ino := 1]> (inode2references t))
                        (handle2fd t) in
                    let linked := link_chunk_handle t1 in
                    Done (reply_open linked.1 0, set_chunk_tables linked.2 st2)
                end
            | Some _ =>
                match add_reference ino t with
                | AssertionFailed => AssertionFailed
                | Done t1 =>
                    let linked := link_chunk_handle t1 in
                    Done (reply_open linked.1 0, set_chunk_tables linked.2 st2)
                end
            end
        else
          let fd := fetch_fd call in
          if fd >=? 0 then
            let before := open_files_ st1 in
            let st2 := set_open_files (wrap_s32 (before + 1)) st1 in
            if before <? fd_limit st2 then Done (reply_open fd 0, st2)
            else
              Done (reply_err EMFILE,
                    if close_result call =? 0
                    then set_open_files (wrap_s32 (open_files_ st2 - 1)) st2
                    else st2)
          else if fetch_errno call =? EMFILE then Done (reply_err EMFILE, st1)
          else Done (reply_err (wrap_s32 (- fd)), io_error_backoff call st1)
  end.

(** *** The open-file cap *)

(** When cvmfs_open answers EMFILE: the entry was found, O_EXCL is not set,
    and either the counter has reached the limit (for a chunked file, or
    for a whole file after a successful fetch), or the fetch itself failed
    with EMFILE (in errno, or as its negated return value). *)
Definition replies_EMFILE (call : OpenCall) (st : State) : Prop :=
  exists dirent,
    found call = Some dirent /\ o_excl call = false /\
    ((IsChunkedFile dirent = true /\ fd_limit st <= open_files_ st) \/
     (IsChunkedFile dirent = false /\ 0 <= fetch_fd call /\
      fd_limit st <= open_files_ st) \/
     (IsChunkedFile dirent = false /\ fetch_fd call < 0 /\
      (fetch_errno call = EMFILE \/ wrap_s32 (- fetch_fd call) = EMFILE))).

(** The surplus descriptor of a whole file was closed successfully. *)
Definition surplus_closed (call : OpenCall) : Prop :=
  forall dirent,
    found call = Some dirent -> IsChunkedFile dirent = false ->
    0 <= fetch_fd call -> close_result call = 0.

(** C5 (as amended).  cvmfs_open answers EMFILE exactly in the cases of
    [replies_EMFILE]; such an open leaves the chunk tables as they were and
    hands out no handle, and leaves open_files_ at its old value whenever
    closing the surplus descriptor succeeds. *)
Theorem cvmfs_open_EMFILE call ino st r st' :
  is_s32 (open_files_ st) ->
  cvmfs_open call ino st = Done (r, st') ->
  (r = reply_err EMFILE <-> replies_EMFILE call st) /\
  (r = reply_err EMFILE ->
   chunk_tables_ st' = chunk_tables_ st /\
   (surplus_closed call -> open_files_ st' = open_files_ st)).
Proof.
  intros Hs Hopen. unfold cvmfs_open in Hopen.
  assert (Hback : wrap_s32 (wrap_s32 (open_files_ st + 1) - 1) = open_files_ st).
  { rewrite wrap_s32_inc_dec. apply wrap_s32_id. exact Hs. }
  unfold replies_EMFILE, surplus_closed.
  destruct (found call) as [dirent |] eqn:Efound.
  2:{ injection Hopen as <- <-.
      split; [split; [discriminate | intros (d & Hd & _); discriminate] | discriminate]. }
  destruct (o_excl call) eqn:Eexcl.
  { injection Hopen as <- <-.
    split; [split; [discriminate | intros (d & _ & Hx & _); discriminate] | discriminate]. }
  change (fd_limit (set_open_files _ (count_fs_open st))) with (fd_limit st) in Hopen.
  change (open_files_ (count_fs_open st)) with (open_files_ st) in Hopen.
  destruct (IsChunkedFile dirent) eqn:Echunked.
  - destruct (Z.geb_spec (open_files_ st) (fd_limit st)) as [Hge | Hlt].
    + injection Hopen as <- <-. split; [split |].
      * intros _. exists dirent. split; [reflexivity |]. split; [reflexivity |].
        left. split; [exact Echunked | lia].
      * reflexivity.
      * intros _. split; [reflexivity |]. intros _. simpl. exact Hback.
    + assert (Hno : r <> reply_err EMFILE).
      { destruct (inode2chunks _ !! ino).
        - destruct (add_reference _ _); [| discriminate].
          injection Hopen as <- <-. discriminate.
        - destruct (listed_chunks call) as [[| c chunks] |];
            injection Hopen as <- <-; discriminate. }
      split; [split |]; try (intros; contradiction).
      intros (d & Hd & _ & [(_ & Hlim) | [(Hc & _) | (Hc & _)]]);
        injection Hd as <-; (lia || congruence).
  - destruct (Z.geb_spec (fetch_fd call) 0) as [Hfd | Hfd].
    + destruct (Z.ltb_spec (open_files_ st) (fd_limit st)) as [Hlt | Hge].
      * injection Hopen as <- <-. split; [split |]; try discriminate.
        intros (d & Hd & _ & [(Hc & _) | [(_ & _ & Hlim) | (_ & Hneg & _)]]);
          injection Hd as <-; (lia || congruence).
      * injection Hopen as <- <-. split; [split |].
        -- intros _. exists dirent. split; [reflexivity |]. split; [reflexivity |].
           right. left. split; [exact Echunked | lia].
        -- reflexivity.
        -- intros _. split.
           ++ destruct (close_result call =? 0); reflexivity.
           ++ intros Hclose. rewrite (Hclose dirent eq_refl Echunked) by lia.
              simpl. exact Hback.
    + destruct (Z.eqb_spec (fetch_errno call) EMFILE) as [Herr | Herr].
      * injection Hopen as <- <-. split; [split |].
        -- intros _. exists dirent. split; [reflexivity |]. split; [reflexivity |].
           right. right. split; [exact Echunked |]. split; [lia |]. left. exact Herr.
        -- reflexivity.
        -- intros _. split; reflexivity.
      * injection Hopen as <- <-. split; [split |].
        -- intros [= Hneg]. exists dirent. split; [reflexivity |]. split; [reflexivity |].
           right. right. split; [exact Echunked |]. split; [lia |]. right. exact Hneg.
        -- intros (d & Hd & _ & [(Hc & _) | [(_ & Hpos & _) | (_ & _ & [He | He])]]);
             injection Hd as <-; try congruence; try lia.
        -- intros _. split; [| intros _]; unfold io_error_backoff; simpl;
             destruct (now call - previous_io_error_timestamp st <? kForgetDos);
             reflexivity.
Qed.

(** The cap as the specification words it: EMFILE exactly when one more
    handle would exceed [max_open_files_ - kNumReservedFd]. *)
Definition open_cap_as_stated : Prop :=
  forall call ino st r st',
    is_s32 (open_files_ st) ->
    cvmfs_open call ino st = Done (r, st') ->
    (r = reply_err EMFILE <-> fd_limit st < open_files_ st + 1).

Definition idle_tables : ChunkTables := mkChunkTables 2 ∅ ∅ ∅.

(** Nothing is open; the limit is 1024 - 512. *)
Definition idle_state : State := mkState 0 1024 idle_tables 0 0 0 0 0.

(** A whole file whose fetch fails because the process is out of
    descriptors. *)
Definition fetch_out_of_fds : OpenCall :=
  mkOpenCall (Some (mkEntry false "/a/f")) false None (-1) EMFILE 0 1000 7.

(** C5 (counterexample).  With no file open, far below the limit, the open
    of a whole file whose fetch fails with errno EMFILE is answered with
    EMFILE. *)
Lemma open_cap_counterexample : ~ open_cap_as_stated.
Proof.
  intros H.
  destruct (H fetch_out_of_fds 300 idle_state (reply_err EMFILE)
              (count_fs_open idle_state)) as [Hto _].
  - unfold is_s32. simpl. lia.
  - reflexivity.
  - specialize (Hto eq_refl). vm_compute in Hto. discriminate Hto.
Qed.

(** The counter is at the limit and the descriptor of the fetched file can
    be closed. *)
Definition full_state : State := mkState 512 1024 idle_tables 0 0 0 0 0.

Definition fetch_ok : OpenCall :=
  mkOpenCall (Some (mkEntry false "/a/f")) false None 9 0 0 1000 7.

Lemma cvmfs_open_EMFILE_witness :
  (reply_err EMFILE = reply_err EMFILE <-> replies_EMFILE fetch_ok full_state) /\
  (reply_err EMFILE = reply_err EMFILE ->
   chunk_tables_ (count_fs_open full_state) = chunk_tables_ full_state /\
   (surplus_closed fetch_ok ->
    open_files_ (count_fs_open full_state) = open_files_ full_state)).
Proof.
  apply (cvmfs_open_EMFILE fetch_ok 300 full_state (reply_err EMFILE)
           (count_fs_open full_state)).
  - unfold is_s32. simpl. lia.
  - vm_compute. reflexivity.
Defined.

End OpenFile.

(** * The remount state machine (cvmfs.cc: RemountStart, RemountFinish,
      RemountCheck) *)

Module Remount.

(** [catalog::LoadError]. *)
Inductive LoadError :=
| kLoadNew
| kLoadUp2Date
| kLoadNoSpace
| kLoadFail.

Definition LoadError_eqb (a b : LoadError) : bool :=
  match a, b with
  | kLoadNew, kLoadNew | kLoadUp2Date, kLoadUp2Date
  | kLoadNoSpace, kLoadNoSpace | kLoadFail, kLoadFail => true
  | _, _ => false
  end.

Definition kShortTermTTL : Z := 180.
Definition kReloadSafetyMargin : Z := 500.

Section WithCatalogManager.

(** The catalog manager (catalog_mgr.h, cache.cc) with the inode annotation
    it shares with the front-end, and the three meta-data caches (lru.h),
    are used through their interfaces. *)
Variables Mgr Cache : Type.
Variable Remount : bool -> Mgr -> LoadError * Mgr.
Variable offline_mode : Mgr -> bool.
Variable GetRevision : Mgr -> Z.
Variable GetTTL : Mgr -> Z.
Variable GetGeneration : Mgr -> Z.
Variables Pause Drop Resume : Cache -> Cache.

(** [time(NULL)]: the n-th call returns [clock n]. *)
Variable clock : nat -> Z.

(** The globals of the remount state machine. *)
Record State := mkState {
  catalog_manager_ : Mgr;
  has_inode_annotation : bool;
  inode_generation : Z;
  inode_cache_ : Cache;
  path_cache_ : Cache;
  md5path_cache_ : Cache;
  fence_blocking_ : Z;
  maintenance_mode_ : Z;
  catalogs_expired_ : Z;
  drainout_mode_ : Z;
  reload_critical_section_ : Z;
  drainout_deadline_ : Z;
  catalogs_valid_until_ : Z;
  kcache_timeout_ : Z;
  max_ttl_ : Z;
  pending_alarm : Z;
  time_calls : nat
}.

Definition time_ (st : State) : Z * State :=
  (clock (time_calls st),
   mkState (catalog_manager_ st) (has_inode_annotation st) (inode_generation st)
           (inode_cache_ st) (path_cache_ st) (md5path_cache_ st)
           (fence_blocking_ st) (maintenance_mode_ st) (catalogs_expired_ st)
           (drainout_mode_ st) (reload_critical_section_ st)
           (drainout_deadline_ st) (catalogs_valid_until_ st)
           (kcache_timeout_ st) (max_ttl_ st) (pending_alarm st)
           (S (time_calls st))).

(** The time the latest time(NULL) call returned. *)
Definition last_time (st : State) : Z := clock (Nat.pred (time_calls st)).

(** [alarm(seconds); catalogs_valid_until_ = time(NULL) + seconds]. *)
Definition install_ttl (seconds : Z) (st : State) : State :=
  let t := time_ st in
  mkState (catalog_manager_ t.2) (has_inode_annotation t.2) (inode_generation t.2)
          (inode_cache_ t.2) (path_cache_ t.2) (md5path_cache_ t.2)
          (fence_blocking_ t.2) (maintenance_mode_ t.2) (catalogs_expired_ t.2)
          (drainout_mode_ t.2) (reload_critical_section_ t.2)
          (drainout_deadline_ t.2) (t.1 + seconds)
          (kcache_timeout_ t.2) (max_ttl_ t.2) seconds
          (time_calls t.2).

(** GetMaxTTL and GetEffectiveTTL (lines 261-282), in unsigned
    arithmetic. *)
Definition GetMaxTTL (st : State) : Z := max_ttl_ st / 60.

Definition GetEffectiveTTL (st : State) : Z :=
  let max_ttl := wrap_u32 (GetMaxTTL st * 60) in
  let catalog_ttl := wrap_u32 (GetTTL (catalog_manager_ st)) in
  if max_ttl =? 0 then catalog_ttl else Z.min max_ttl catalog_ttl.

Definition is_failure (retval : LoadError) : bool :=
  LoadError_eqb retval kLoadFail || LoadError_eqb retval kLoadNoSpace.

(** RemountStart (lines 383-395). *)
Definition RemountStart (st : State) : LoadError * State :=
  let r := Remount true (catalog_manager_ st) in
  let st1 :=
    mkState r.2 (has_inode_annotation st) (inode_generation st)
            (inode_cache_ st) (path_cache_ st) (md5path_cache_ st)
            (fence_blocking_ st) (maintenance_mode_ st) (catalogs_expired_ st)
            (drainout_mode_ st) (reload_critical_section_ st)
            (drainout_deadline_ st) (catalogs_valid_until_ st)
            (kcache_timeout_ st) (max_ttl_ st) (pending_alarm st)
            (time_calls st) in
  if LoadError_eqb r.1 kLoadNew then
    let safety_margin :=
      if kReloadSafetyMargin / 1000 =? 0 then 1 else kReloadSafetyMargin / 1000 in
    let t := time_ st1 in
    (r.1,
     mkState (catalog_manager_ t.2) (has_inode_annotation t.2)
             (inode_generation t.2)
             (inode_cache_ t.2) (path_cache_ t.2) (md5path_cache_ t.2)
             (fence_blocking_ t.2) (maintenance_mode_ t.2)
             (catalogs_expired_ t.2)
             (if drainout_mode_ t.2 =? 0 then 1 else drainout_mode_ t.2)
             (reload_critical_section_ t.2)
             (t.1 + kcache_timeout_ t.2 + safety_margin)
             (catalogs_valid_until_ t.2)
             (kcache_timeout_ t.2) (max_ttl_ t.2) (pending_alarm t.2)
             (time_calls t.2))
  else (r.1, st1).

(** Lines 413-434 of RemountFinish: the caches are paused and dropped, the
    fence is taken, the catalogs are swapped, the fence is released, the
    caches resume, drain-out mode ends. *)
Definition apply_new_catalog (st : State) : LoadError * State :=
  let r := Remount false (catalog_manager_ st) in
  (r.1,
   mkState r.2 (has_inode_annotation st)
           (if has_inode_annotation st then GetGeneration r.2
            else inode_generation st)
           (Resume (Drop (Pause (inode_cache_ st))))
           (Resume (Drop (Pause (path_cache_ st))))
           (Resume (Drop (Pause (md5path_cache_ st))))
           (* Block(): cas(0,1); Unblock(): cas(1,0) *)
           (let blocked := if fence_blocking_ st =? 0 then 1
                           else fence_blocking_ st in
            if blocked =? 1 then 0 else blocked)
           (maintenance_mode_ st) (catalogs_expired_ st)
           (if drainout_mode_ st =? 1 then 0 else drainout_mode_ st)
           (reload_critical_section_ st)
           (drainout_deadline_ st) (catalogs_valid_until_ st)
           (kcache_timeout_ st) (max_ttl_ st) (pending_alarm st)
           (time_calls st)).

Definition set_reload_critical_section (v : Z) (st : State) : State :=
  mkState (catalog_manager_ st) (has_inode_annotation st) (inode_generation st)
          (inode_cache_ st) (path_cache_ st) (md5path_cache_ st)
          (fence_blocking_ st) (maintenance_mode_ st) (catalogs_expired_ st)
          (drainout_mode_ st) v
          (drainout_deadline_ st) (catalogs_valid_until_ st)
          (kcache_timeout_ st) (max_ttl_ st) (pending_alarm st)
          (time_calls st).

Definition set_catalogs_expired (v : Z) (st : State) : State :=
  mkState (catalog_manager_ st) (has_inode_annotation st) (inode_generation st)
          (inode_cache_ st) (path_cache_ st) (md5path_cache_ st)
          (fence_blocking_ st) (maintenance_mode_ st) v
          (drainout_mode_ st) (reload_critical_section_ st)
          (drainout_deadline_ st) (catalogs_valid_until_ st)
          (kcache_timeout_ st) (max_ttl_ st) (pending_alarm st)
          (time_calls st).

(** RemountFinish (lines 402-451). *)
Definition RemountFinish (st : State) : State :=
  if negb (reload_critical_section_ st =? 0) then st
  else
    let st1 := set_reload_critical_section 1 st in
    if drainout_mode_ st1 =? 0 then set_reload_critical_section 0 st1
    else
      let t := time_ st1 in
      let st2 :=
        if t.1 >? drainout_deadline_ t.2 then
          let applied := apply_new_catalog t.2 in
          if is_failure applied.1 || offline_mode (catalog_manager_ applied.2)
          then install_ttl kShortTermTTL applied.2
          else install_ttl (GetEffectiveTTL applied.2) applied.2
        else t.2 in
      set_reload_critical_section
        (if reload_critical_section_ st2 =? 1 then 0
         else reload_critical_section_ st2) st2.

(** RemountCheck (lines 458-477). *)
Definition RemountCheck (st : State) : State :=
  if maintenance_mode_ st =? 1 then st
  else
    let st1 := RemountFinish st in
    if catalogs_expired_ st1 =? 1 then
      let started := RemountStart (set_catalogs_expired 0 st1) in
      if is_failure started.1 then install_ttl kShortTermTTL started.2
      else if LoadError_eqb started.1 kLoadUp2Date
      then install_ttl (GetEffectiveTTL started.2) started.2
      else started.2
    else st1.

End WithCatalogManager.

Arguments catalog_manager_ {Mgr Cache} _.
Arguments has_inode_annotation {Mgr Cache} _.
Arguments inode_generation {Mgr Cache} _.
Arguments maintenance_mode_ {Mgr Cache} _.
Arguments catalogs_expired_ {Mgr Cache} _.
Arguments drainout_mode_ {Mgr Cache} _.
Arguments reload_critical_section_ {Mgr Cache} _.
Arguments drainout_deadline_ {Mgr Cache} _.
Arguments catalogs_valid_until_ {Mgr Cache} _.
Arguments pending_alarm {Mgr Cache} _.
Arguments time_calls {Mgr Cache} _.
Arguments last_time {Mgr Cache} _ _.
Arguments mkState {Mgr Cache} _ _ _ _ _ _ _ _ _ _ _ _ _ _ _ _ _.

Section RemountFacts.

Context {Mgr Cache : Type}.
Variable Remount : bool -> Mgr -> LoadError * Mgr.
Variable offline_mode : Mgr -> bool.
Variable GetRevision : Mgr -> Z.
Variable GetTTL : Mgr -> Z.
Variable GetGeneration : Mgr -> Z.
Variables Pause Drop Resume : Cache -> Cache.
Variable clock : nat -> Z.

Implicit Types (st : @State Mgr Cache).

(** Drain-out has begun, nobody else is in RemountFinish, and the deadline
    has passed: RemountFinish calls Remount(false). *)
Definition finish_applies st : Prop :=
  reload_critical_section_ st = 0 /\
  drainout_mode_ st <> 0 /\
  drainout_deadline_ st < clock (time_calls st).

(** Remount(false) returns fail or no-space, or leaves the manager in
    offline mode. *)
Definition finish_failed st : Prop :=
  let r := Remount false (catalog_manager_ st) in
  is_failure r.1 = true \/ offline_mode r.2 = true.

(** What section 4.1 of the specification promises of the catalog manager:
    "On fetch-verify failure, no partial state is committed", and in offline
    mode "it serves from already-loaded catalogs". *)
Definition commits_only_on_success : Prop :=
  forall dry_run m,
    let r := Remount dry_run m in
    is_failure r.1 = true \/ offline_mode r.2 = true ->
    GetRevision r.2 = GetRevision m.

Lemma RemountFinish_keeps_expired st :
  catalogs_expired_
    (RemountFinish _ _ Remount offline_mode GetTTL GetGeneration
                   Pause Drop Resume clock st)
  = catalogs_expired_ st.
Proof.
  unfold RemountFinish.
  repeat (match goal with
          | |- context [if ?c then _ else _] => destruct c
          end; try reflexivity).
Qed.

(** C6.  When RemountFinish applies the new catalog and Remount(false)
    fails (fail, no-space, or offline mode), and when RemountCheck finds the
    TTL expired and RemountStart returns fail or no-space, the alarm is
    re-armed to kShortTermTTL = 180 s, catalogs_valid_until_ is set to the
    current time + 180, and the loaded catalog revision stays the same. *)
Theorem short_term_TTL_on_failed_reload (Hmgr : commits_only_on_success) :
  (forall st,
     finish_applies st -> finish_failed st ->
     let st' := RemountFinish _ _ Remount offline_mode GetTTL GetGeneration
                              Pause Drop Resume clock st in
     pending_alarm st' = 180 /\
     catalogs_valid_until_ st' = last_time clock st' + 180 /\
     GetRevision (catalog_manager_ st') = GetRevision (catalog_manager_ st)) /\
  (forall st,
     maintenance_mode_ st <> 1 ->
     catalogs_expired_ st = 1 ->
     let st1 := RemountFinish _ _ Remount offline_mode GetTTL GetGeneration
                              Pause Drop Resume clock st in
     is_failure (Remount true (catalog_manager_ st1)).1 = true ->
     let st' := RemountCheck _ _ Remount offline_mode GetTTL GetGeneration
                             Pause Drop Resume clock st in
     pending_alarm st' = 180 /\
     catalogs_valid_until_ st' = last_time clock st' + 180 /\
     GetRevision (catalog_manager_ st') = GetRevision (catalog_manager_ st1)).
Proof.
  split.
  - intros st (Hrcs & Hdrain & Hdeadline) Hfailed st'. subst st'.
    unfold finish_failed in Hfailed. apply orb_true_iff in Hfailed as Hcond.
    pose proof (Hmgr false (catalog_manager_ st) Hfailed) as Hrev.
    destruct st as [mgr ha ig ic pc mc fb mm ce dm rcs dd cvu kt mt pa tc].
    unfold RemountFinish, last_time. simpl in *. subst rcs. simpl.
    destruct (Z.eqb_spec dm 0) as [| _]; [contradiction |].
    destruct (Z.gtb_spec (clock tc) dd) as [_ | ?]; [| lia].
    rewrite Hcond. simpl. repeat split. exact Hrev.
  - intros st Hmaint Hexpired st1 Hfail st'. subst st'. unfold RemountCheck.
    destruct (Z.eqb_spec (maintenance_mode_ st) 1) as [| _]; [contradiction |].
    fold st1.
    assert (Hexp1 : catalogs_expired_ st1 = 1).
    { unfold st1. rewrite RemountFinish_keeps_expired. exact Hexpired. }
    pose proof (Hmgr true (catalog_manager_ st1) (or_introl Hfail)) as Hrev.
    clearbody st1.
    destruct st1 as [mgr ha ig ic pc mc fb mm ce dm rcs dd cvu kt mt pa tc].
    unfold RemountStart, last_time. simpl in *. subst ce. simpl.
    assert (Hnot_new : LoadError_eqb (Remount true mgr).1 kLoadNew = false).
    { unfold is_failure in Hfail.
      destruct ((Remount true mgr).1); simpl in *; (reflexivity || discriminate). }
    rewrite Hnot_new. simpl. rewrite Hfail. simpl. repeat split. exact Hrev.
Qed.

End RemountFacts.

(** *** A catalog manager to run the state machine on *)

(** What the origin answers to a manifest fetch. *)
Inductive Fetch :=
| Unreachable
| CacheFull
| Manifest (revision : Z).

(** Modelled from the spec: AbstractCatalogManager::Remount is in
    catalog_mgr.cc.  Section 4.1: a dry run "downloads and verifies the new
    manifest; if the root catalog digest is unchanged, returns up-to-date.
    Otherwise it stages the new root catalog in the cache and returns
    new-revision"; without dry run it "atomically replaces the root catalog
    reference" and the generation counter is incremented; "if the network is
    unreachable, the manager enters offline mode"; "on fetch-verify failure,
    no partial state is committed". *)
Record SimpleManager := mkManager {
  revision : Z;
  ttl : Z;
  offline : bool;
  generation : Z;
  origin : list Fetch
}.

Definition SimpleRemount (dry_run : bool) (m : SimpleManager)
  : LoadError * SimpleManager :=
  match origin m with
  | [] | Unreachable :: _ =>
      (kLoadFail, mkManager (revision m) (ttl m) true (generation m)
                            (tail (origin m)))
  | CacheFull :: rest =>
      (kLoadNoSpace, mkManager (revision m) (ttl m) false (generation m) rest)
  | Manifest r :: rest =>
      if r =? revision m
      then (kLoadUp2Date, mkManager (revision m) (ttl m) false (generation m) rest)
      else if dry_run
      then (kLoadNew, mkManager (revision m) (ttl m) false (generation m) rest)
      else (kLoadNew, mkManager r (ttl m) false (generation m + 1) rest)
  end.

Lemma SimpleRemount_commits_only_on_success :
  commits_only_on_success SimpleRemount offline revision.
Proof.
  intros dry_run m. unfold SimpleRemount.
  destruct (origin m) as [| [| | r] rest]; simpl; try (intros; reflexivity).
  destruct (r =? revision m); [intros; reflexivity |].
  destruct dry_run; simpl; [intros; reflexivity |].
  intros [H | H]; discriminate H.
Qed.

Definition wall_clock (n : nat) : Z := 5000 + Z.of_nat n.

(** Revision 41 is loaded, drain-out towards a new revision has begun and
    its deadline (4990) has passed, and the origin has become
    unreachable. *)
Definition draining : State SimpleManager unit :=
  mkState (mkManager 41 240 false 0 [Unreachable]) true 0 tt tt tt
          0 0 0 1 0 4990 4800 60 0 0 0%nat.

(** The TTL alarm has fired and the origin is unreachable. *)
Definition expired : State SimpleManager unit :=
  mkState (mkManager 41 240 false 0 [Unreachable]) true 0 tt tt tt
          0 0 1 0 0 0 4800 60 0 0 0%nat.

Lemma short_term_TTL_on_failed_reload_witness :
  (let st' := RemountFinish _ _ SimpleRemount offline ttl generation
                            (fun c => c) (fun c => c) (fun c => c)
                            wall_clock draining in
   pending_alarm st' = 180 /\
   catalogs_valid_until_ st' = last_time wall_clock st' + 180 /\
   revision (catalog_manager_ st') = revision (catalog_manager_ draining)) /\
  (let st1 := RemountFinish _ _ SimpleRemount offline ttl generation
                            (fun c => c) (fun c => c) (fun c => c)
                            wall_clock expired in
   let st' := RemountCheck _ _ SimpleRemount offline ttl generation
                           (fun c => c) (fun c => c) (fun c => c)
                           wall_clock expired in
   pending_alarm st' = 180 /\
   catalogs_valid_until_ st' = last_time wall_clock st' + 180 /\
   revision (catalog_manager_ st') = revision (catalog_manager_ st1)).
Proof.
  destruct (short_term_TTL_on_failed_reload (Cache := unit)
              SimpleRemount offline revision ttl generation
              (fun c => c) (fun c => c) (fun c => c) wall_clock
              SimpleRemount_commits_only_on_success) as [Hfinish Hstart].
  split.
  - apply (Hfinish draining).
    + unfold finish_applies. simpl.
      split; [reflexivity | split; [discriminate | reflexivity]].
    + left. reflexivity.
  - apply (Hstart expired).
    + discriminate.
    + reflexivity.
    + reflexivity.
Defined.

Example failed_finish_installs_180 :
  let st' := RemountFinish _ _ SimpleRemount offline ttl generation
                           (fun c => c) (fun c => c) (fun c => c)
                           wall_clock draining in
  (pending_alarm st', catalogs_valid_until_ st', drainout_mode_ st',
   revision (catalog_manager_ st')) = (180, 5181, 0, 41).
Proof. vm_compute. reflexivity. Qed.

Example failed_start_installs_180 :
  let st' := RemountCheck _ _ SimpleRemount offline ttl generation
                          (fun c => c) (fun c => c) (fun c => c)
                          wall_clock expired in
  (pending_alarm st', catalogs_valid_until_ st', catalogs_expired_ st',
   revision (catalog_manager_ st')) = (180, 5180, 0, 41).
Proof. vm_compute. reflexivity. Qed.

End Remount.

(** * Lookup, forget and the inode tracker (cvmfs.cc: cvmfs_lookup,
      cvmfs_forget) *)

Module Forget.

(** FUSE_ROOT_ID of fuse_lowlevel.h. *)
Definition FUSE_ROOT_ID : Z := 1.

(** Modelled from the spec: glue::InodeTracker is in glue_buffer.h.  Data
    model: an entry is "(inode, path, reference_count). Inserted on
    successful lookup, incremented per lookup, decremented by kernel forget,
    removed at zero"; section 4.3: "vfs_put(inode, n) ... decrements by
    n". *)
Definition VfsGet (inode : Z) (path : string) (t : gmap Z (string * Z))
  : gmap Z (string * Z) :=
  match t !! inode with
  | Some (p, count) => <[inode := (p, count + 1)]> t
  | None => <[inode := (path, 1)]> t
  end.

Definition VfsPut (inode by_ : Z) (t : gmap Z (string * Z))
  : gmap Z (string * Z) :=
  match t !! inode with
  | Some (p, count) =>
      if count - by_ <=? 0 then delete inode t
      else <[inode := (p, count - by_)]> t
  | None => t
  end.

(** The reference count the tracker holds for an inode. *)
Definition references (t : gmap Z (string * Z)) (inode : Z) : Z :=
  match t !! inode with
  | Some (_, count) => count
  | None => 0
  end.

(** The globals that lookup and forget touch. *)
Record State := mkState {
  inode_tracker_ : gmap Z (string * Z);
  nfs_maps_ : bool;
  num_fs_lookup_ : Z;
  num_fs_lookup_negative_ : Z;
  num_fs_forget_ : Z
}.

Section WithMangleInode.

(** CatalogManager::MangleInode is declared in catalog_mgr.h. *)
Variable MangleInode : Z -> Z.

(** cvmfs_forget (lines 669-687). *)
Definition cvmfs_forget (ino nlookup : Z) (st : State) : State :=
  let st1 :=
    mkState (inode_tracker_ st) (nfs_maps_ st) (num_fs_lookup_ st)
            (num_fs_lookup_negative_ st) (wrap_s64 (num_fs_forget_ st + 1)) in
  if ino =? FUSE_ROOT_ID then st1
  else
    let ino' := MangleInode ino in
    if negb (nfs_maps_ st1)
    then mkState (VfsPut ino' nlookup (inode_tracker_ st1)) (nfs_maps_ st1)
                 (num_fs_lookup_ st1) (num_fs_lookup_negative_ st1)
                 (num_fs_forget_ st1)
    else st1.

(** cvmfs_lookup (lines 594-663).  [resolved] is where the catalog phase
    (lines 596-647) ends: at reply_positive with the entry's inode and the
    path, or at reply_negative.  The result is [result.ino]. *)
Definition cvmfs_lookup (resolved : option (Z * string)) (st : State)
  : Z * State :=
  let st1 :=
    mkState (inode_tracker_ st) (nfs_maps_ st)
            (wrap_s64 (num_fs_lookup_ st + 1))
            (num_fs_lookup_negative_ st) (num_fs_forget_ st) in
  match resolved with
  | Some (dirent_inode, path) =>
      (dirent_inode,
       if negb (nfs_maps_ st1)
       then mkState (VfsGet dirent_inode path (inode_tracker_ st1))
                    (nfs_maps_ st1) (num_fs_lookup_ st1)
                    (num_fs_lookup_negative_ st1) (num_fs_forget_ st1)
       else st1)
  | None =>
      (0, mkState (inode_tracker_ st1) (nfs_maps_ st1) (num_fs_lookup_ st1)
                  (wrap_s64 (num_fs_lookup_negative_ st1 + 1))
                  (num_fs_forget_ st1))
  end.

(** The kernel's traffic. *)
Inductive Call :=
| CallLookup (resolved : option (Z * string))
| CallForget (ino nlookup : Z).

Definition serve (c : Call) (st : State) : State :=
  match c with
  | CallLookup resolved => (cvmfs_lookup resolved st).2
  | CallForget ino nlookup => cvmfs_forget ino nlookup st
  end.

Definition serve_all (calls : list Call) (st : State) : State :=
  foldl (fun st c => serve c st) st calls.

(** Lookup returns for [inode] not yet matched by forget. *)
Fixpoint unmatched (inode : Z) (calls : list Call) : Z :=
  match calls with
  | [] => 0
  | CallLookup (Some (i, _)) :: rest =>
      (if i =? inode then 1 else 0) + unmatched inode rest
  | CallLookup None :: rest => unmatched inode rest
  | CallForget i n :: rest =>
      (if i =? inode then - n else 0) + unmatched inode rest
  end.

(** The forget protocol on the kernel's side: an inode is forgotten under
    the number lookup returned, and never by more than is outstanding. *)
Fixpoint kernel_protocol (calls : list Call) (st : State) : Prop :=
  match calls with
  | [] => True
  | c :: rest =>
      match c with
      | CallForget ino n =>
          ino <> FUSE_ROOT_ID ->
          MangleInode ino = ino /\
          0 <= n <= references (inode_tracker_ st) ino
      | CallLookup _ => True
      end /\
      kernel_protocol rest (serve c st)
  end.

End WithMangleInode.

Lemma references_VfsGet t ino path i :
  references (VfsGet ino path t) i
  = references t i + (if ino =? i then 1 else 0).
Proof.
  unfold references, VfsGet.
  destruct (Z.eqb_spec ino i) as [-> | Hne].
  - destruct (t !! i) as [[p c] |] eqn:E; rewrite lookup_insert_eq; lia.
  - destruct (t !! ino) as [[p c] |] eqn:E;
      rewrite lookup_insert_ne by exact Hne; lia.
Qed.

Lemma references_VfsPut t ino n i :
  0 <= n <= references t ino ->
  references (VfsPut ino n t) i
  = references t i - (if ino =? i then n else 0).
Proof.
  unfold references, VfsPut. intros Hn.
  destruct (Z.eqb_spec ino i) as [-> | Hne].
  - destruct (t !! i) as [[p c] |] eqn:E.
    + destruct (Z.leb_spec (c - n) 0).
      * rewrite lookup_delete_eq. lia.
      * rewrite lookup_insert_eq. lia.
    + rewrite E. lia.
  - destruct (t !! ino) as [[p c] |] eqn:E.
    + destruct (Z.leb_spec (c - n) 0).
      * rewrite lookup_delete_ne by exact Hne. lia.
      * rewrite lookup_insert_ne by exact Hne. lia.
    + lia.
Qed.

Section ForgetFacts.

Variable MangleInode : Z -> Z.

#[local] Arguments Z.eqb : simpl never.

Lemma serve_keeps_nfs_maps c st :
  nfs_maps_ (serve MangleInode c st) = nfs_maps_ st.
Proof.
  destruct c as [[[i p] |] | ino n]; simpl; try reflexivity.
  - destruct (nfs_maps_ st); reflexivity.
  - unfold cvmfs_forget. destruct (ino =? FUSE_ROOT_ID); [reflexivity |].
    simpl. destruct (nfs_maps_ st); reflexivity.
Qed.

Lemma serve_references c st inode :
  nfs_maps_ st = false ->
  match c with
  | CallForget ino n =>
      ino <> FUSE_ROOT_ID ->
      MangleInode ino = ino /\ 0 <= n <= references (inode_tracker_ st) ino
  | CallLookup _ => True
  end ->
  inode <> FUSE_ROOT_ID ->
  references (inode_tracker_ (serve MangleInode c st)) inode
  = references (inode_tracker_ st) inode + unmatched inode [c].
Proof.
  intros Hnfs Hproto Hinode.
  destruct c as [[[i p] |] | ino n]; simpl.
  - rewrite Hnfs. simpl. rewrite references_VfsGet. lia.
  - lia.
  - unfold cvmfs_forget. unfold FUSE_ROOT_ID in *.
    destruct (Z.eqb_spec ino 1) as [-> | Hne]; simpl.
    + destruct (Z.eqb_spec 1 inode); [congruence | lia].
    + destruct (Hproto Hne) as [Hm Hn]. rewrite Hnfs, Hm. simpl.
      rewrite references_VfsPut by exact Hn.
      destruct (ino =? inode); lia.
Qed.

Lemma unmatched_cons inode c calls :
  unmatched inode (c :: calls) = unmatched inode [c] + unmatched inode calls.
Proof. destruct c as [[[i p] |] | ino n]; simpl; lia. Qed.

(** C7 (as amended).  A forget for an inode other than FUSE_ROOT_ID, with
    NFS maps off, calls VfsPut for the mangled inode and so lowers its
    reference count by n; a forget for FUSE_ROOT_ID, or with NFS maps on,
    leaves the tracker alone.  Hence for every inode other than FUSE_ROOT_ID
    the tracked count changes by exactly the lookup returns minus the
    forgets. *)
Theorem forget_puts_references :
  (forall st ino n,
     ino <> FUSE_ROOT_ID -> nfs_maps_ st = false ->
     inode_tracker_ (cvmfs_forget MangleInode ino n st)
       = VfsPut (MangleInode ino) n (inode_tracker_ st) /\
     (0 <= n <= references (inode_tracker_ st) (MangleInode ino) ->
      references (inode_tracker_ (cvmfs_forget MangleInode ino n st))
                 (MangleInode ino)
        = references (inode_tracker_ st) (MangleInode ino) - n)) /\
  (forall st ino n,
     ino = FUSE_ROOT_ID \/ nfs_maps_ st = true ->
     inode_tracker_ (cvmfs_forget MangleInode ino n st) = inode_tracker_ st) /\
  (forall calls st inode,
     nfs_maps_ st = false ->
     kernel_protocol MangleInode calls st ->
     inode <> FUSE_ROOT_ID ->
     references (inode_tracker_ (serve_all MangleInode calls st)) inode
       = references (inode_tracker_ st) inode + unmatched inode calls).
Proof.
  split; [| split].
  - intros st ino n Hne Hnfs. unfold cvmfs_forget.
    destruct (Z.eqb_spec ino FUSE_ROOT_ID); [contradiction |].
    simpl. rewrite Hnfs. simpl. split; [reflexivity |].
    intros Hn. rewrite references_VfsPut by exact Hn.
    rewrite Z.eqb_refl. reflexivity.
  - intros st ino n [-> | Hnfs]; unfold cvmfs_forget; simpl; [reflexivity |].
    destruct (ino =? FUSE_ROOT_ID); [reflexivity |].
    simpl. rewrite Hnfs. reflexivity.
  - induction calls as [| c calls IH]; intros st inode Hnfs Hproto Hinode.
    + simpl. lia.
    + destruct Hproto as [Hc Hrest]. rewrite unmatched_cons.
      change (serve_all MangleInode (c :: calls) st)
        with (serve_all MangleInode calls (serve MangleInode c st)).
      rewrite IH; [| rewrite serve_keeps_nfs_maps; exact Hnfs
                   | exact Hrest | exact Hinode].
      rewrite (serve_references c st inode Hnfs Hc Hinode). lia.
Qed.

End ForgetFacts.

(** The forget protocol as the specification words it: every forget puts
    the inode ... *)
Definition forget_as_stated (MangleInode : Z -> Z) : Prop :=
  forall st ino n,
    inode_tracker_ (cvmfs_forget MangleInode ino n st)
    = VfsPut (MangleInode ino) n (inode_tracker_ st).

(** ... so the tracked count is the number of unmatched lookup returns. *)
Definition tracker_count_as_stated (MangleInode : Z -> Z) : Prop :=
  forall calls st inode,
    inode_tracker_ st = ∅ -> nfs_maps_ st = false ->
    kernel_protocol MangleInode calls st ->
    references (inode_tracker_ (serve_all MangleInode calls st)) inode
    = unmatched inode calls.

Definition fresh : State := mkState ∅ false 0 0 0.

(** lookup("..") in the root directory answers inode 1 (line 620) and
    reaches reply_positive; the kernel then forgets inode 1. *)
Definition dotdot_at_root : list Call :=
  [CallLookup (Some (FUSE_ROOT_ID, "")); CallForget FUSE_ROOT_ID 1].

(** C7 (counterexample).  Whatever MangleInode does, a forget for
    FUSE_ROOT_ID does not reach the tracker: the reference held for the
    mangled root inode stays, and after the lookup of ".." in the root and
    the matching forget the tracker still holds one reference for inode
    1. *)
Lemma forget_counterexample :
  (forall MangleInode, ~ forget_as_stated MangleInode) /\
  (forall MangleInode, ~ tracker_count_as_stated MangleInode).
Proof.
  split; intros M H.
  - specialize (H (mkState {[M FUSE_ROOT_ID := (""%string, 1)]} false 0 0 0)
                  FUSE_ROOT_ID 1).
    apply (f_equal (fun t => references t (M FUSE_ROOT_ID))) in H.
    rewrite references_VfsPut in H.
    + unfold cvmfs_forget, references in H. simpl in H.
      rewrite lookup_singleton_eq, Z.eqb_refl in H. discriminate H.
    + unfold references. simpl. rewrite lookup_singleton_eq. lia.
  - specialize (H dotdot_at_root fresh FUSE_ROOT_ID eq_refl eq_refl).
    assert (Hproto : kernel_protocol M dotdot_at_root fresh).
    { simpl. split; [exact I |]. split; [| exact I]. intros Hne. contradiction. }
    specialize (H Hproto). vm_compute in H. discriminate H.
Qed.

(** Two lookups of "/a" (inode 300) and one forget by 2. *)
Definition lookup_twice_forget : list Call :=
  [CallLookup (Some (300, "/a")); CallLookup (Some (300, "/a"));
   CallLookup None; CallForget 300 2].

Lemma forget_puts_references_witness :
  (let st := serve_all (fun i => i)
                       [CallLookup (Some (300, "/a")); CallLookup (Some (300, "/a"))]
                       fresh in
   inode_tracker_ (cvmfs_forget (fun i => i) 300 1 st)
     = VfsPut 300 1 (inode_tracker_ st)) /\
  references (inode_tracker_ (serve_all (fun i => i) lookup_twice_forget fresh)) 300
  = references (inode_tracker_ fresh) 300 + unmatched 300 lookup_twice_forget.
Proof.
  destruct (forget_puts_references (fun i => i)) as (Hput & _ & Hcount).
  split.
  - apply Hput; [discriminate | reflexivity].
  - apply Hcount.
    + reflexivity.
    + simpl. repeat split; try exact I; vm_compute; intros Hle; discriminate Hle.
    + discriminate.
Defined.

Example forget_drops_entry :
  inode_tracker_ (serve_all (fun i => i) lookup_twice_forget fresh) = ∅.
Proof. vm_compute. reflexivity. Qed.

End Forget.

(** * Extended attributes (cvmfs.cc: cvmfs_getxattr) *)

Module Xattr.

(** StringifyInt (util.cc) prints a 64 bit signed integer in decimal. *)
Definition StringifyInt (value : Z) : string :=
  NilZero.string_of_int (Z.to_int (wrap_s64 value)).

Definition kNumReservedFd : Z := 512.

(** [time_t(-1)]. *)
Definition kIndefiniteDeadline : Z := -1.

(** Of the directory entry, getxattr reads the content hash: [None] when
    [checksum().IsNull()], else its hexadecimal form. *)
Record DirectoryEntry := mkDirent {
  checksum : option string
}.

(** The globals and collaborators that the attribute values are read from
    during one call. *)
Record Runtime := mkRuntime {
  pid_ : Z;
  VERSION : string;
  CVMFS_PATCH_LEVEL : string;
  revision : Z;                       (* catalog_manager_->GetRevision() *)
  root_hash : string;                 (* GetRootHash().ToString() *)
  catalogs_valid_until_ : Z;
  now : Z;                            (* time(NULL) *)
  max_open_files_ : Z;
  open_files_ : Z;
  open_dirs_ : Z;
  num_io_error_ : Z;
  proxy_chain : list (list string);   (* download::GetProxyInfo *)
  current_group : nat;
  host_chain : list string;           (* download::GetHostInfo *)
  current_host : nat;
  boot_time_ : Z;
  num_catalogs : Z;                   (* GetNumCatalogs() *)
  num_fs_open_ : Z;
  num_fs_dir_open_ : Z;
  num_downloads : Z;                  (* cache::GetNumDownloads() *)
  timeout : Z;                        (* download::GetTimeout *)
  timeout_direct : Z;
  transferred_bytes : Z;              (* download::GetStatistics() *)
  transfer_time : Z;
  repository_name_ : string;
  cache_open_fd : Z;                  (* cache::Open(d.checksum()) *)
  fdopen_ok : bool;                   (* fdopen(fd, "r") != NULL *)
  compressed_hash : option string     (* zlib::CompressFile2Null *)
}.

(** The if-chain of lines 1361-1472: the value, or the errno the chain
    replies itself. *)
Inductive Attribute :=
| Value (attribute_value : string)
| NoValue (errno : Z).

Definition attribute_value (rt : Runtime) (d : DirectoryEntry) (attr : string)
  : Attribute :=
  if String.eqb attr "user.pid" then Value (StringifyInt (pid_ rt))
  else if String.eqb attr "user.version" then
    Value (VERSION rt +:+ "." +:+ CVMFS_PATCH_LEVEL rt)
  else if String.eqb attr "user.hash" then
    match checksum d with
    | Some hex => Value (hex +:+ " (SHA-1)")
    | None => NoValue ENOATTR
    end
  else if String.eqb attr "user.lhash" then
    match checksum d with
    | Some _ =>
        if cache_open_fd rt <? 0 then Value "Not in cache"
        else if negb (fdopen_ok rt) then NoValue EIO
        else
          match compressed_hash rt with
          | None => NoValue EIO
          | Some hex => Value (hex +:+ " (SHA-1)")
          end
    | None => NoValue ENOATTR
    end
  else if String.eqb attr "user.revision" then
    Value (StringifyInt (wrap_u64 (revision rt)))
  else if String.eqb attr "user.root_hash" then Value (root_hash rt)
  else if String.eqb attr "user.expires" then
    if catalogs_valid_until_ rt =? kIndefiniteDeadline
    then Value "never (fixed root catalog)"
    else Value (StringifyInt (Z.quot (catalogs_valid_until_ rt - now rt) 60))
  else if String.eqb attr "user.maxfd" then
    Value (StringifyInt (wrap_u32 (max_open_files_ rt - kNumReservedFd)))
  else if String.eqb attr "user.usedfd" then Value (StringifyInt (open_files_ rt))
  else if String.eqb attr "user.useddirp" then Value (StringifyInt (open_dirs_ rt))
  else if String.eqb attr "user.nioerr" then
    Value (StringifyInt (num_io_error_ rt))
  else if String.eqb attr "user.proxy" then
    match proxy_chain rt with
    | [] => Value "DIRECT"
    | _ => Value (nth 0 (nth (current_group rt) (proxy_chain rt) []) "")
    end
  else if String.eqb attr "user.host" then
    match host_chain rt with
    | [] => Value "internal error: no hosts defined"
    | _ => Value (nth (current_host rt) (host_chain rt) "")
    end
  else if String.eqb attr "user.uptime" then
    Value (StringifyInt (wrap_u64 (now rt - boot_time_ rt) / 60))
  else if String.eqb attr "user.nclg" then Value (StringifyInt (num_catalogs rt))
  else if String.eqb attr "user.nopen" then Value (StringifyInt (num_fs_open_ rt))
  else if String.eqb attr "user.ndiropen" then
    Value (StringifyInt (num_fs_dir_open_ rt))
  else if String.eqb attr "user.ndownload" then
    Value (StringifyInt (num_downloads rt))
  else if String.eqb attr "user.timeout" then Value (StringifyInt (timeout rt))
  else if String.eqb attr "user.timeout_direct" then
    Value (StringifyInt (timeout_direct rt))
  else if String.eqb attr "user.rx" then
    Value (StringifyInt (Z.quot (wrap_s64 (transferred_bytes rt)) 1024))
  else if String.eqb attr "user.speed" then
    if wrap_s64 (transfer_time rt) =? 0 then Value "n/a"
    else Value (StringifyInt
                  (Z.quot (Z.quot (wrap_s64 (transferred_bytes rt)) 1024)
                          (wrap_s64 (transfer_time rt))))
  else if String.eqb attr "user.fqrn" then Value (repository_name_ rt)
  else NoValue ENOATTR.

Inductive Reply :=
| reply_err (errno : Z)
| reply_xattr (count : Z)
| reply_buf (buf : string) (size : Z).

Definition length_of (v : string) : Z := Z.of_nat (String.length v).

(** cvmfs_getxattr (lines 1340-1481); [found] is the entry that
    GetDirentForInode delivered, if any. *)
Definition cvmfs_getxattr (rt : Runtime) (found : option DirectoryEntry)
    (name : string) (size : Z) : Reply :=
  match found with
  | None => reply_err ENOENT
  | Some d =>
      match attribute_value rt d name with
      | NoValue errno => reply_err errno
      | Value v =>
          if size =? 0 then reply_xattr (length_of v)
          else if size >=? length_of v then reply_buf v (length_of v)
          else reply_err ERANGE
      end
  end.

(** The attributes that always have a value ... *)
Definition runtime_attributes : list string :=
  [ "user.pid"; "user.version"; "user.revision"; "user.root_hash";
    "user.expires"; "user.maxfd"; "user.usedfd"; "user.useddirp";
    "user.nioerr"; "user.proxy"; "user.host"; "user.uptime"; "user.nclg";
    "user.nopen"; "user.ndiropen"; "user.ndownload"; "user.timeout";
    "user.timeout_direct"; "user.rx"; "user.speed"; "user.fqrn" ]%string.

(** ... and the two of entries with a content hash; the hash of the cached
    copy needs the copy to be absent or readable. *)
Definition lhash_computable (rt : Runtime) : Prop :=
  cache_open_fd rt < 0 \/ (fdopen_ok rt = true /\ compressed_hash rt <> None).

Definition known_attribute (rt : Runtime) (d : DirectoryEntry) (attr : string)
  : Prop :=
  In attr runtime_attributes \/
  (checksum d <> None /\
   (attr = "user.hash"%string \/
    (attr = "user.lhash"%string /\ lhash_computable rt))).

Lemma known_attribute_has_value rt d attr :
  known_attribute rt d attr -> exists v, attribute_value rt d attr = Value v.
Proof.
  intros [Hin | [Hsum [-> | [-> Hl]]]].
  - unfold runtime_attributes in Hin. simpl in Hin.
    repeat (destruct Hin as [<- | Hin];
            [unfold attribute_value; cbn [String.eqb Ascii.eqb Bool.eqb];
             try (eexists; reflexivity) |]); try contradiction.
    + destruct (catalogs_valid_until_ rt =? kIndefiniteDeadline);
        eexists; reflexivity.
    + destruct (proxy_chain rt); eexists; reflexivity.
    + destruct (host_chain rt); eexists; reflexivity.
    + destruct (wrap_s64 (transfer_time rt) =? 0); eexists; reflexivity.
  - unfold attribute_value. cbn [String.eqb Ascii.eqb Bool.eqb].
    destruct (checksum d); [eexists; reflexivity | contradiction].
  - unfold attribute_value. cbn [String.eqb Ascii.eqb Bool.eqb].
    destruct (checksum d); [| contradiction].
    destruct Hl as [Hneg | [Hopen Hhash]].
    + apply Z.ltb_lt in Hneg. rewrite Hneg. eexists; reflexivity.
    + destruct (cache_open_fd rt <? 0); [eexists; reflexivity |].
      rewrite Hopen. simpl.
      destruct (compressed_hash rt); [eexists; reflexivity | contradiction].
Qed.

(** C9.  For a known attribute of a found inode (for user.lhash, provided
    the cached copy is absent or can be read and hashed), getxattr answers
    the length of the value when size is 0, ERANGE when 0 < size < length,
    and the value with its length when size >= length (size 0 being the
    length query). *)
Theorem getxattr_buffer_protocol rt d attr size :
  known_attribute rt d attr ->
  exists v,
    attribute_value rt d attr = Value v /\
    (size = 0 ->
     cvmfs_getxattr rt (Some d) attr size = reply_xattr (length_of v)) /\
    (0 < size < length_of v ->
     cvmfs_getxattr rt (Some d) attr size = reply_err ERANGE) /\
    (0 < size -> length_of v <= size ->
     cvmfs_getxattr rt (Some d) attr size = reply_buf v (length_of v)).
Proof.
  intros Hknown.
  destruct (known_attribute_has_value rt d attr Hknown) as [v Hv].
  exists v. split; [exact Hv |]. unfold cvmfs_getxattr. rewrite Hv.
  split; [| split].
  - intros ->. reflexivity.
  - intros [Hpos Hlt].
    destruct (Z.eqb_spec size 0); [lia |].
    destruct (Z.geb_spec size (length_of v)); [lia | reflexivity].
  - intros Hpos Hge.
    destruct (Z.eqb_spec size 0); [lia |].
    destruct (Z.geb_spec size (length_of v)); [reflexivity | lia].
Qed.

(** *** A mounted repository *)

Definition mounted : Runtime :=
  mkRuntime 4711 "2.1" "15" 1042 "a1b2c3" 10600 10000 1024 3 1 0
            [["http://proxy:3128"]] 0 ["http://stratum1/cvmfs"] 0
            4000 2 17 5 9 2 2 204800 4 "atlas.cern.ch" (-2) false None.

Definition regular_file : DirectoryEntry := mkDirent (Some "da39a3ee").

Example getxattr_expires_query :
  cvmfs_getxattr mounted (Some regular_file) "user.expires" 0 = reply_xattr 2.
Proof. vm_compute. reflexivity. Qed.

Example getxattr_fqrn_short_buffer :
  cvmfs_getxattr mounted (Some regular_file) "user.fqrn" 5 = reply_err ERANGE.
Proof. vm_compute. reflexivity. Qed.

Example getxattr_maxfd :
  cvmfs_getxattr mounted (Some regular_file) "user.maxfd" 64 = reply_buf "512" 3.
Proof. vm_compute. reflexivity. Qed.

Example getxattr_hash_of_directory :
  cvmfs_getxattr mounted (Some (mkDirent None)) "user.hash" 64 = reply_err ENOATTR.
Proof. vm_compute. reflexivity. Qed.

Lemma getxattr_buffer_protocol_witness :
  exists v,
    attribute_value mounted regular_file "user.lhash" = Value v /\
    (64 = 0 ->
     cvmfs_getxattr mounted (Some regular_file) "user.lhash" 64
       = reply_xattr (length_of v)) /\
    (0 < 64 < length_of v ->
     cvmfs_getxattr mounted (Some regular_file) "user.lhash" 64
       = reply_err ERANGE) /\
    (0 < 64 -> length_of v <= 64 ->
     cvmfs_getxattr mounted (Some regular_file) "user.lhash" 64
       = reply_buf v (length_of v)).
Proof.
  apply (getxattr_buffer_protocol mounted regular_file "user.lhash" 64).
  right. split; [discriminate |]. right. split; [reflexivity |].
  left. simpl. lia.
Defined.

(** The protocol as the specification words it: every attribute that the
    file system knows for the entry has a value length that size 0 asks
    for. *)
Definition buffer_protocol_as_stated : Prop :=
  forall rt d attr,
    In attr runtime_attributes \/
    (checksum d <> None /\
     (attr = "user.hash"%string \/ attr = "user.lhash"%string)) ->
    exists v,
      cvmfs_getxattr rt (Some d) attr 0 = reply_xattr (length_of v) /\
      forall size,
        (0 < size < length_of v ->
         cvmfs_getxattr rt (Some d) attr size = reply_err ERANGE) /\
        (0 < size -> length_of v <= size ->
         cvmfs_getxattr rt (Some d) attr size = reply_buf v (length_of v)).

(** The object is in the cache (descriptor 9), but fdopen fails on it. *)
Definition unreadable_copy : Runtime :=
  mkRuntime 4711 "2.1" "15" 1042 "a1b2c3" 10600 10000 1024 3 1 0
            [["http://proxy:3128"]] 0 ["http://stratum1/cvmfs"] 0
            4000 2 17 5 9 2 2 204800 4 "atlas.cern.ch" 9 false None.

(** C9 (counterexample).  user.lhash of a regular file whose cached copy
    cannot be read is answered with EIO at every size, the length query
    included. *)
Lemma lhash_unreadable_counterexample :
  ~ buffer_protocol_as_stated /\
  cvmfs_getxattr unreadable_copy (Some regular_file) "user.lhash" 0
  = reply_err EIO /\
  cvmfs_getxattr unreadable_copy (Some regular_file) "user.lhash" 64
  = reply_err EIO.
Proof.
  split; [| split; vm_compute; reflexivity].
  intros H.
  destruct (H unreadable_copy regular_file "user.lhash"%string) as (v & Hlen & _).
  - right. split; [discriminate |]. right. reflexivity.
  - vm_compute in Hlen. discriminate Hlen.
Qed.

End Xattr.

(** * Reading chunked files (cvmfs.cc: cvmfs_read) *)

Module ChunkedRead.

Import OpenFile.

(** The descriptors of the process that point into the cache, with the
    content of the file each one is open on. *)
Record Os := mkOs {
  open_files : gmap Z (list Z);
  next_descriptor : Z
}.

(** The globals that cvmfs_read reads and writes. *)
Record State := mkState {
  chunk_tables_ : ChunkTables;
  os : Os;
  num_fs_read_ : Z
}.

Inductive Reply :=
| reply_err (errno : Z)
| reply_buf (buf : list Z) (size : Z).

Definition EBADF : Z := 9.

(** close(2). *)
Definition close (fd : Z) (o : Os) : Os :=
  mkOs (delete fd (open_files o)) (next_descriptor o).

(** pread(2) on a cache file: the result as a size_t (-1 on error), the
    bytes stored into the buffer, and errno. *)
Definition pread (fd nbytes offset : Z) (o : Os) : Z * list Z * Z :=
  match open_files o !! fd with
  | Some content =>
      if offset <? 0 then (wrap_u64 (-1), [], EINVAL)
      else
        let bytes := take (Z.to_nat nbytes) (drop (Z.to_nat offset) content) in
        (Z.of_nat (length bytes), bytes, 0)
  | None => (wrap_u64 (-1), [], EBADF)
  end.

Section WithFetcher.

(** The verified content the fetcher obtains for a chunk, if it can. *)
Variable fetch : FileChunk -> option (list Z).

(** Modelled from the spec: cache::FetchChunk is in cache.cc.  Section 2:
    the fetcher, "given a content digest ..., returns a local file
    descriptor to a verified, decompressed copy"; a negative value reports
    failure. *)
Definition FetchChunk (c : FileChunk) (o : Os) : Z * Os :=
  match fetch c with
  | Some content =>
      (next_descriptor o,
       mkOs (<[next_descriptor o := content]> (open_files o))
            (next_descriptor o + 1))
  | None => (- EIO, o)
  end.

(** BigVector::AtPtr, which asserts that the index is in range. *)
Definition AtPtr (chunks : list FileChunk) (index : Z) : option FileChunk :=
  if (0 <=? index) && (index <? Z.of_nat (length chunks))
  then chunks !! Z.to_nat index
  else None.

(** The binary search of lines 1139-1154, on unsigned indices.  [None]:
    [fuel] rounds were not enough. *)
Fixpoint find_chunk (fuel : nat) (chunks : list FileChunk) (off : Z)
    (idx_low idx_high chunk_idx : Z) : option (Outcome Z) :=
  if idx_low <? idx_high then
    match fuel with
    | O => None
    | S fuel' =>
        match AtPtr chunks chunk_idx with
        | None => Some AssertionFailed
        | Some c =>
            if offset c >? off then
              if idx_high >? 0 then
                let idx_high' := wrap_u32 (chunk_idx - 1) in
                find_chunk fuel' chunks off idx_low idx_high'
                  (wrap_u32 (idx_low + wrap_u32 (idx_high' - idx_low) / 2))
              else Some AssertionFailed
            else if chunk_idx =? Z.of_nat (length chunks) - 1
            then Some (Done chunk_idx)
            else
              match AtPtr chunks (wrap_u32 (chunk_idx + 1)) with
              | None => Some AssertionFailed
              | Some next =>
                  if offset next >? off then Some (Done chunk_idx)
                  else
                    let idx_low' := wrap_u32 (chunk_idx + 1) in
                    find_chunk fuel' chunks off idx_low' idx_high
                      (wrap_u32 (idx_low' + wrap_u32 (idx_high - idx_low') / 2))
              end
        end
    end
  else Some (Done chunk_idx).

(** Lines 1168-1184: make [chunk_fd] a descriptor of chunk [chunk_idx].
    [inl]: the fetch failed, the handle is left without a descriptor;
    [inr]: the descriptor to read from. *)
Definition open_chunk (c : FileChunk) (chunk_idx : Z) (chunk_fd : ChunkFd)
    (o : Os) : (ChunkFd * Os) + (ChunkFd * Os) :=
  if (fd chunk_fd =? -1) || negb (OpenFile.chunk_idx chunk_fd =? chunk_idx)
  then
    let o1 := if negb (fd chunk_fd =? -1) then close (fd chunk_fd) o else o in
    let fetched := FetchChunk c o1 in
    if fetched.1 <? 0
    then inl (mkChunkFd (-1) (OpenFile.chunk_idx chunk_fd), fetched.2)
    else inr (mkChunkFd fetched.1 chunk_idx, fetched.2)
  else inr (chunk_fd, o).

(** How the do-while loop of lines 1166-1214 ends. *)
Inductive LoopExit :=
| Finished (chunk_fd : ChunkFd) (data : list Z) (overall_bytes_fetched : Z)
           (o : Os)
| Failed (errno : Z) (chunk_fd : ChunkFd) (o : Os)
| Aborted.

(** The loop; [data] is the buffer as far as it has been written, and each
    pread stores its bytes at [data + overall_bytes_fetched]. *)
Fixpoint read_chunks (fuel : nat) (chunks : list FileChunk) (size : Z)
    (chunk_fd : ChunkFd) (overall_bytes_fetched : Z) (data : list Z)
    (chunk_idx offset_in_chunk : Z) (o : Os) : option LoopExit :=
  match fuel with
  | O => None
  | S fuel' =>
      match AtPtr chunks chunk_idx with
      | None => Some Aborted
      | Some c =>
          match open_chunk c chunk_idx chunk_fd o with
          | inl (closed_fd, o2) => Some (Failed EIO closed_fd o2)
          | inr (chunk_fd', o2) =>
              (* Read data from chunk *)
              let bytes_to_read := wrap_u64 (size - overall_bytes_fetched) in
              let remaining_bytes_in_chunk :=
                wrap_u64 (OpenFile.size c - offset_in_chunk) in
              let bytes_to_read_in_chunk :=
                Z.min bytes_to_read remaining_bytes_in_chunk in
              let rd := pread (fd chunk_fd') bytes_to_read_in_chunk
                              offset_in_chunk o2 in
              let bytes_fetched := rd.1.1 in
              if bytes_fetched =? wrap_u64 (-1)
              then Some (Failed rd.2 chunk_fd' o2)
              else
                let overall' := wrap_u32 (overall_bytes_fetched + bytes_fetched) in
                let data' :=
                  take (Z.to_nat overall_bytes_fetched) data ++ rd.1.2 in
                (* Proceed to the next chunk to keep on reading data *)
                let chunk_idx' := wrap_u32 (chunk_idx + 1) in
                if (overall' <? size)
                   && (chunk_idx' <? Z.of_nat (length chunks))
                then read_chunks fuel' chunks size chunk_fd' overall' data'
                                 chunk_idx' 0 o2
                else Some (Finished chunk_fd' data' overall' o2)
          end
      end
  end.

Definition set_handle (chunk_handle : Z) (chunk_fd : ChunkFd) (o : Os)
    (st : State) : State :=
  let t := chunk_tables_ st in
  mkState (mkChunkTables (next_handle t) (inode2chunks t) (inode2references t)
                         (<[chunk_handle := chunk_fd]> (handle2fd t)))
          o (wrap_s64 (num_fs_read_ st + 1)).

(** cvmfs_read (lines 1111-1232).  The binary search needs at most one
    round per chunk, the read loop exactly one. *)
Definition cvmfs_read (ino size off fh : Z) (st : State)
  : option (Outcome (Reply * State)) :=
  if wrap_s64 fh <? 0 then
    let chunk_handle := wrap_u64 (- wrap_s64 fh) in
    match inode2chunks (chunk_tables_ st) !! ino with
    | None => Some AssertionFailed
    | Some chunks =>
        let l := list_ chunks in
        if negb (Z.of_nat (length l) >? 0) then Some AssertionFailed
        else
          let idx_high := wrap_u32 (Z.of_nat (length l) - 1) in
          match find_chunk (length l) l off 0 idx_high (idx_high / 2) with
          | None => None
          | Some AssertionFailed => Some AssertionFailed
          | Some (Done chunk_idx) =>
              match handle2fd (chunk_tables_ st) !! chunk_handle,
                    AtPtr l chunk_idx with
              | Some chunk_fd, Some c =>
                  let offset_in_chunk := off - offset c in
                  match read_chunks (length l) l size chunk_fd 0 [] chunk_idx
                                    offset_in_chunk (os st) with
                  | None => None
                  | Some Aborted => Some AssertionFailed
                  | Some (Failed errno chunk_fd' o') =>
                      Some (Done (reply_err errno,
                                  set_handle chunk_handle chunk_fd' o' st))
                  | Some (Finished chunk_fd' data overall o') =>
                      Some (Done (reply_buf (take (Z.to_nat overall) data) overall,
                                  set_handle chunk_handle chunk_fd' o' st))
                  end
              | _, _ => Some AssertionFailed
              end
          end
    end
  else
    let rd := pread (wrap_s64 fh) size off (os st) in
    let overall := wrap_u32 rd.1.1 in
    Some (Done (reply_buf (take (Z.to_nat overall) rd.1.2) overall,
                mkState (chunk_tables_ st) (os st)
                        (wrap_s64 (num_fs_read_ st + 1)))).

End WithFetcher.

(** *** The layout of a chunked file *)

(** "Offsets are strictly increasing and cover [0, file_size)
    contiguously": every chunk starts where its predecessor ends, and only
    the last one may be empty. *)
Fixpoint contiguous_from (start : Z) (chunks : list FileChunk) : Prop :=
  match chunks with
  | [] => True
  | c :: rest =>
      offset c = start /\ 0 <= size c /\ (rest <> [] -> 0 < size c) /\
      contiguous_from (start + size c) rest
  end.

Fixpoint total_size (chunks : list FileChunk) : Z :=
  match chunks with
  | [] => 0
  | c :: rest => size c + total_size rest
  end.




Lemma contiguous_last chunks : forall start (i : nat) c,
  contiguous_from start chunks -> chunks !! i = Some c ->
  S i = length chunks ->
  offset c + size c = start + total_size chunks.
Proof.
  induction chunks as [| c0 rest IH]; intros start i c Hc Hi Hlen; [discriminate |].
  destruct Hc as (Hoff & Hsize & _ & Hrest).
  destruct i as [| i]; simpl in *.
  - injection Hi as <-. destruct rest; [simpl; lia | discriminate].
  - rewrite (IH _ _ _ Hrest Hi) by lia. lia.
Qed.





(** *** The read loop *)

Section ReadFacts.

Variable fetch : FileChunk -> option (list Z).



(** Every chunk can be fetched and has the size the catalog records. *)
Definition cached (chunks : list FileChunk) : Prop :=
  forall (i : nat) c,
    chunks !! i = Some c ->
    exists bytes, fetch c = Some bytes /\ Z.of_nat (length bytes) = size c.










End ReadFacts.

(** *** A file of three chunks *)

Definition three_chunks : list FileChunk :=
  [mkChunk 101 0 4; mkChunk 102 4 4; mkChunk 103 8 3].

(** The cache holds the three chunks under their content hashes. *)
Definition chunk_store (c : FileChunk) : option (list Z) :=
  if content_hash c =? 101 then Some [1; 2; 3; 4]
  else if content_hash c =? 102 then Some [5; 6; 7; 8]
  else if content_hash c =? 103 then Some [9; 10; 11]
  else None.

(** Inode 300 has been opened once (chunk handle 2); nothing has been read
    through the handle yet. *)
Definition opened_once : State :=
  mkState
    (mkChunkTables 3 {[300 := mkReflist three_chunks "/a/big"]}
                   {[300 := 1]} {[2 := ChunkFd_new]})
    (mkOs ∅ 10) 0.



(** The read of 5 bytes at offset 2 straddles the first two chunks and
    opens one descriptor for each. *)
Example read_across_chunk_boundary :
  exists st',
    cvmfs_read chunk_store 300 5 2 (wrap_u64 (- 2)) opened_once
    = Some (Done (reply_buf [3; 4; 5; 6; 7] 5, st')) /\
    next_descriptor (os st') = 12 /\
    handle2fd (chunk_tables_ st') !! 2 = Some (mkChunkFd 11 1).
Proof. eexists. vm_compute. repeat split. Qed.

(** A read that reaches beyond the end of the file returns what is left. *)
Example read_to_end_of_file :
  exists st',
    cvmfs_read chunk_store 300 100 9 (wrap_u64 (- 2)) opened_once
    = Some (Done (reply_buf [10; 11] 2, st')).
Proof. eexists. vm_compute. reflexivity. Qed.

End ChunkedRead.

(** * The tiered cache manager: what Open acquires and releases, and the
      transaction methods (cache_tiered.cc) *)

Module TieredTxn.

Import Tiered.

Arguments lower_readonly_ {Hash ObjectInfo SU SL} _.

(** *** Descriptors and transactions in the call log of Open *)

Section Resources.

Context {Hash ObjectInfo : Type}.
Implicit Types (e : Event Hash ObjectInfo) (tr : list (Event Hash ObjectInfo)).

(** Descriptors that the lower layer's Open handed out, and descriptors
    that were closed on the lower layer. *)
Definition lower_opened tr : list Z :=
  flat_map (fun e => match e with
                     | LowerOpen r => if r <? 0 then [] else [r]
                     | _ => []
                     end) tr.

Definition lower_closed tr : list Z :=
  flat_map (fun e => match e with LowerClose fd => [fd] | _ => [] end) tr.

(** Upper transactions that StartTxn began, and calls that end one. *)
Definition txn_started tr : nat :=
  length (List.filter (fun e => match e with
                                | UpperStartTxn _ _ r => negb (r <? 0)
                                | _ => false
                                end) tr).

Definition txn_ended tr : nat :=
  length (List.filter (fun e => match e with
                                | UpperAbortTxn | UpperCommitTxn _ => true
                                | _ => false
                                end) tr).

(** Descriptors that OpenFromTxn handed out, and descriptors closed on the
    upper layer. *)
Definition upper_opened_from_txn tr : list Z :=
  flat_map (fun e => match e with
                     | UpperOpenFromTxn r => if r <? 0 then [] else [r]
                     | _ => []
                     end) tr.

Definition upper_closed tr : list Z :=
  flat_map (fun e => match e with UpperClose fd => [fd] | _ => [] end) tr.

(** Whether a commit succeeded. *)
Definition committed tr : bool :=
  existsb (fun e => match e with
                    | UpperCommitTxn r => negb (r <? 0)
                    | _ => false
                    end) tr.

(** No call is made on the lower layer once a descriptor has been closed
    there. *)
Fixpoint lower_idle_after_close tr : bool :=
  match tr with
  | [] => true
  | LowerClose _ :: rest => negb (existsb lower_call rest)
  | _ :: rest => lower_idle_after_close rest
  end.

(** The events of the copy loop for the lower descriptor [fd2]: reads from
    [fd2] and writes into the upper transaction. *)
Definition copies_from (fd2 : Z) e : bool :=
  match e with
  | LowerPread fd _ _ _ _ => fd =? fd2
  | UpperWrite _ _ _ => true
  | _ => false
  end.

Definition copy_of (fd2 : Z) tr : Prop := forallb (copies_from fd2) tr = true.

(** The logs Open can leave behind, for the result [r] it returns: [r] is
    what the upper layer's Open returned, except in the last case. *)
Inductive OpenTrace (r : Z) : list (Event Hash ObjectInfo) -> Prop :=
| trace_upper_only :
    OpenTrace r [UpperOpen r]
| trace_lower_miss fd2 :
    fd2 < 0 ->
    OpenTrace r [UpperOpen r; LowerOpen fd2]
| trace_no_size fd2 size :
    0 <= fd2 -> size < 0 ->
    OpenTrace r [UpperOpen r; LowerOpen fd2; LowerGetSize fd2 size;
                 LowerClose fd2]
| trace_no_txn fd2 size h started :
    0 <= fd2 -> started < 0 ->
    OpenTrace r [UpperOpen r; LowerOpen fd2; LowerGetSize fd2 size;
                 UpperStartTxn h (wrap_u64 size) started; LowerClose fd2]
| trace_copy_failed fd2 size h started i copy :
    0 <= fd2 -> 0 <= started -> copy_of fd2 copy ->
    OpenTrace r ([UpperOpen r; LowerOpen fd2; LowerGetSize fd2 size;
                  UpperStartTxn h (wrap_u64 size) started; UpperCtrlTxn i 0]
                 ++ copy ++ [LowerClose fd2; UpperAbortTxn])
| trace_no_descriptor fd2 size h started i copy fd_return :
    0 <= fd2 -> 0 <= started -> copy_of fd2 copy ->
    fd_return < 0 ->
    OpenTrace r ([UpperOpen r; LowerOpen fd2; LowerGetSize fd2 size;
                  UpperStartTxn h (wrap_u64 size) started; UpperCtrlTxn i 0]
                 ++ copy ++ [LowerClose fd2; UpperOpenFromTxn fd_return;
                             UpperAbortTxn])
| trace_commit_failed fd2 size h started i copy fd_return committed :
    0 <= fd2 -> 0 <= started -> copy_of fd2 copy ->
    0 <= fd_return -> committed < 0 -> r < 0 ->
    OpenTrace r ([UpperOpen r; LowerOpen fd2; LowerGetSize fd2 size;
                  UpperStartTxn h (wrap_u64 size) started; UpperCtrlTxn i 0]
                 ++ copy ++ [LowerClose fd2; UpperOpenFromTxn fd_return;
                             UpperCommitTxn committed; UpperClose fd_return])
| trace_promoted fd fd2 size h started i copy committed :
    0 <= fd2 -> 0 <= started -> copy_of fd2 copy ->
    0 <= r -> 0 <= committed -> fd < 0 ->
    OpenTrace r ([UpperOpen fd; LowerOpen fd2; LowerGetSize fd2 size;
                  UpperStartTxn h (wrap_u64 size) started; UpperCtrlTxn i 0]
                 ++ copy ++ [LowerClose fd2; UpperOpenFromTxn r;
                             UpperCommitTxn committed]).

Lemma copy_of_silent fd2 copy rest :
  copy_of fd2 copy ->
  lower_opened (copy ++ rest) = lower_opened rest /\
  lower_closed (copy ++ rest) = lower_closed rest /\
  txn_started (copy ++ rest) = txn_started rest /\
  txn_ended (copy ++ rest) = txn_ended rest /\
  upper_opened_from_txn (copy ++ rest) = upper_opened_from_txn rest /\
  upper_closed (copy ++ rest) = upper_closed rest /\
  committed (copy ++ rest) = committed rest /\
  lower_idle_after_close (copy ++ rest) = lower_idle_after_close rest.
Proof.
  unfold copy_of. induction copy as [| e copy IH]; intros Hcopy.
  - repeat split.
  - simpl in Hcopy. apply andb_true_iff in Hcopy as [He Hcopy].
    specialize (IH Hcopy).
    destruct e; simpl in He; try discriminate; exact IH.
Qed.

End Resources.

Section OpenFacts.

Context {Hash ObjectInfo SU SL : Type}.
Variable kCopyBufferSize : Z.
Variable mgr : @TieredCacheManager Hash ObjectInfo SU SL.

Implicit Types (w : @World Hash ObjectInfo SU SL).

(** The copy loop terminates within one round per byte, and leaves the
    reads and writes in the log, followed on failure by the close of [fd2]
    and the abort of the transaction. *)
Lemma copy_loop_trace (Hk : 0 < kCopyBufferSize < 2 ^ 32) :
  forall fuel fd2 remaining offset w,
  0 <= remaining < 2 ^ 64 -> (Z.to_nat remaining <= fuel)%nat ->
  exists b w' copy,
    copy_loop kCopyBufferSize mgr fuel fd2 remaining offset w = Some (b, w') /\
    copy_of fd2 copy /\
    calls w' = calls w ++ copy
               ++ (if b then [] else [LowerClose fd2; UpperAbortTxn]).
Proof.
  induction fuel as [| fuel IH]; intros fd2 remaining offset w Hrem Hfuel.
  - assert (remaining = 0) as -> by lia. simpl.
    exists true, w, []. rewrite !app_nil_r. repeat split.
  - destruct (Z.gtb_spec remaining 0) as [Hpos | Hzero].
    2:{ assert (remaining = 0) as -> by lia. simpl.
        exists true, w, []. rewrite !app_nil_r. repeat split. }
    cbn [copy_loop]. destruct (Z.gtb_spec remaining 0) as [_ | ?]; [| lia].
    set (nbytes := wrap_u32 _).
    assert (Hn : nbytes = Z.min kCopyBufferSize remaining).
    { unfold nbytes.
      destruct (Z.gtb_spec remaining kCopyBufferSize);
        rewrite wrap_u32_id by (unfold is_u32; lia); lia. }
    set (rd := lower_Pread mgr fd2 nbytes offset w).
    destruct ((rd.1 <? 0) || negb (rd.1 =? nbytes)) eqn:Erd.
    + exists false, (upper_AbortTxn mgr (lower_Close mgr fd2 rd.2)).
      exists [LowerPread fd2 nbytes offset rd.1
                (cm_Pread (lower_ mgr) fd2 nbytes offset (lower_state w)).1.2].
      split; [reflexivity |]. split.
      * unfold copy_of. simpl. rewrite Z.eqb_refl. reflexivity.
      * simpl. rewrite <- !app_assoc. reflexivity.
    + set (wr := upper_Write mgr nbytes rd.2).
      destruct (wr.1 <? 0) eqn:Ewr.
      * exists false, (upper_AbortTxn mgr (lower_Close mgr fd2 wr.2)).
        eexists [LowerPread fd2 nbytes offset rd.1 _; UpperWrite _ nbytes wr.1].
        split; [reflexivity |]. split.
        -- unfold copy_of. simpl. rewrite Z.eqb_refl. reflexivity.
        -- simpl. rewrite <- !app_assoc. reflexivity.
      * destruct (IH fd2 (wrap_u64 (remaining - nbytes))
                     (wrap_u64 (offset + nbytes)) wr.2)
          as (b & w' & copy & Hloop & Hcopy & Hcalls).
        { rewrite wrap_u64_id by (unfold is_u64; lia). lia. }
        { rewrite wrap_u64_id by (unfold is_u64; lia). lia. }
        exists b, w'.
        eexists (LowerPread fd2 nbytes offset rd.1 _
                 :: UpperWrite _ nbytes wr.1 :: copy).
        split; [exact Hloop |]. split.
        -- unfold copy_of in *. simpl. rewrite Z.eqb_refl. exact Hcopy.
        -- rewrite Hcalls. simpl. rewrite <- !app_assoc. reflexivity.
Qed.

(** Open returns, and its log has one of the shapes of [OpenTrace]. *)
Lemma Open_trace (Hk : 0 < kCopyBufferSize < 2 ^ 32) object w :
  calls w = [] ->
  exists r w',
    Open kCopyBufferSize mgr object w = Some (r, w') /\ OpenTrace r (calls w').
Proof.
  intros Hcalls. unfold Open.
  set (up := upper_Open mgr object w). set (fd := up.1).
  destruct ((fd >=? 0) || negb (fd =? - ENOENT)) eqn:Efd.
  { exists fd, up.2. split; [reflexivity |].
    simpl. rewrite Hcalls. apply trace_upper_only. }
  apply orb_false_iff in Efd as [Hneg _].
  rewrite Z.geb_leb in Hneg. apply Z.leb_gt in Hneg.
  set (lo := lower_Open mgr object up.2). set (fd2 := lo.1).
  destruct (Z.ltb_spec fd2 0) as [Hfd2 | Hfd2].
  { exists fd, lo.2. split; [reflexivity |].
    simpl. rewrite Hcalls. apply trace_lower_miss. exact Hfd2. }
  set (sz := lower_GetSize mgr fd2 lo.2). set (size := sz.1).
  destruct (Z.ltb_spec size 0) as [Hsize | Hsize].
  { exists fd, (lower_Close mgr fd2 sz.2). split; [reflexivity |].
    simpl. rewrite Hcalls. apply trace_no_size; assumption. }
  set (st := upper_StartTxn mgr (id object) (wrap_u64 size) sz.2).
  destruct (Z.ltb_spec st.1 0) as [Hst | Hst].
  { exists fd, (lower_Close mgr fd2 st.2). split; [reflexivity |].
    simpl. rewrite Hcalls. apply trace_no_txn; assumption. }
  set (w5 := upper_CtrlTxn mgr (info object) 0 st.2).
  assert (Hw5 : calls w5 = [UpperOpen fd; LowerOpen fd2; LowerGetSize fd2 size;
                            UpperStartTxn (id object) (wrap_u64 size) st.1;
                            UpperCtrlTxn (info object) 0])
    by (simpl; rewrite Hcalls; reflexivity).
  destruct (copy_loop_trace Hk (Z.to_nat size) fd2 (wrap_u64 size) 0 w5)
    as (b & w6 & copy & Hloop & Hcopy & Hlog).
  { apply wrap_u64_range. }
  { unfold wrap_u64. pose proof (Z.mod_le size (2 ^ 64)). lia. }
  rewrite Hloop. rewrite Hw5 in Hlog. destruct b.
  2:{ exists fd, w6. split; [reflexivity |]. rewrite Hlog.
      apply trace_copy_failed; assumption. }
  rewrite app_nil_r in Hlog.
  set (w7 := lower_Close mgr fd2 w6).
  set (op := upper_OpenFromTxn mgr w7). set (fd_return := op.1).
  assert (Hop : calls op.2 =
                [UpperOpen fd; LowerOpen fd2; LowerGetSize fd2 size;
                 UpperStartTxn (id object) (wrap_u64 size) st.1;
                 UpperCtrlTxn (info object) 0]
                ++ copy ++ [LowerClose fd2; UpperOpenFromTxn fd_return]).
  { simpl. rewrite Hlog. simpl. rewrite <- !app_assoc. reflexivity. }
  destruct (Z.ltb_spec fd_return 0) as [Hret | Hret].
  { exists fd, (upper_AbortTxn mgr op.2). split; [reflexivity |].
    change (calls (upper_AbortTxn mgr op.2)) with (calls op.2 ++ [UpperAbortTxn]).
    rewrite Hop, <- !app_assoc. simpl.
    apply (trace_no_descriptor fd fd2 size (id object) st.1 (info object) copy
             fd_return); assumption. }
  set (cm := upper_CommitTxn mgr op.2).
  assert (Hcm : calls cm.2 =
                [UpperOpen fd; LowerOpen fd2; LowerGetSize fd2 size;
                 UpperStartTxn (id object) (wrap_u64 size) st.1;
                 UpperCtrlTxn (info object) 0]
                ++ copy ++ [LowerClose fd2; UpperOpenFromTxn fd_return;
                            UpperCommitTxn cm.1]).
  { change (calls cm.2) with (calls op.2 ++ [UpperCommitTxn cm.1]).
    rewrite Hop, <- !app_assoc. reflexivity. }
  destruct (Z.ltb_spec cm.1 0) as [Hcommit | Hcommit].
  { exists fd, (upper_Close mgr fd_return cm.2). split; [reflexivity |].
    change (calls (upper_Close mgr fd_return cm.2))
      with (calls cm.2 ++ [UpperClose fd_return]).
    rewrite Hcm, <- !app_assoc. simpl.
    apply (trace_commit_failed fd fd2 size (id object) st.1 (info object) copy
             fd_return cm.1); assumption. }
  exists fd_return, cm.2. split; [reflexivity |]. rewrite Hcm.
  apply (trace_promoted fd_return fd fd2 size (id object) st.1 (info object)
           copy cm.1); assumption.
Qed.

(** X1.  Open closes every descriptor it opened on the lower layer, once,
    whatever path it takes, and makes no call on the lower layer after the
    close.  The calls are those that reached the backends: made again on
    the states the layers had before, the logged calls return the logged
    results and leave the layers in the states Open leaves them in, so
    the lower backend has received the Close. *)
Theorem Open_closes_lower_descriptor (Hk : 0 < kCopyBufferSize < 2 ^ 32)
    object w :
  calls w = [] ->
  exists r w',
    Open kCopyBufferSize mgr object w = Some (r, w') /\
    replay mgr object (calls w') (upper_state w, lower_state w)
    = (true, (upper_state w', lower_state w')) /\
    lower_closed (calls w') = lower_opened (calls w') /\
    lower_idle_after_close (calls w') = true.
Proof.
  intros Hcalls.
  destruct (Open_trace Hk object w Hcalls) as (r & w' & Hopen & Htrace).
  exists r, w'. split; [exact Hopen |].
  split; [exact (Open_replays mgr object kCopyBufferSize w r w' Hcalls Hopen) |].
  destruct Htrace;
    try match goal with
        | H : copy_of ?fd ?c |- context [?c ++ ?rest] =>
            destruct (copy_of_silent fd c rest H)
              as (Ho & Hc & _ & _ & _ & _ & _ & Hidle)
        end;
    repeat match goal with
           | H : _ <= _ |- _ => apply Z.ltb_ge in H
           | H : _ < _ |- _ => apply Z.ltb_lt in H
           end;
    unfold lower_closed, lower_opened in *;
    cbn [app flat_map lower_idle_after_close];
    rewrite ?Ho, ?Hc, ?Hidle;
    cbn [app flat_map lower_idle_after_close existsb lower_call negb orb];
    repeat match goal with H : (_ <? _) = _ |- _ => rewrite H end;
    split; reflexivity.
Qed.

(** X2.  Open leaves no upper transaction pending and no descriptor of the
    upper layer behind: a transaction it started is ended by exactly one
    AbortTxn or CommitTxn, and a descriptor that OpenFromTxn handed out is
    closed again unless the commit succeeded, in which case it is the
    descriptor Open returns.  The calls are those that reached the
    backends: made again on the states the layers had before, the logged
    calls return the logged results and leave the layers in the states Open
    leaves them in, so the upper backend has received the AbortTxn, the
    CommitTxn and the Close. *)
Theorem Open_ends_upper_transaction (Hk : 0 < kCopyBufferSize < 2 ^ 32)
    object w :
  calls w = [] ->
  exists r w',
    Open kCopyBufferSize mgr object w = Some (r, w') /\
    replay mgr object (calls w') (upper_state w, lower_state w)
    = (true, (upper_state w', lower_state w')) /\
    txn_ended (calls w') = txn_started (calls w') /\
    upper_opened_from_txn (calls w')
    = upper_closed (calls w') ++ (if committed (calls w') then [r] else []).
Proof.
  intros Hcalls.
  destruct (Open_trace Hk object w Hcalls) as (r & w' & Hopen & Htrace).
  exists r, w'. split; [exact Hopen |].
  split; [exact (Open_replays mgr object kCopyBufferSize w r w' Hcalls Hopen) |].
  destruct Htrace;
    try match goal with
        | H : copy_of ?fd ?c |- context [?c ++ ?rest] =>
            destruct (copy_of_silent fd c rest H)
              as (_ & _ & Hs & He & Ho & Hc & Hcm & _)
        end;
    repeat match goal with
           | H : _ <= _ |- _ => apply Z.ltb_ge in H
           | H : _ < _ |- _ => apply Z.ltb_lt in H
           end;
    unfold txn_ended, txn_started, upper_opened_from_txn, upper_closed,
      committed in *;
    cbn [app List.filter length flat_map existsb];
    repeat match goal with H : (_ <? _) = _ |- _ => rewrite H end;
    cbn [app List.filter length flat_map existsb negb orb];
    rewrite ?Hs, ?He, ?Ho, ?Hc, ?Hcm;
    cbn [app List.filter length flat_map existsb negb orb];
    repeat match goal with H : (_ <? _) = _ |- _ => rewrite H end;
    cbn [app List.filter length negb orb];
    split; reflexivity.
Qed.

End OpenFacts.

(** *** The transaction methods (lines 106-202)

    A transaction of the tiered manager is a pair of transactions, one in
    each layer's state ([txn] and [txn2 = txn + upper_->SizeOfTxn()] point
    into the two halves of the caller's buffer). *)

Section Transactions.

Context {Hash ObjectInfo SU SL : Type}.
Variable mgr : @TieredCacheManager Hash ObjectInfo SU SL.

(** CacheManager::Reset of the two layers. *)
Variable upper_Reset : SU -> Z * SU.
Variable lower_Reset : SL -> Z * SL.

Implicit Types (s : SU * SL).

(** StartTxn (lines 106-119). *)
Definition StartTxn (h : Hash) (size : Z) s : Z * (SU * SL) :=
  let up := cm_StartTxn (upper_ mgr) h size s.1 in
  let upper_result := up.1 in
  if lower_readonly_ mgr || (upper_result <? 0) then (upper_result, (up.2, s.2))
  else
    let lo := cm_StartTxn (lower_ mgr) h size s.2 in
    let lower_result := lo.1 in
    if lower_result <? 0
    then (lower_result, ((cm_AbortTxn (upper_ mgr) up.2).2, lo.2))
    else (lower_result, (up.2, lo.2)).

(** CtrlTxn (lines 134-144). *)
Definition CtrlTxn (object_info : ObjectInfo) (flags : Z) s : SU * SL :=
  let su := cm_CtrlTxn (upper_ mgr) object_info flags s.1 in
  if negb (lower_readonly_ mgr)
  then (su, cm_CtrlTxn (lower_ mgr) object_info flags s.2)
  else (su, s.2).

(** Write (lines 147-153).  The upper layer's int64_t result is stored in an
    [int]. *)
Definition Write (buf : list Z) (size : Z) s : Z * (SU * SL) :=
  let up := cm_Write (upper_ mgr) buf size s.1 in
  let upper_result := wrap_s32 up.1 in
  if lower_readonly_ mgr || (upper_result <? 0) then (upper_result, (up.2, s.2))
  else
    let lo := cm_Write (lower_ mgr) buf size s.2 in
    (lo.1, (up.2, lo.2)).

(** Reset (lines 156-166). *)
Definition Reset s : Z * (SU * SL) :=
  let up := upper_Reset s.1 in
  let upper_result := up.1 in
  let lo := if negb (lower_readonly_ mgr) then lower_Reset s.2
            else (upper_result, s.2) in
  let lower_result := lo.1 in
  (if upper_result <? 0 then upper_result else lower_result, (up.2, lo.2)).

(** AbortTxn (lines 169-179). *)
Definition AbortTxn s : Z * (SU * SL) :=
  let up := cm_AbortTxn (upper_ mgr) s.1 in
  let upper_result := up.1 in
  let lo := if negb (lower_readonly_ mgr) then cm_AbortTxn (lower_ mgr) s.2
            else (upper_result, s.2) in
  let lower_result := lo.1 in
  (if upper_result <? 0 then upper_result else lower_result, (up.2, lo.2)).

(** CommitTxn (lines 182-202); the warning it logs is left out. *)
Definition CommitTxn s : Z * (SU * SL) :=
  let up := cm_CommitTxn (upper_ mgr) s.1 in
  let upper_result := up.1 in
  let lo := if negb (lower_readonly_ mgr) then cm_CommitTxn (lower_ mgr) s.2
            else (upper_result, s.2) in
  (upper_result, (up.2, lo.2)).

(** The calls a client makes on a transaction. *)
Inductive TxnCall :=
| CallStartTxn (h : Hash) (size : Z)
| CallCtrlTxn (object_info : ObjectInfo) (flags : Z)
| CallWrite (buf : list Z) (size : Z)
| CallReset
| CallAbortTxn
| CallCommitTxn.

(** A call on the tiered manager; [None] is the result of a void method. *)
Definition tiered_call (c : TxnCall) s : option Z * (SU * SL) :=
  match c with
  | CallStartTxn h size => let r := StartTxn h size s in (Some r.1, r.2)
  | CallCtrlTxn i flags => (None, CtrlTxn i flags s)
  | CallWrite buf size => let r := Write buf size s in (Some r.1, r.2)
  | CallReset => let r := Reset s in (Some r.1, r.2)
  | CallAbortTxn => let r := AbortTxn s in (Some r.1, r.2)
  | CallCommitTxn => let r := CommitTxn s in (Some r.1, r.2)
  end.

(** The same call on the upper layer alone, with the result that the
    backend returns. *)
Definition upper_call (c : TxnCall) (su : SU) : option Z * SU :=
  match c with
  | CallStartTxn h size =>
      let r := cm_StartTxn (upper_ mgr) h size su in (Some r.1, r.2)
  | CallCtrlTxn i flags => (None, cm_CtrlTxn (upper_ mgr) i flags su)
  | CallWrite buf size =>
      let r := cm_Write (upper_ mgr) buf size su in (Some r.1, r.2)
  | CallReset => let r := upper_Reset su in (Some r.1, r.2)
  | CallAbortTxn => let r := cm_AbortTxn (upper_ mgr) su in (Some r.1, r.2)
  | CallCommitTxn => let r := cm_CommitTxn (upper_ mgr) su in (Some r.1, r.2)
  end.

(** The result of the same call on the lower layer alone. *)
Definition lower_result (c : TxnCall) (sl : SL) : option Z :=
  match c with
  | CallStartTxn h size => Some (cm_StartTxn (lower_ mgr) h size sl).1
  | CallCtrlTxn i flags => None
  | CallWrite buf size => Some (cm_Write (lower_ mgr) buf size sl).1
  | CallReset => Some (lower_Reset sl).1
  | CallAbortTxn => Some (cm_AbortTxn (lower_ mgr) sl).1
  | CallCommitTxn => Some (cm_CommitTxn (lower_ mgr) sl).1
  end.

Fixpoint tiered_calls (cs : list TxnCall) s : list (option Z) * (SU * SL) :=
  match cs with
  | [] => ([], s)
  | c :: rest =>
      let r := tiered_call c s in
      let later := tiered_calls rest r.2 in
      (r.1 :: later.1, later.2)
  end.

Fixpoint upper_calls (cs : list TxnCall) (su : SU) : list (option Z) * SU :=
  match cs with
  | [] => ([], su)
  | c :: rest =>
      let r := upper_call c su in
      let later := upper_calls rest r.2 in
      (r.1 :: later.1, later.2)
  end.

Definition succeeded (r : option Z) : Prop :=
  match r with Some v => 0 <= v | None => True end.

(** What the tiered manager takes the upper layer's result for: Write
    stores the int64_t it gets in an [int] (line 148); the results of the
    other methods are [int]s already. *)
Definition as_taken (c : TxnCall) (r : option Z) : option Z :=
  match c with
  | CallWrite _ _ => wrap_s32 <$> r
  | _ => r
  end.

(** A result that an [int] holds. *)
Definition fits_int (r : option Z) : Prop :=
  match r with Some v => is_s32 v | None => True end.

Lemma as_taken_fits c r : fits_int r -> as_taken c r = r.
Proof.
  destruct r as [v |]; [| destruct c; reflexivity].
  intros Hv. destruct c; try reflexivity. simpl. f_equal.
  apply wrap_s32_id. exact Hv.
Qed.

Lemma tiered_call_readonly c s :
  lower_readonly_ mgr = true ->
  tiered_call c s
  = (as_taken c (upper_call c s.1).1, ((upper_call c s.1).2, s.2)).
Proof.
  intros Hro. destruct s as [su sl].
  destruct c; simpl;
    unfold StartTxn, CtrlTxn, Write, Reset, AbortTxn, CommitTxn;
    rewrite Hro; simpl; try reflexivity.
  - destruct (_ <? 0); reflexivity.
  - destruct (_ <? 0); reflexivity.
Qed.

Lemma upper_calls_fit cs : forall su,
  Forall fits_int (upper_calls cs su).1 ->
  zip_with as_taken cs (upper_calls cs su).1 = (upper_calls cs su).1.
Proof.
  induction cs as [| c rest IH]; intros su Hfit; [reflexivity |].
  cbn [upper_calls fst snd zip_with] in *.
  apply Forall_cons in Hfit as [Hc Hrest].
  rewrite (as_taken_fits c _ Hc), (IH _ Hrest). reflexivity.
Qed.

(** X3.  With a read-only lower layer, no sequence of transaction calls
    changes the lower layer, and the calls leave the upper layer as the
    calls made on it alone do.  Each call returns what the upper layer
    returns, except that Write returns the upper layer's int64_t result
    cut down to an [int]: the results are those of the upper layer whenever
    these fit an [int]. *)
Theorem readonly_lower_layer_is_never_written cs : forall s,
  lower_readonly_ mgr = true ->
  let up := upper_calls cs s.1 in
  let r := tiered_calls cs s in
  r.2 = (up.2, s.2) /\
  r.1 = zip_with as_taken cs up.1 /\
  (Forall fits_int up.1 -> r.1 = up.1).
Proof.
  intros s Hro up r.
  assert (Hall : forall s0,
             tiered_calls cs s0
             = (zip_with as_taken cs (upper_calls cs s0.1).1,
                ((upper_calls cs s0.1).2, s0.2))).
  { induction cs as [| c rest IH]; intros [su sl]; [reflexivity |].
    cbn [tiered_calls upper_calls].
    rewrite (tiered_call_readonly c (su, sl) Hro).
    cbn [fst snd zip_with]. rewrite IH. reflexivity. }
  subst r up. rewrite Hall. cbn [fst snd].
  split; [reflexivity |]. split; [reflexivity |].
  intros Hfit. apply upper_calls_fit. exact Hfit.
Qed.

(** X4.  StartTxn on a writable lower layer opens a transaction in both
    layers or in none: it succeeds only if both layers' StartTxn did; if
    the upper layer fails the lower layer is not touched, and if the lower
    layer fails the transaction just started in the upper layer is
    aborted. *)
Theorem StartTxn_starts_both_or_none h size s :
  lower_readonly_ mgr = false ->
  let up := cm_StartTxn (upper_ mgr) h size s.1 in
  let lo := cm_StartTxn (lower_ mgr) h size s.2 in
  let r := StartTxn h size s in
  (0 <= r.1 ->
   0 <= up.1 /\ 0 <= lo.1 /\ r = (lo.1, (up.2, lo.2))) /\
  (up.1 < 0 -> r = (up.1, (up.2, s.2))) /\
  (0 <= up.1 -> lo.1 < 0 ->
   r = (lo.1, ((cm_AbortTxn (upper_ mgr) up.2).2, lo.2))).
Proof.
  intros Hrw up lo r. subst r. unfold StartTxn. rewrite Hrw.
  fold up. fold lo. cbn [orb].
  destruct (Z.ltb_spec up.1 0) as [Hup | Hup];
    [| destruct (Z.ltb_spec lo.1 0) as [Hlo | Hlo]];
    cbn [fst snd]; repeat split; intros; try lia; reflexivity.
Qed.

(** X5.  On a writable lower layer, a Reset or AbortTxn of the tiered
    manager that reports success has succeeded in both layers.  A Write
    that reports success has succeeded in the lower layer, and the upper
    layer's result, cut down to an [int], was not negative: the upper
    layer's Write has succeeded if its result fits an [int].  CommitTxn
    reports the upper layer's result alone, after committing in both
    layers. *)
Theorem success_means_both_layers c s :
  lower_readonly_ mgr = false ->
  let r := tiered_call c s in
  let up := upper_call c s.1 in
  match c with
  | CallReset | CallAbortTxn =>
      succeeded r.1 -> succeeded up.1 /\ succeeded (lower_result c s.2)
  | CallWrite _ _ =>
      succeeded r.1 ->
      succeeded (as_taken c up.1) /\ succeeded (lower_result c s.2) /\
      (fits_int up.1 -> succeeded up.1)
  | CallCommitTxn =>
      r = (up.1, (up.2, (cm_CommitTxn (lower_ mgr) s.2).2))
  | _ => True
  end.
Proof.
  intros Hrw. destruct s as [su sl].
  destruct c;
    cbn [tiered_call upper_call lower_result succeeded as_taken fits_int
         fmap option_fmap option_map fst snd];
    unfold Write, Reset, AbortTxn, CommitTxn; rewrite ?Hrw;
    cbn [negb orb fst snd]; try exact I; try reflexivity.
  - destruct (Z.ltb_spec (wrap_s32 (cm_Write (upper_ mgr) buf size su).1) 0)
      as [Hneg | Hpos]; cbn [fst snd]; intros Hok; [lia |].
    split; [exact Hpos |]. split; [exact Hok |].
    intros Hfit. rewrite wrap_s32_id in Hpos by exact Hfit. exact Hpos.
  - destruct (Z.ltb_spec (upper_Reset su).1 0); cbn [fst snd]; lia.
  - destruct (Z.ltb_spec (cm_AbortTxn (upper_ mgr) su).1 0); cbn [fst snd]; lia.
Qed.

End Transactions.

(** *** The methods on the in-memory backend *)

Lemma Open_closes_lower_descriptor_witness :
  exists r w',
    Open 4 mem_tiered wanted cold_world = Some (r, w') /\
    replay mem_tiered wanted (calls w')
           (upper_state cold_world, lower_state cold_world)
    = (true, (upper_state w', lower_state w')) /\
    lower_closed (calls w') = lower_opened (calls w') /\
    lower_idle_after_close (calls w') = true.
Proof.
  exact (Open_closes_lower_descriptor 4 mem_tiered (conj eq_refl eq_refl)
           wanted cold_world eq_refl).
Defined.

Lemma Open_ends_upper_transaction_witness :
  exists r w',
    Open 4 mem_tiered wanted cold_world = Some (r, w') /\
    replay mem_tiered wanted (calls w')
           (upper_state cold_world, lower_state cold_world)
    = (true, (upper_state w', lower_state w')) /\
    txn_ended (calls w') = txn_started (calls w') /\
    upper_opened_from_txn (calls w')
    = upper_closed (calls w') ++ (if committed (calls w') then [r] else []).
Proof.
  exact (Open_ends_upper_transaction 4 mem_tiered (conj eq_refl eq_refl)
           wanted cold_world eq_refl).
Defined.

(** The promoted object: one descriptor opened and closed below, one
    transaction started and committed above; the in-memory backends are
    left with no descriptor open below, no transaction pending above and
    the returned descriptor open above. *)
Example Open_promotion_resources :
  exists w',
    Open 4 mem_tiered wanted cold_world = Some (3, w') /\
    lower_opened (calls w') = [100] /\ lower_closed (calls w') = [100] /\
    txn_started (calls w') = 1%nat /\ committed (calls w') = true /\
    open_fds (lower_state w') = [] /\ txn (upper_state w') = None /\
    fst <$> open_fds (upper_state w') = [3].
Proof. eexists. vm_compute. repeat split. Qed.

(** Reset of the in-memory backend empties the pending transaction. *)
Definition mem_Reset (s : MemCache) : Z * MemCache :=
  match txn s with
  | Some (h, size, _) =>
      (0, mkMemCache (objects s) (open_fds s) (next_fd s) (Some (h, size, [])))
  | None => (- EBADF, s)
  end.

Definition mem_tiered_readonly : TieredCacheManager Z unit MemCache MemCache :=
  mkTiered mem_cache mem_cache true.

Definition empty_cache : MemCache := mkMemCache [] [] 3 None.

Definition store_object : list (TxnCall (Hash := Z) (ObjectInfo := unit)) :=
  [CallStartTxn 7 3; CallCtrlTxn tt 0; CallWrite [1; 2; 3] 3; CallCommitTxn].

Lemma readonly_lower_layer_is_never_written_witness :
  let up := upper_calls mem_tiered_readonly mem_Reset store_object empty_cache in
  let r := tiered_calls mem_tiered_readonly mem_Reset mem_Reset store_object
                        (empty_cache, empty_cache) in
  r.2 = (up.2, empty_cache) /\
  r.1 = zip_with as_taken store_object up.1 /\
  (Forall fits_int up.1 -> r.1 = up.1).
Proof.
  exact (readonly_lower_layer_is_never_written mem_tiered_readonly mem_Reset
           mem_Reset store_object (empty_cache, empty_cache) eq_refl).
Defined.

Lemma StartTxn_starts_both_or_none_witness :
  let r := StartTxn mem_tiered 7 3 (empty_cache, empty_cache) in
  0 <= r.1 /\ txn r.2.1 = Some (7, 3, []) /\ txn r.2.2 = Some (7, 3, []).
Proof.
  assert (Hok : 0 <= (StartTxn mem_tiered 7 3 (empty_cache, empty_cache)).1)
    by (simpl; lia).
  split; [exact Hok |].
  destruct (StartTxn_starts_both_or_none mem_tiered 7 3
              (empty_cache, empty_cache) eq_refl) as (Hboth & _ & _).
  destruct (Hboth Hok) as (_ & _ & ->). split; reflexivity.
Defined.

Lemma success_means_both_layers_witness :
  succeeded (tiered_call mem_tiered mem_Reset mem_Reset (CallWrite [1] 1)
               (mkMemCache [] [] 3 (Some (7, 1, [])),
                mkMemCache [] [] 3 (Some (7, 1, [])))).1 /\
  succeeded (lower_result mem_tiered mem_Reset (CallWrite [1] 1)
               (mkMemCache [] [] 3 (Some (7, 1, [])))).
Proof.
  assert (Hok : succeeded
                  (tiered_call mem_tiered mem_Reset mem_Reset (CallWrite [1] 1)
                     (mkMemCache [] [] 3 (Some (7, 1, [])),
                      mkMemCache [] [] 3 (Some (7, 1, [])))).1)
    by (simpl; lia).
  split; [exact Hok |].
  exact (proj1 (proj2 (success_means_both_layers mem_tiered mem_Reset mem_Reset
                         (CallWrite [1] 1) _ eq_refl Hok))).
Defined.

(** An upper backend whose Write fails with a result below the range of an
    [int]: cut down to an [int] the result is 0, so the tiered manager
    writes to the lower layer and reports its success. *)
Definition failing_far : CacheManager Z unit MemCache :=
  mkCacheManager Z unit MemCache
    (cm_Open mem_cache) (cm_GetSize mem_cache) (cm_Close mem_cache)
    (cm_Pread mem_cache) (cm_StartTxn mem_cache) (cm_CtrlTxn mem_cache)
    (fun _ _ s => (- 2 ^ 32, s))
    (cm_AbortTxn mem_cache) (cm_OpenFromTxn mem_cache) (cm_CommitTxn mem_cache).

Example Write_takes_far_error_for_success :
  let mgr := mkTiered failing_far mem_cache false in
  let s := (mkMemCache [] [] 3 (Some (7, 1, [])),
            mkMemCache [] [] 3 (Some (7, 1, []))) in
  (upper_call mgr mem_Reset (CallWrite [1] 1) s.1).1 = Some (- 2 ^ 32) /\
  (tiered_call mgr mem_Reset mem_Reset (CallWrite [1] 1) s).1 = Some 1.
Proof. vm_compute. split; reflexivity. Qed.

(** Storing an object through the writable tiered manager stores it in both
    layers; through the read-only one, in the upper layer only. *)
Example store_in_both_layers :
  let r := tiered_calls mem_tiered mem_Reset mem_Reset store_object
                        (empty_cache, empty_cache) in
  r.1 = [Some 0; None; Some 3; Some 0] /\
  objects r.2.1 = [(7, [1; 2; 3])] /\ objects r.2.2 = [(7, [1; 2; 3])].
Proof. vm_compute. repeat split. Qed.

Example store_in_upper_layer_only :
  let r := tiered_calls mem_tiered_readonly mem_Reset mem_Reset store_object
                        (empty_cache, empty_cache) in
  r.1 = [Some 0; None; Some 3; Some 0] /\
  objects r.2.1 = [(7, [1; 2; 3])] /\ r.2.2 = empty_cache.
Proof. vm_compute. repeat split. Qed.

End TieredTxn.

(** * Directory handles: cvmfs_readdir, the life of a handle, and SaveState
      (cvmfs.cc) *)

Module OpenDirs.

Import Handover.

(** What cvmfs_readdir answers. *)
Inductive DirReply :=
| dir_reply_err (errno : Z)
| dir_reply_buf (data : list Z).

(** The [size] bytes at [buffer + offset].  A read that leaves the buffer
    has no defined result. *)
Definition read_bytes (buffer : list Z) (offset size : Z) : option (list Z) :=
  if (0 <=? offset) && (offset + size <=? Z.of_nat (length buffer))
  then Some (take (Z.to_nat size) (drop (Z.to_nat offset) buffer))
  else None.

(** ReplyBufferSlice (lines 907-917): [buffer_size] and [max_size] are
    size_t, [offset] is an off_t that is compared with
    [static_cast<int>(buffer_size)]. *)
Definition ReplyBufferSlice (buffer : list Z) (buffer_size offset max_size : Z)
  : option DirReply :=
  if offset <? wrap_s32 buffer_size
  then dir_reply_buf <$>
         read_bytes buffer offset
                    (Z.min (wrap_u64 (buffer_size - offset)) max_size)
  else Some (dir_reply_buf []).

Section WithCollaborators.

Context {Tracker Chunks Annotation : Type}.

Implicit Types (st : State Tracker Chunks Annotation).

(** cvmfs_readdir (lines 923-945). *)
Definition cvmfs_readdir (fh size off : Z) st : option DirReply :=
  match directory_handles_ st !! fh with
  | Some listing =>
      ReplyBufferSlice (buffer listing) (Handover.size listing) off size
  | None => Some (dir_reply_err EINVAL)
  end.

(** SaveState (lines 2284-2349), without the progress messages: the states
    pushed to [saved_states] and the inode generation advanced by the
    catalog manager's [inode_gauge()].  [num_open_dirs] is an [unsigned],
    the saved counter a [uint32_t]. *)
Definition SaveState {CompatV1 CompatV2 : Type}
    (nfs_maps_ : bool) (inode_gauge : Z) st
    (saved_states : list (SavedState Tracker Chunks CompatV1 CompatV2))
  : list (SavedState Tracker Chunks CompatV1 CompatV2)
    * State Tracker Chunks Annotation :=
  let num_open_dirs := wrap_u32 (Z.of_nat (base.size (directory_handles_ st))) in
  let s1 := if negb (num_open_dirs =? 0)
            then saved_states ++ [kStateOpenDirs (directory_handles_ st)]
            else saved_states in
  let s2 := if negb nfs_maps_
            then s1 ++ [kStateGlueBufferV3 (inode_tracker_ st)]
            else s1 in
  let s3 := s2 ++ [kStateOpenFiles (chunk_tables_ st)] in
  let old := inode_generation_info_ st in
  let info := mkGenInfo (version old) (initial_revision old) (incarnation old)
                        (overflow_counter old)
                        (wrap_u64 (inode_generation old + inode_gauge)) in
  let s4 := s3 ++ [kStateInodeGeneration info] in
  let s5 := s4 ++ [kStateOpenFilesCounter (wrap_u32 (open_files_ st))] in
  (s5,
   mkState (directory_handles_ st) (next_directory_handle_ st) (open_dirs_ st)
           (inode_tracker_ st) (chunk_tables_ st) info (open_files_ st)
           (inode_annotation_ st) (num_fs_dir_open_ st)).

End WithCollaborators.

(** *** Facts *)

(** A listing as opendir builds it: [size] bytes of entries in the buffer,
    fewer than 2 GiB. *)
Definition listing_ok (l : DirectoryListing) : Prop :=
  Z.of_nat (length (buffer l)) = Handover.size l /\ Handover.size l < 2 ^ 31.

Lemma ReplyBufferSlice_spec l off size :
  listing_ok l -> 0 <= off -> 0 <= size ->
  ReplyBufferSlice (buffer l) (Handover.size l) off size
  = Some (dir_reply_buf (take (Z.to_nat size) (drop (Z.to_nat off) (buffer l)))).
Proof.
  intros [Hlen Hsmall] Hoff Hsize. unfold ReplyBufferSlice.
  assert (Hnn : 0 <= Handover.size l) by lia.
  rewrite wrap_s32_id by lia.
  destruct (Z.ltb_spec off (Handover.size l)) as [Hin | Hout].
  - rewrite wrap_u64_id by (unfold is_u64; lia).
    unfold read_bytes.
    destruct (Z.leb_spec 0 off) as [_ | ?]; [| lia].
    destruct (Z.leb_spec (off + Z.min (Handover.size l - off) size)
                         (Z.of_nat (length (buffer l)))) as [_ | ?]; [| lia].
    simpl. f_equal. f_equal.
    destruct (Z.le_ge_cases size (Handover.size l - off)) as [Hle | Hge].
    + rewrite Z.min_r by lia. reflexivity.
    + rewrite Z.min_l by lia.
      rewrite (take_ge _ (Z.to_nat size)) by (rewrite length_drop; lia).
      apply take_ge. rewrite length_drop. lia.
  - f_equal. f_equal. rewrite drop_ge by lia. rewrite take_nil. reflexivity.
Qed.

(** A listing whose buffer holds its [size] bytes, fewer than 4 GiB. *)
Definition listing_filled (l : DirectoryListing) : Prop :=
  Z.of_nat (length (buffer l)) = Handover.size l /\ Handover.size l < 2 ^ 32.

Lemma listing_ok_filled l : listing_ok l -> listing_filled l.
Proof. intros [Hlen Hsmall]. split; [exact Hlen | lia]. Qed.

(** From 2 GiB on, [static_cast<int>(buffer_size)] is negative and no
    offset is below it. *)
Lemma ReplyBufferSlice_large l off size :
  2 ^ 31 <= Handover.size l < 2 ^ 32 -> 0 <= off ->
  ReplyBufferSlice (buffer l) (Handover.size l) off size
  = Some (dir_reply_buf []).
Proof.
  intros Hlarge Hoff. unfold ReplyBufferSlice.
  assert (Hcast : wrap_s32 (Handover.size l) = Handover.size l - 2 ^ 32).
  { unfold wrap_s32.
    replace (Handover.size l + 2 ^ 31)
      with (Handover.size l - 2 ^ 31 + 1 * 2 ^ 32) by lia.
    rewrite Z.mod_add by lia. rewrite Z.mod_small by lia. lia. }
  rewrite Hcast. destruct (Z.ltb_spec off (Handover.size l - 2 ^ 32)); [lia |].
  reflexivity.
Qed.

Section OpenDirsFacts.

Context {Tracker Chunks Annotation : Type}.

Implicit Types (st : State Tracker Chunks Annotation).

(** X6.  For a listing whose buffer holds its [size] bytes, a non-negative
    offset and a non-negative size: if the listing is shorter than 2 GiB,
    cvmfs_readdir answers with the bytes [off, off + size) of the listing
    stored under the handle, cut off at the end of the listing (so with an
    empty buffer at or beyond the end); if the listing has 2 GiB or more
    (and less than 4 GiB), it answers with an empty buffer at every offset.
    A handle that is not in the table is answered with EINVAL. *)
Theorem cvmfs_readdir_slices st fh size off :
  0 <= off -> 0 <= size ->
  (forall l, directory_handles_ st !! fh = Some l -> listing_filled l) ->
  cvmfs_readdir fh size off st
  = Some match directory_handles_ st !! fh with
         | Some l =>
             dir_reply_buf
               (if Handover.size l <? 2 ^ 31
                then take (Z.to_nat size) (drop (Z.to_nat off) (buffer l))
                else [])
         | None => dir_reply_err EINVAL
         end.
Proof.
  intros Hoff Hsize Hok. unfold cvmfs_readdir.
  destruct (directory_handles_ st !! fh) as [l |] eqn:E; [| reflexivity].
  destruct (Hok l eq_refl) as [Hlen Hsmall].
  destruct (Z.ltb_spec (Handover.size l) (2 ^ 31)) as [Hlt | Hge].
  - apply ReplyBufferSlice_spec; [split; assumption | assumption | assumption].
  - apply ReplyBufferSlice_large; [lia | assumption].
Qed.

(** X7.  The life of a directory handle, for a listing shorter than 2 GiB
    whose buffer holds its [size] bytes: the handle that opendir returns
    serves the listing it was opened with; releasedir of it succeeds, puts
    the table and the open-directory counter back to what they were before
    the opendir (the counter being an [int]), and afterwards readdir and a
    second releasedir of the handle answer EINVAL. *)
Theorem opendir_handle_lifecycle st l size off :
  listing_ok l -> 0 <= off -> 0 <= size ->
  directory_handles_ st !! next_directory_handle_ st = None ->
  is_s32 (open_dirs_ st) ->
  let fh := next_directory_handle_ st in
  let opened := cvmfs_opendir (inr l) st in
  let released := cvmfs_releasedir fh opened.2 in
  opened.1 = reply_open fh /\
  cvmfs_readdir fh size off opened.2
  = Some (dir_reply_buf (take (Z.to_nat size) (drop (Z.to_nat off) (buffer l)))) /\
  released.1 = reply_err 0 /\
  directory_handles_ released.2 = directory_handles_ st /\
  open_dirs_ released.2 = open_dirs_ st /\
  cvmfs_readdir fh size off released.2 = Some (dir_reply_err EINVAL) /\
  (cvmfs_releasedir fh released.2).1 = reply_err EINVAL.
Proof.
  intros Hl Hoff Hsize Hfree Hdirs fh opened released.
  assert (Hstored : directory_handles_ opened.2 !! fh = Some l)
    by (simpl; apply lookup_insert_eq).
  assert (Hrel : released
                 = (reply_err 0,
                    mkState (delete fh (directory_handles_ opened.2))
                            (next_directory_handle_ opened.2)
                            (wrap_s32 (open_dirs_ opened.2 - 1))
                            (inode_tracker_ opened.2) (chunk_tables_ opened.2)
                            (inode_generation_info_ opened.2)
                            (open_files_ opened.2) (inode_annotation_ opened.2)
                            (num_fs_dir_open_ opened.2))).
  { unfold released, cvmfs_releasedir. rewrite Hstored. reflexivity. }
  assert (Htable : directory_handles_ released.2 = directory_handles_ st).
  { rewrite Hrel. simpl. rewrite delete_insert_eq. apply delete_id. exact Hfree. }
  assert (Hgone : directory_handles_ released.2 !! fh = None).
  { rewrite Htable. exact Hfree. }
  split; [reflexivity |]. split.
  { unfold cvmfs_readdir. rewrite Hstored.
    apply ReplyBufferSlice_spec; assumption. }
  split; [rewrite Hrel; reflexivity |]. split; [exact Htable |]. split.
  { rewrite Hrel. simpl.
    replace (wrap_s32 (open_dirs_ st + 1) - 1)
      with (wrap_s32 (open_dirs_ st + 1) - 1) by reflexivity.
    rewrite wrap_s32_inc_dec. apply wrap_s32_id. exact Hdirs. }
  split.
  { unfold cvmfs_readdir. rewrite Hgone. reflexivity. }
  unfold cvmfs_releasedir. rewrite Hgone. reflexivity.
Qed.

(** The open-directory counter agrees with the table, and the handles in
    the table are below the next handle. *)
Definition handles_counted st : Prop :=
  open_dirs_ st = Z.of_nat (base.size (directory_handles_ st)) /\
  forall k, is_Some (directory_handles_ st !! k) -> k < next_directory_handle_ st.

Lemma serve_keeps_handles_counted c st :
  handles_counted st ->
  0 <= next_directory_handle_ st < 2 ^ 64 - 1 ->
  open_dirs_ st < 2 ^ 31 - 1 ->
  let st' := (serve c st).2 in
  handles_counted st' /\
  next_directory_handle_ st <= next_directory_handle_ st'
                            <= next_directory_handle_ st + 1 /\
  open_dirs_ st' <= open_dirs_ st + 1.
Proof.
  intros [Hcount Hbelow] Hnext Hdirs.
  destruct c as [[errno | listing] | fh]; simpl.
  - repeat split; [exact Hcount | exact Hbelow | lia | lia | lia].
  - assert (Hfree : directory_handles_ st !! next_directory_handle_ st = None).
    { destruct (directory_handles_ st !! next_directory_handle_ st) eqn:E;
        [| reflexivity].
      assert (next_directory_handle_ st < next_directory_handle_ st)
        by (apply Hbelow; eauto). lia. }
    rewrite wrap_u64_id by (unfold is_u64; lia).
    rewrite wrap_s32_id by lia.
    repeat split; simpl; try lia.
    + rewrite map_size_insert_None by exact Hfree. lia.
    + intros k Hk. apply lookup_insert_is_Some in Hk as [<- | [_ Hk]]; [lia |].
      specialize (Hbelow k Hk). lia.
  - unfold cvmfs_releasedir.
    destruct (directory_handles_ st !! fh) as [l |] eqn:E; simpl.
    + assert (Hpos : (0 < base.size (directory_handles_ st))%nat).
      { destruct (base.size (directory_handles_ st)) eqn:Es; [| lia].
        apply map_size_empty_inv in Es. rewrite Es, lookup_empty in E.
        discriminate. }
      rewrite wrap_s32_id by lia.
      repeat split; simpl; try lia.
      * rewrite map_size_delete_Some by eauto. lia.
      * intros k Hk. apply lookup_delete_is_Some in Hk as [_ Hk].
        apply Hbelow. exact Hk.
    + repeat split; [exact Hcount | exact Hbelow | lia | lia | lia].
Qed.

(** X8.  The open-directory counter counts the live directory handles:
    once [open_dirs_] equals the size of the handle table, it does so after
    every sequence of opendir and releasedir calls (while neither the handle
    counter nor [open_dirs_] overflows). *)
Theorem open_dirs_counts_handles calls : forall st,
  handles_counted st ->
  0 <= next_directory_handle_ st ->
  next_directory_handle_ st + Z.of_nat (length calls) < 2 ^ 64 ->
  open_dirs_ st + Z.of_nat (length calls) < 2 ^ 31 ->
  open_dirs_ (serve_all calls st).2
  = Z.of_nat (base.size (directory_handles_ (serve_all calls st).2)).
Proof.
  induction calls as [| c rest IH]; intros st Hinv Hnext Hlen Hdirs.
  - exact (proj1 Hinv).
  - cbn [serve_all snd]. cbn [length] in Hlen, Hdirs.
    rewrite Nat2Z.inj_succ in Hlen, Hdirs.
    destruct (serve_keeps_handles_counted c st Hinv) as (Hinv' & Hn & Hd);
      [lia | lia |].
    apply IH; [exact Hinv' | lia | lia | lia].
Qed.

End OpenDirsFacts.

Section SaveRestore.

Context {Tracker Chunks CompatV1 CompatV2 Annotation : Type}.
Variable MigrateV1 : CompatV1 -> Tracker -> Tracker.
Variable MigrateV2 : CompatV2 -> Tracker -> Tracker.
Variable IncGeneration : Z -> Annotation -> Annotation.

Implicit Types (st fresh : State Tracker Chunks Annotation).

Lemma wrap_s32_u32 x : is_s32 x -> wrap_s32 (wrap_u32 x) = x.
Proof.
  unfold is_s32, wrap_s32, wrap_u32. intros Hx.
  rewrite Zplus_mod_idemp_l.
  rewrite Z.mod_small by lia. lia.
Qed.

(** X9.  What SaveState saves, RestoreState puts back into a newly
    initialised process (one with no open directories): the directory
    handles, the chunk tables, the open-files counter and, unless NFS maps
    are used, the inode tracker are those of the saving process, and the
    inode generation info is the saved one with the inode generation
    advanced by the catalog manager's inode gauge and the incarnation
    advanced by one. *)
Theorem RestoreState_restores_SaveState nfs_maps_ inode_gauge st fresh :
  directory_handles_ fresh = ∅ ->
  Z.of_nat (base.size (directory_handles_ st)) < 2 ^ 32 ->
  is_s32 (open_files_ st) ->
  version (inode_generation_info_ st) <> 1 ->
  let saved_states :=
    (SaveState (CompatV1 := CompatV1) (CompatV2 := CompatV2)
               nfs_maps_ inode_gauge st []).1 in
  let st' := RestoreState MigrateV1 MigrateV2 IncGeneration saved_states fresh in
  directory_handles_ st' = directory_handles_ st /\
  chunk_tables_ st' = chunk_tables_ st /\
  open_files_ st' = open_files_ st /\
  inode_tracker_ st'
  = (if nfs_maps_ then inode_tracker_ fresh else inode_tracker_ st) /\
  inode_generation_info_ st'
  = mkGenInfo (version (inode_generation_info_ st))
              (initial_revision (inode_generation_info_ st))
              (wrap_u32 (incarnation (inode_generation_info_ st) + 1))
              (overflow_counter (inode_generation_info_ st))
              (wrap_u64 (inode_generation (inode_generation_info_ st)
                         + inode_gauge)).
Proof.
  intros Hfresh Hsize Hfiles Hversion saved_states st'.
  subst st' saved_states. unfold RestoreState, SaveState.
  apply Z.eqb_neq in Hversion.
  rewrite (wrap_u32_id (Z.of_nat _)) by (unfold is_u32; lia).
  destruct (Z.eqb_spec (Z.of_nat (base.size (directory_handles_ st))) 0)
    as [Hempty | Hsome];
    destruct nfs_maps_; cbn [negb app foldl fst restore_one];
    cbn [version directory_handles_ next_directory_handle_ open_dirs_
         inode_tracker_ chunk_tables_ inode_generation_info_ open_files_
         inode_annotation_ num_fs_dir_open_ initial_revision incarnation
         overflow_counter inode_generation];
    rewrite Hversion;
    destruct (inode_annotation_ fresh);
    cbn [version directory_handles_ next_directory_handle_ open_dirs_
         inode_tracker_ chunk_tables_ inode_generation_info_ open_files_
         inode_annotation_ num_fs_dir_open_ initial_revision incarnation
         overflow_counter inode_generation];
    rewrite (wrap_s32_u32 _ Hfiles);
    repeat split;
    try (rewrite Hfresh; symmetry; apply map_size_empty_inv; lia).
Qed.

End SaveRestore.

(** *** A process with one open directory *)

Definition two_entries : DirectoryListing := mkListing [46; 0; 47; 1] 4 512.

Lemma two_entries_ok : listing_ok two_entries.
Proof. split; [reflexivity | simpl; lia]. Qed.

Definition started : State unit unit unit :=
  mkState ∅ 0 0 tt tt (mkGenInfo 2 0 0 0 0) 0 None 0.

Definition one_open : State unit unit unit :=
  mkState (<[3 := two_entries]> ∅) 4 1 tt tt (mkGenInfo 2 17 1 0 100) 5 None 4.

Lemma cvmfs_readdir_slices_witness :
  cvmfs_readdir 3 2 1 one_open = Some (dir_reply_buf [0; 47]) /\
  cvmfs_readdir 3 2 4 one_open = Some (dir_reply_buf []) /\
  cvmfs_readdir 5 2 0 one_open = Some (dir_reply_err EINVAL).
Proof.
  assert (Hok : forall fh l,
             directory_handles_ one_open !! fh = Some l -> listing_filled l).
  { intros fh l Hl. simpl in Hl.
    apply lookup_insert_Some in Hl as [[_ <-] | [_ Hl]];
      [exact (listing_ok_filled _ two_entries_ok)
      | rewrite lookup_empty in Hl; discriminate]. }
  rewrite !cvmfs_readdir_slices by (try lia; apply Hok).
  repeat split.
Defined.

Lemma opendir_handle_lifecycle_witness :
  let opened := cvmfs_opendir (inr two_entries) started in
  let released := cvmfs_releasedir 0 opened.2 in
  opened.1 = reply_open 0 /\
  cvmfs_readdir 0 3 1 opened.2 = Some (dir_reply_buf [0; 47; 1]) /\
  released.1 = reply_err 0 /\
  directory_handles_ released.2 = ∅ /\
  open_dirs_ released.2 = 0 /\
  cvmfs_readdir 0 3 1 released.2 = Some (dir_reply_err EINVAL) /\
  (cvmfs_releasedir 0 released.2).1 = reply_err EINVAL.
Proof.
  apply (opendir_handle_lifecycle started two_entries 3 1 two_entries_ok).
  - lia.
  - lia.
  - reflexivity.
  - unfold is_s32. simpl. lia.
Defined.

Definition open_open_release : list DirCall :=
  [CallOpendir (inr two_entries); CallOpendir (inr two_entries);
   CallReleasedir 0; CallReleasedir 0].

Lemma open_dirs_counts_handles_witness :
  open_dirs_ (serve_all open_open_release started).2
  = Z.of_nat (base.size (directory_handles_ (serve_all open_open_release started).2)).
Proof.
  apply open_dirs_counts_handles.
  - split; [reflexivity |]. intros k [l Hl]. simpl in Hl.
    rewrite lookup_empty in Hl. discriminate.
  - simpl. lia.
  - simpl. lia.
  - simpl. lia.
Defined.

Example open_open_release_leaves_one :
  open_dirs_ (serve_all open_open_release started).2 = 1.
Proof. vm_compute. reflexivity. Qed.

Lemma RestoreState_restores_SaveState_witness :
  let saved_states :=
    (SaveState (CompatV1 := unit) (CompatV2 := unit) false 40 one_open []).1 in
  let st' := RestoreState (fun _ t => t) (fun _ t => t) (fun _ a => a)
                          saved_states started in
  directory_handles_ st' = <[3 := two_entries]> ∅ /\
  chunk_tables_ st' = tt /\
  open_files_ st' = 5 /\
  inode_tracker_ st' = tt /\
  inode_generation_info_ st' = mkGenInfo 2 17 2 0 140.
Proof.
  apply (RestoreState_restores_SaveState (fun _ t => t) (fun _ t => t)
           (fun _ a => a) false 40 one_open started).
  - reflexivity.
  - vm_compute. reflexivity.
  - unfold is_s32. simpl. lia.
  - simpl. lia.
Defined.

End OpenDirs.

(** * The catalog (catalog.cc): hard link groups and lookup by inode *)

Module CatalogInodes.

Import Catalog.

(** What a call leaves in an optional out-parameter: nothing if the caller
    passed NULL or the call did not write it, a value read from a statement
    that has no row, or a value. *)
Inductive Written (A : Type) :=
| Untouched
| Unspecified
| Value (a : A).

Arguments Untouched {A}.
Arguments Unspecified {A}.
Arguments Value {A} a.

Section WithInodeRange.

Variable IsDummy : InodeRange -> bool.
Variable kInvalidInode : Z.

(** Modelled from the spec: the prepared statement is in catalog_sql.cc; it
    selects the row with the bound rowid. *)
Definition sql_lookup_inode (t : list Row) (row_id : Z) : option Row :=
  List.find (fun r => rowid r =? row_id) t.

(** Catalog::LookupInode (lines 194-215).  [want_dirent] and [want_parent]
    are [dirent != NULL] and [parent_md5path != NULL].  Returns [found], the
    two out-parameters and the hard link cache. *)
Definition LookupInode (c : Catalog) (inode : Z) (want_dirent want_parent : bool)
  : Outcome (bool * Written DirectoryEntry * Written Md5 * gmap Z Z) :=
  if negb (IsInitialized c) then AssertionFailed
  else
    let row := sql_lookup_inode (table c) (GetRowIdFromInode c inode) in
    let found := match row with Some _ => true | None => false end in
    let parent_hash :=
      if want_parent
      then match row with
           | Some r => Value (parent_md5path r)
           | None => Unspecified
           end
      else Untouched in
    match row with
    | Some r =>
        if want_dirent then
          match GetDirent IsDummy kInvalidInode c r with
          | AssertionFailed => AssertionFailed
          | Done (dirent, groups') =>
              Done (found, Value dirent, parent_hash, groups')
          end
        else Done (found, Untouched, parent_hash, hardlink_groups_ c)
    | None => Done (found, Untouched, parent_hash, hardlink_groups_ c)
    end.

End WithInodeRange.

(** *** Facts *)

Lemma find_by_rowid t : forall r,
  NoDup (rowid <$> t) -> r ∈ t ->
  List.find (fun r' => rowid r' =? rowid r) t = Some r.
Proof.
  induction t as [| r0 t IH]; intros r Hnodup Hin.
  - inversion Hin.
  - simpl in Hnodup. apply NoDup_cons in Hnodup as [Hfresh Hnodup].
    apply elem_of_cons in Hin as [-> | Hin]; simpl.
    + rewrite Z.eqb_refl. reflexivity.
    + destruct (Z.eqb_spec (rowid r0) (rowid r)) as [Heq | _].
      * exfalso. apply Hfresh. rewrite Heq.
        apply list_elem_of_fmap. exists r. split; [reflexivity | exact Hin].
      * apply IH; assumption.
Qed.

Section InodeFacts.

Variable IsDummy : InodeRange -> bool.
Variable kInvalidInode : Z.

(** X10.  An entry outside any hard link group can be looked up again by
    the inode it was given: in an initialised catalog with a real inode
    range and row ids that are unique, LookupInode on the inode of the entry
    read from a row finds that row, returns the same entry and the hash of
    the row's parent path, and leaves the hard link cache alone. *)
Theorem LookupInode_finds_entry_by_its_inode c r :
  IsInitialized c = true ->
  IsDummy (inode_range_ c) = false ->
  (forall a, inode_annotation_ c = Some a -> annotation_lawful a) ->
  NoDup (rowid <$> table c) ->
  r ∈ table c -> is_u64 (rowid r) -> row_hardlink_group r <= 0 ->
  exists d,
    GetDirent IsDummy kInvalidInode c r = Done (d, hardlink_groups_ c) /\
    LookupInode IsDummy kInvalidInode c (inode d) true true
    = Done (true, Value d, Value (parent_md5path r), hardlink_groups_ c).
Proof.
  intros Hinit Hdummy Hlaw Hnodup Hin Hrow Hgroup.
  assert (Hget : GetMangledInode IsDummy kInvalidInode c (rowid r)
                                 (row_hardlink_group r)
                 = Done (annotated c (wrap_u64 (rowid r + offset (inode_range_ c))),
                         hardlink_groups_ c)).
  { unfold GetMangledInode, annotated. rewrite Hinit, Hdummy. simpl.
    destruct (Z.gtb_spec (row_hardlink_group r) 0) as [? | _]; [lia |].
    destruct (inode_annotation_ c); reflexivity. }
  eexists. split.
  { unfold GetDirent. rewrite Hget. reflexivity. }
  unfold LookupInode. rewrite Hinit. simpl.
  assert (Hback : GetRowIdFromInode c
                    (annotated c (wrap_u64 (rowid r + offset (inode_range_ c))))
                  = rowid r).
  { unfold GetRowIdFromInode, annotated.
    destruct (inode_annotation_ c) as [a |] eqn:Ea.
    - rewrite (Hlaw a eq_refl) by apply wrap_u64_range.
      apply unmangle_offset. exact Hrow.
    - apply unmangle_offset. exact Hrow. }
  rewrite !Hback.
  unfold sql_lookup_inode. rewrite (find_by_rowid _ r Hnodup Hin).
  unfold GetDirent. rewrite Hget. reflexivity.
Qed.

(** What GetDirent does with the hard link cache: it keeps what is cached,
    and an entry of a hard link group carries the inode cached for the
    group when the call returns. *)
Lemma GetDirent_hardlink cur r dirent groups' :
  GetDirent IsDummy kInvalidInode cur r = Done (dirent, groups') ->
  hardlink_group_ dirent = row_hardlink_group r /\
  (forall g raw, hardlink_groups_ cur !! g = Some raw -> groups' !! g = Some raw) /\
  (0 < hardlink_group_ dirent ->
   if IsDummy (inode_range_ cur) then inode dirent = kInvalidInode
   else exists raw,
       groups' !! hardlink_group_ dirent = Some raw /\
       inode dirent = annotated cur raw).
Proof.
  unfold GetDirent, GetMangledInode.
  destruct (negb (IsInitialized cur)); [discriminate |].
  destruct (IsDummy (inode_range_ cur)).
  { intros [= <- <-]. repeat split; auto. }
  destruct (Z.gtb_spec (row_hardlink_group r) 0) as [Hpos | Hnone].
  - destruct (hardlink_groups_ cur !! row_hardlink_group r) as [cached |] eqn:E;
      intros [= <- <-]; cbn [hardlink_group_ inode inode_ fst snd].
    + split; [reflexivity |]. split; [auto |]. intros _.
      exists cached. split; [exact E | reflexivity].
    + split; [reflexivity |]. split.
      * intros g raw Hg. rewrite lookup_insert_ne; [exact Hg |].
        intros <-. rewrite E in Hg. discriminate.
      * intros _. eexists. split; [apply lookup_insert_eq | reflexivity].
  - intros [= <- <-]. cbn [hardlink_group_]. split; [reflexivity |].
    split; [auto |]. intros ?. lia.
Qed.

Lemma FixTransitionPoint_keeps looked_up dirent dirent' parent' :
  FixTransitionPoint looked_up dirent = Done (dirent', parent') ->
  hardlink_group_ dirent' = hardlink_group_ dirent /\
  IsNestedCatalogRoot dirent' = IsNestedCatalogRoot dirent /\
  (IsNestedCatalogRoot dirent = false -> dirent' = dirent).
Proof.
  unfold FixTransitionPoint.
  destruct looked_up as [res |].
  - destruct (IsNestedCatalogRoot dirent) eqn:Eroot.
    + destruct res as [[[[] [pd |]] p'] |]; try discriminate.
      intros [= <- <-]. repeat split; [exact Eroot | discriminate].
    + intros [= <- <-]. repeat split. exact Eroot.
  - intros [= <- <-]. repeat split.
Qed.

(** The entries listed so far agree with the hard link cache of the catalog
    as the loop has left it. *)
Definition listed_from_cache (c0 : Catalog) (listing : list DirectoryEntry)
    (cur : Catalog) : Prop :=
  inode_range_ cur = inode_range_ c0 /\
  inode_annotation_ cur = inode_annotation_ c0 /\
  forall d, d ∈ listing -> IsNestedCatalogRoot d = false ->
            0 < hardlink_group_ d ->
    if IsDummy (inode_range_ c0) then inode d = kInvalidInode
    else exists raw,
        hardlink_groups_ cur !! hardlink_group_ d = Some raw /\
        inode d = annotated c0 raw.

Lemma listing_step_listed_from_cache c0 md5path listing cur r listing' cur' :
  listed_from_cache c0 listing cur ->
  listing_step IsDummy kInvalidInode md5path (Done (listing, cur)) r
  = Done (listing', cur') ->
  listed_from_cache c0 listing' cur'.
Proof.
  intros (Hrange & Hannot & Hlisted). unfold listing_step.
  destruct (GetDirent IsDummy kInvalidInode cur r) as [[dirent groups'] |] eqn:Eget;
    [| discriminate].
  destruct (FixTransitionPoint _ dirent) as [[dirent' parent'] |] eqn:Efix;
    [| discriminate].
  intros [= <- <-].
  destruct (GetDirent_hardlink _ _ _ _ Eget) as (_ & Hkept & Hnew).
  destruct (FixTransitionPoint_keeps _ _ _ _ Efix) as (_ & Hbit & Hsame).
  split; [exact Hrange |]. split; [exact Hannot |].
  intros d Hin Hroot Hgroup. cbn [hardlink_groups_].
  apply elem_of_app in Hin as [Hin | Hin].
  - specialize (Hlisted d Hin Hroot Hgroup).
    destruct (IsDummy (inode_range_ c0)); [exact Hlisted |].
    destruct Hlisted as (raw & Hraw & Hinode).
    exists raw. split; [apply Hkept; exact Hraw | exact Hinode].
  - apply list_elem_of_singleton in Hin as ->.
    rewrite Hbit in Hroot. rewrite (Hsame Hroot) in *.
    specialize (Hnew Hgroup). rewrite Hrange in Hnew.
    destruct (IsDummy (inode_range_ c0)); [exact Hnew |].
    destruct Hnew as (raw & Hraw & Hinode).
    exists raw. split; [exact Hraw |].
    rewrite Hinode. unfold annotated. rewrite Hannot. reflexivity.
Qed.

Lemma listing_loop_failed md5path rows :
  foldl (listing_step IsDummy kInvalidInode md5path) AssertionFailed rows
  = AssertionFailed.
Proof. induction rows as [| r rows IH]; [reflexivity | exact IH]. Qed.

Lemma listing_loop_listed_from_cache c0 md5path rows : forall listing cur listing' cur',
  listed_from_cache c0 listing cur ->
  foldl (listing_step IsDummy kInvalidInode md5path) (Done (listing, cur)) rows
  = Done (listing', cur') ->
  listed_from_cache c0 listing' cur'.
Proof.
  induction rows as [| r rows IH]; intros listing cur listing' cur' Hinv.
  - intros [= <- <-]. exact Hinv.
  - cbn [foldl].
    destruct (listing_step IsDummy kInvalidInode md5path (Done (listing, cur)) r)
      as [[l1 c1] |] eqn:Estep.
    + apply IH. eapply listing_step_listed_from_cache; eassumption.
    + rewrite listing_loop_failed. discriminate.
Qed.

(** X11.  The entries of a directory listing that belong to the same hard
    link group carry the same inode (nested catalog roots, whose inode comes
    from the parent catalog, aside). *)
Theorem hardlink_group_shares_inode c md5path listing c' d1 d2 :
  ListingMd5Path IsDummy kInvalidInode c md5path = Done (listing, c') ->
  d1 ∈ listing -> d2 ∈ listing ->
  IsNestedCatalogRoot d1 = false -> IsNestedCatalogRoot d2 = false ->
  0 < hardlink_group_ d1 -> hardlink_group_ d1 = hardlink_group_ d2 ->
  inode d1 = inode d2.
Proof.
  unfold ListingMd5Path. destruct (negb (IsInitialized c)); [discriminate |].
  intros Hloop Hin1 Hin2 Hroot1 Hroot2 Hgroup Hsame.
  assert (Hstart : listed_from_cache c [] c).
  { split; [reflexivity |]. split; [reflexivity |].
    intros d Hin. inversion Hin. }
  destruct (listing_loop_listed_from_cache c md5path _ _ _ _ _ Hstart Hloop)
    as (_ & _ & Hlisted).
  pose proof (Hlisted d1 Hin1 Hroot1 Hgroup) as H1.
  pose proof (Hlisted d2 Hin2 Hroot2 ltac:(lia)) as H2.
  destruct (IsDummy (inode_range_ c)); [congruence |].
  destruct H1 as (raw1 & Hraw1 & ->). destruct H2 as (raw2 & Hraw2 & ->).
  rewrite Hsame in Hraw1. congruence.
Qed.

End InodeFacts.

(** *** A catalog with two hard links *)

(** "", and the files "/x" and "/y" in hard link group 5. *)
Definition linked_catalog : Catalog :=
  mkCatalog
    [ mkRow 1 md5_root (0, 0) 0 "" dir_mode 4096 1000 false false;
      mkRow 2 (40, 1) md5_root 5 "x" file_mode 12 1000 false false;
      mkRow 3 (41, 1) md5_root 5 "y" file_mode 12 1000 false false;
      mkRow 4 (42, 1) md5_root 0 "z" file_mode 7 1000 false false ]
    true (mkRange 255 4) (Some (InodeGenerationAnnotation 4096)) ∅ None.

Example listing_with_hardlinks :
  ListingMd5Path IsDummy 0 linked_catalog md5_root
  = Done ([ mkDirent 4353 "x" file_mode 12 1000 5 false false;
            mkDirent 4353 "y" file_mode 12 1000 5 false false;
            mkDirent 4355 "z" file_mode 7 1000 0 false false ],
          mkCatalog (table linked_catalog) true (mkRange 255 4)
                    (Some (InodeGenerationAnnotation 4096)) (<[5 := 257]> ∅) None).
Proof. vm_compute. reflexivity. Qed.

Lemma hardlink_group_shares_inode_witness :
  exists listing c' d1 d2,
    ListingMd5Path IsDummy 0 linked_catalog md5_root = Done (listing, c') /\
    name_ d1 = "x"%string /\ name_ d2 = "y"%string /\ inode d1 = inode d2.
Proof.
  eexists _, _, (mkDirent 4353 "x" file_mode 12 1000 5 false false),
    (mkDirent 4353 "y" file_mode 12 1000 5 false false).
  split; [exact listing_with_hardlinks |].
  split; [reflexivity |]. split; [reflexivity |].
  apply (hardlink_group_shares_inode IsDummy 0 linked_catalog md5_root _ _ _ _
           listing_with_hardlinks).
  - apply list_elem_of_here.
  - apply list_elem_of_further, list_elem_of_here.
  - reflexivity.
  - reflexivity.
  - simpl. lia.
  - reflexivity.
Defined.

Lemma LookupInode_finds_entry_by_its_inode_witness :
  exists d,
    GetDirent IsDummy 0 linked_catalog
              (mkRow 4 (42, 1) md5_root 0 "z" file_mode 7 1000 false false)
    = Done (d, ∅) /\
    LookupInode IsDummy 0 linked_catalog (inode d) true true
    = Done (true, Value d, Value md5_root, ∅).
Proof.
  apply (LookupInode_finds_entry_by_its_inode IsDummy 0 linked_catalog
           (mkRow 4 (42, 1) md5_root 0 "z" file_mode 7 1000 false false)).
  - reflexivity.
  - reflexivity.
  - intros a [= <-]. apply InodeGenerationAnnotation_lawful.
  - apply (bool_decide_unpack _). vm_compute. exact I.
  - do 3 apply list_elem_of_further. apply list_elem_of_here.
  - unfold is_u64. simpl. lia.
  - simpl. lia.
Defined.

(** Looking up the inode of a hard link finds the first row of the group. *)
Example LookupInode_of_hardlink :
  LookupInode IsDummy 0 linked_catalog 4353 true false
  = Done (true, Value (mkDirent 4353 "x" file_mode 12 1000 5 false false),
          Untouched, <[5 := 257]> ∅).
Proof. vm_compute. reflexivity. Qed.

(** An inode whose row id is not in the table is not found. *)
Example LookupInode_unknown :
  LookupInode IsDummy 0 linked_catalog 4360 true true
  = Done (false, Untouched, Unspecified, ∅).
Proof. vm_compute. reflexivity. Qed.

End CatalogInodes.

(** * The tree of loaded catalogs (catalog.cc): FindChild, FindSubtree,
      AddChild, RemoveChild *)

Module CatalogTree.

(** Modelled from the spec: PathString (shortstring.h) is not among the
    sources; the specification treats paths as character strings.  A path
    is the sequence of its characters, [StartsWith] is the prefix test,
    [Suffix] the tail from a position on (empty beyond the end), and
    [Append] is concatenation. *)
Definition PathString : Type := list ascii.

Definition StartsWith (s other : PathString) : bool :=
  (length other <=? length s)%nat
  && bool_decide (take (length other) s = other).

Definition Suffix (s : PathString) (start_at : nat) : PathString :=
  drop start_at s.

Definition slash : ascii := "/"%char.

(** A catalog as a node of the tree: its mountpoint [path_], the back
    pointer [parent_] and the map [children_] from mountpoints to the
    catalogs attached below; pointers are addresses into a store. *)
Record Node := mkNode {
  path_ : PathString;
  parent_ : option Z;
  children_ : gmap PathString Z
}.

(** Catalog::FindChild (lines 592-602). *)
Definition FindChild (n : Node) (mountpoint : PathString) : option Z :=
  children_ n !! mountpoint.

(** The loop of FindSubtree (lines 572-582) over the characters that [c]
    runs through, with [path_prefix] as it stands. *)
Fixpoint scan (n : Node) (rest : list ascii) (path_prefix : PathString)
  : option Z :=
  match rest with
  | [] => None
  | c :: rest' =>
      match (if Ascii.eqb c slash then FindChild n path_prefix else None) with
      | Some result => Some result
      | None => scan n rest' (path_prefix ++ [c])
      end
  end.

(** Catalog::FindSubtree (lines 557-585). *)
Definition FindSubtree (n : Node) (path : PathString) : option Z :=
  if negb (StartsWith path (path_ n)) then None
  else
    let remaining := Suffix path (length (path_ n)) ++ [slash] in
    scan n (drop 1 remaining) (path_ n ++ [slash]).

Definition set_parent (n : Node) (p : option Z) : Node :=
  mkNode (path_ n) p (children_ n).

Definition set_children (n : Node) (children : gmap PathString Z) : Node :=
  mkNode (path_ n) (parent_ n) children.

(** Catalog::AddChild (lines 511-518) on the catalogs at the addresses
    [this] and [child] of the store [h] of catalogs in memory.  [None]: an
    address holds no catalog. *)
Definition AddChild (this child : Z) (h : gmap Z Node) : option (Outcome (gmap Z Node)) :=
  n ← h !! this;
  c ← h !! child;
  match FindChild n (path_ c) with
  | Some _ => Some AssertionFailed
  | None =>
      let h1 := <[this := set_children n (<[path_ c := child]> (children_ n))]> h in
      c1 ← h1 !! child;
      Some (Done (<[child := set_parent c1 (Some this)]> h1))
  end.

(** Catalog::RemoveChild (lines 525-532). *)
Definition RemoveChild (this child : Z) (h : gmap Z Node) : option (Outcome (gmap Z Node)) :=
  n ← h !! this;
  c ← h !! child;
  match FindChild n (path_ c) with
  | None => Some AssertionFailed
  | Some _ =>
      let h1 := <[child := set_parent c None]> h in
      n1 ← h1 !! this;
      Some (Done (<[this := set_children n1 (delete (path_ c) (children_ n1))]> h1))
  end.

(** *** Facts *)

Lemma StartsWith_app p s : StartsWith (p ++ s) p = true.
Proof.
  unfold StartsWith. apply andb_true_iff. split.
  - apply Nat.leb_le. rewrite length_app. lia.
  - apply bool_decide_eq_true. apply take_app_length.
Qed.

Lemma app_cons_snoc (l1 : list ascii) c l2 : l1 ++ c :: l2 = (l1 ++ [c]) ++ l2.
Proof. rewrite <- app_assoc. reflexivity. Qed.

Lemma scan_spec n rest : forall path_prefix,
  match scan n rest path_prefix with
  | Some ch =>
      exists j : nat,
        rest !! j = Some slash /\
        children_ n !! (path_prefix ++ take j rest) = Some ch /\
        forall j' : nat, (j' < j)%nat -> rest !! j' = Some slash ->
                         children_ n !! (path_prefix ++ take j' rest) = None
  | None =>
      forall j : nat, rest !! j = Some slash ->
                      children_ n !! (path_prefix ++ take j rest) = None
  end.
Proof.
  induction rest as [| c rest IH]; intros pp; cbn [scan].
  - intros j Hj. rewrite lookup_nil in Hj. discriminate.
  - assert (Hhere : (if Ascii.eqb c slash then FindChild n pp else None) = None ->
                    forall j, (c :: rest) !! j = Some slash -> j = 0%nat ->
                              children_ n !! (pp ++ take j (c :: rest)) = None).
    { intros Hnone j Hj ->. simpl in Hj. injection Hj as ->.
      rewrite take_0, app_nil_r. rewrite Ascii.eqb_refl in Hnone. exact Hnone. }
    destruct (if Ascii.eqb c slash then FindChild n pp else None) as [ch |] eqn:Etest.
    + exists 0%nat. destruct (Ascii.eqb_spec c slash) as [-> | _]; [| discriminate].
      split; [reflexivity |]. split.
      * rewrite take_0, app_nil_r. exact Etest.
      * intros j' Hj'. lia.
    + specialize (IH (pp ++ [c])).
      destruct (scan n rest (pp ++ [c])) as [ch |].
      * destruct IH as (j & Hj & Hch & Hmin).
        exists (S j). split; [exact Hj |]. split.
        -- cbn [take]. rewrite app_cons_snoc. exact Hch.
        -- intros [| j'] Hlt Hj'.
           ++ apply Hhere; [reflexivity | exact Hj' | reflexivity].
           ++ cbn [take]. rewrite app_cons_snoc.
              apply Hmin; [lia | exact Hj'].
      * intros [| j] Hj.
        -- apply Hhere; [reflexivity | exact Hj | reflexivity].
        -- cbn [take]. rewrite app_cons_snoc. apply IH. exact Hj.
Qed.

(** [m] is a mountpoint below [p] on the way to [path]: [m] continues [p]
    with a slash, and [path] is [m] or continues [m] with a slash. *)
Definition on_the_way (p path m : PathString) : Prop :=
  exists below,
    m = p ++ [slash] ++ below /\
    (path = m \/ exists more, path = m ++ [slash] ++ more).

Lemma on_the_way_index p t m :
  on_the_way p (p ++ [slash] ++ t) m <->
  exists j : nat, (t ++ [slash]) !! j = Some slash /\
                  m = (p ++ [slash]) ++ take j (t ++ [slash]).
Proof.
  split.
  - intros (below & -> & [Hpath | (more & Hpath)]).
    + apply app_inv_head in Hpath. apply app_inv_head in Hpath. subst below.
      exists (length t). split.
      * rewrite lookup_app_r by lia. rewrite Nat.sub_diag. reflexivity.
      * rewrite take_app_length. rewrite <- app_assoc. reflexivity.
    + rewrite <- !app_assoc in Hpath.
      apply app_inv_head in Hpath. apply app_inv_head in Hpath. subst t.
      exists (length below). split.
      * rewrite <- app_assoc. rewrite lookup_app_r by lia.
        rewrite Nat.sub_diag. reflexivity.
      * rewrite <- !app_assoc. rewrite take_app_length. reflexivity.
  - intros (j & Hj & ->).
    assert (Hle : (j <= length t)%nat).
    { apply lookup_lt_Some in Hj. rewrite length_app in Hj. simpl in Hj. lia. }
    exists (take j t). split.
    + rewrite take_app_le by exact Hle. rewrite <- app_assoc. reflexivity.
    + rewrite take_app_le by exact Hle.
      destruct (decide (j = length t)) as [-> | Hne].
      * left. rewrite firstn_all. rewrite <- app_assoc. reflexivity.
      * right. exists (drop (S j) t).
        rewrite lookup_app_l in Hj by lia.
        rewrite <- !app_assoc. do 2 f_equal.
        rewrite <- (take_drop j t) at 1. f_equal.
        rewrite (drop_S _ _ _ Hj). reflexivity.
Qed.

(** X12.  FindSubtree returns the child catalog mounted at the first
    registered mountpoint on the way from this catalog's path to [path], and
    NULL if no child is mounted on the way; it returns NULL for the
    catalog's own path and for a path that does not start with it. *)
Theorem FindSubtree_finds_nearest_child n path :
  (StartsWith path (path_ n) = false -> FindSubtree n path = None) /\
  (path = path_ n -> FindSubtree n path = None) /\
  (forall t, path = path_ n ++ [slash] ++ t ->
     match FindSubtree n path with
     | Some ch =>
         exists m,
           children_ n !! m = Some ch /\ on_the_way (path_ n) path m /\
           forall m', on_the_way (path_ n) path m' ->
                      (length m' < length m)%nat -> children_ n !! m' = None
     | None => forall m, on_the_way (path_ n) path m -> children_ n !! m = None
     end).
Proof.
  split; [| split].
  - intros Hno. unfold FindSubtree. rewrite Hno. reflexivity.
  - intros ->. unfold FindSubtree.
    rewrite <- (app_nil_r (path_ n)) at 1. rewrite StartsWith_app.
    unfold Suffix. rewrite drop_all. reflexivity.
  - intros t ->. unfold FindSubtree. rewrite StartsWith_app.
    unfold Suffix. rewrite drop_app_length. cbn [negb].
    change (drop 1 (([slash] ++ t) ++ [slash])) with (t ++ [slash]).
    pose proof (scan_spec n (t ++ [slash]) (path_ n ++ [slash])) as Hscan.
    destruct (scan n (t ++ [slash]) (path_ n ++ [slash])) as [ch |].
    + destruct Hscan as (j & Hj & Hch & Hmin).
      exists ((path_ n ++ [slash]) ++ take j (t ++ [slash])).
      split; [exact Hch |]. split.
      * apply (proj2 (on_the_way_index _ _ _)).
        exists j. split; [exact Hj | reflexivity].
      * intros m' Hway Hshorter.
        apply (proj1 (on_the_way_index _ _ _)) in Hway as (j' & Hj' & ->).
        apply Hmin; [| exact Hj'].
        apply lookup_lt_Some in Hj, Hj'.
        rewrite !length_app, !length_take in Hshorter.
        rewrite length_app in Hj, Hj'. rewrite length_app in Hshorter. lia.
    + intros m Hway.
      apply (proj1 (on_the_way_index _ _ _)) in Hway as (j & Hj & ->).
      apply Hscan. exact Hj.
Qed.

(** The tree is consistent: a catalog registered under a mountpoint is in
    the store, is mounted there, and points back to the catalog it is
    registered in. *)
Definition tree_ok (h : gmap Z Node) : Prop :=
  forall p np m x,
    h !! p = Some np -> children_ np !! m = Some x ->
    exists nx, h !! x = Some nx /\ parent_ nx = Some p /\ path_ nx = m.

(** [x] is registered in no catalog. *)
Definition unregistered (h : gmap Z Node) (x : Z) : Prop :=
  forall q nq m, h !! q = Some nq -> children_ nq !! m <> Some x.

Lemma AddChild_frame this child h n c :
  h !! this = Some n -> h !! child = Some c ->
  FindChild n (path_ c) = None ->
  exists h',
    AddChild this child h = Some (Done h') /\
    forall x,
      match h !! x with
      | Some nx =>
          exists nx',
            h' !! x = Some nx' /\ path_ nx' = path_ nx /\
            parent_ nx' = (if decide (x = child) then Some this else parent_ nx) /\
            children_ nx' = (if decide (x = this)
                             then <[path_ c := child]> (children_ nx)
                             else children_ nx)
      | None => h' !! x = None
      end.
Proof.
  intros Hthis Hchild Hfree. unfold AddChild.
  rewrite Hthis, Hchild. cbn [mbind option_bind]. rewrite Hfree.
  set (n' := set_children n (<[path_ c := child]> (children_ n))).
  destruct (decide (child = this)) as [-> | Hne].
  - rewrite lookup_insert_eq. cbn [mbind option_bind].
    eexists. split; [reflexivity |]. intros x.
    assert (c = n) as -> by congruence.
    destruct (decide (x = this)) as [-> | Hx].
    + rewrite Hthis, lookup_insert_eq. eexists. repeat split.
    + rewrite !lookup_insert_ne by congruence.
      destruct (h !! x) as [nx |]; [| reflexivity].
      eexists. repeat split.
  - rewrite lookup_insert_ne by congruence. rewrite Hchild.
    cbn [mbind option_bind].
    eexists. split; [reflexivity |]. intros x.
    destruct (decide (x = child)) as [-> | Hxc].
    + rewrite Hchild, lookup_insert_eq. eexists.
      destruct (decide (child = this)); [contradiction |]. repeat split.
    + rewrite lookup_insert_ne by congruence.
      destruct (decide (x = this)) as [-> | Hxt].
      * rewrite Hthis, lookup_insert_eq. eexists. repeat split.
      * rewrite lookup_insert_ne by congruence.
        destruct (h !! x) as [nx |]; [| reflexivity].
        eexists. repeat split.
Qed.

(** X13.  AddChild of a catalog that is registered nowhere keeps the tree
    consistent: afterwards FindChild finds the child under its own path,
    the child's parent pointer is this catalog, and the other mountpoints
    of this catalog are as before. *)
Theorem AddChild_registers_child this child h n c :
  tree_ok h -> unregistered h child ->
  h !! this = Some n -> h !! child = Some c ->
  FindChild n (path_ c) = None ->
  exists h' n' c',
    AddChild this child h = Some (Done h') /\
    tree_ok h' /\
    h' !! this = Some n' /\ h' !! child = Some c' /\
    FindChild n' (path_ c) = Some child /\
    (forall m, m <> path_ c -> FindChild n' m = FindChild n m) /\
    parent_ c' = Some this /\ path_ c' = path_ c.
Proof.
  intros Hok Hunreg Hthis Hchild Hfree.
  destruct (AddChild_frame this child h n c Hthis Hchild Hfree)
    as (h' & Hadd & Hframe).
  pose proof (Hframe this) as Ft. rewrite Hthis in Ft.
  destruct Ft as (n' & Hn' & _ & _ & Hchildren).
  destruct (decide (this = this)); [| contradiction].
  pose proof (Hframe child) as Fc. rewrite Hchild in Fc.
  destruct Fc as (c' & Hc' & Hpath & Hparent & _).
  destruct (decide (child = child)); [| contradiction].
  exists h', n', c'. split; [exact Hadd |]. split.
  { intros p np m x Hp Hx.
    pose proof (Hframe p) as Fp. rewrite Hp in Fp.
    destruct (h !! p) as [np0 |] eqn:Ep; [| discriminate].
    destruct Fp as (np' & Hnp' & _ & _ & Hch). injection Hnp' as <-.
    rewrite Hch in Hx.
    assert (Hcase : (p = this /\ m = path_ c /\ x = child)
                    \/ children_ np0 !! m = Some x).
    { destruct (decide (p = this)) as [-> | _]; [| right; exact Hx].
      apply lookup_insert_Some in Hx as [[<- <-] | [_ Hx]]; [left | right]; auto. }
    destruct Hcase as [(-> & -> & ->) | Hold].
    - exists c'. split; [exact Hc' | split; [exact Hparent | exact Hpath]].
    - destruct (Hok p np0 m x Ep Hold) as (nx & Hnx & Hpar & Hpth).
      assert (x <> child) by (intros ->; exact (Hunreg p np0 m Ep Hold)).
      pose proof (Hframe x) as Fx. rewrite Hnx in Fx.
      destruct Fx as (nx' & Hnx' & Hp' & Hpar' & _).
      destruct (decide (x = child)); [contradiction |].
      exists nx'. split; [exact Hnx' |]. split; congruence. }
  split; [exact Hn' |]. split; [exact Hc' |]. split.
  { unfold FindChild. rewrite Hchildren. apply lookup_insert_eq. }
  split.
  { intros m Hm. unfold FindChild. rewrite Hchildren.
    apply lookup_insert_ne. congruence. }
  split; [exact Hparent | exact Hpath].
Qed.

Lemma RemoveChild_frame this child h n c :
  h !! this = Some n -> h !! child = Some c ->
  is_Some (FindChild n (path_ c)) ->
  exists h',
    RemoveChild this child h = Some (Done h') /\
    forall x,
      match h !! x with
      | Some nx =>
          exists nx',
            h' !! x = Some nx' /\ path_ nx' = path_ nx /\
            parent_ nx' = (if decide (x = child) then None else parent_ nx) /\
            children_ nx' = (if decide (x = this)
                             then delete (path_ c) (children_ nx)
                             else children_ nx)
      | None => h' !! x = None
      end.
Proof.
  intros Hthis Hchild [found Hfound]. unfold RemoveChild.
  rewrite Hthis, Hchild. cbn [mbind option_bind]. rewrite Hfound.
  destruct (decide (child = this)) as [-> | Hne].
  - rewrite lookup_insert_eq. cbn [mbind option_bind].
    eexists. split; [reflexivity |]. intros x.
    assert (c = n) as -> by congruence.
    destruct (decide (x = this)) as [-> | Hx].
    + rewrite Hthis, lookup_insert_eq. eexists. repeat split.
    + rewrite !lookup_insert_ne by congruence.
      destruct (h !! x) as [nx |]; [| reflexivity].
      eexists. repeat split.
  - rewrite lookup_insert_ne by congruence. rewrite Hthis.
    cbn [mbind option_bind].
    eexists. split; [reflexivity |]. intros x.
    destruct (decide (x = this)) as [-> | Hxt].
    + rewrite Hthis, lookup_insert_eq. eexists.
      destruct (decide (this = child)); [congruence |]. repeat split.
    + rewrite lookup_insert_ne by congruence.
      destruct (decide (x = child)) as [-> | Hxc].
      * rewrite Hchild, lookup_insert_eq. eexists. repeat split.
      * rewrite lookup_insert_ne by congruence.
        destruct (h !! x) as [nx |]; [| reflexivity].
        eexists. repeat split.
Qed.

(** X14.  RemoveChild of a catalog registered under its own path keeps the
    tree consistent: afterwards FindChild no longer finds the child, the
    child is registered nowhere and its parent pointer is NULL, and the
    other mountpoints of this catalog are as before. *)
Theorem RemoveChild_unregisters_child this child h n c :
  tree_ok h ->
  h !! this = Some n -> h !! child = Some c ->
  FindChild n (path_ c) = Some child ->
  exists h' n' c',
    RemoveChild this child h = Some (Done h') /\
    tree_ok h' /\ unregistered h' child /\
    h' !! this = Some n' /\ h' !! child = Some c' /\
    FindChild n' (path_ c) = None /\
    (forall m, m <> path_ c -> FindChild n' m = FindChild n m) /\
    parent_ c' = None /\ path_ c' = path_ c.
Proof.
  intros Hok Hthis Hchild Hreg.
  destruct (RemoveChild_frame this child h n c Hthis Hchild) as (h' & Hrm & Hframe);
    [eauto |].
  pose proof (Hframe this) as Ft. rewrite Hthis in Ft.
  destruct Ft as (n' & Hn' & _ & _ & Hchildren).
  destruct (decide (this = this)); [| contradiction].
  pose proof (Hframe child) as Fc. rewrite Hchild in Fc.
  destruct Fc as (c' & Hc' & Hpath & Hparent & _).
  destruct (decide (child = child)); [| contradiction].
  destruct (Hok this n (path_ c) child Hthis Hreg) as (c0 & Hc0 & Hback & _).
  assert (c0 = c) as -> by congruence.
  assert (Hold : forall p np m x,
             h' !! p = Some np -> children_ np !! m = Some x ->
             exists np0, h !! p = Some np0 /\ children_ np0 !! m = Some x /\
                         (p = this -> m <> path_ c)).
  { intros p np m x Hp Hx.
    pose proof (Hframe p) as Fp. rewrite Hp in Fp.
    destruct (h !! p) as [np0 |] eqn:Ep; [| discriminate].
    destruct Fp as (np' & Hnp' & _ & _ & Hch). injection Hnp' as <-.
    rewrite Hch in Hx. exists np0. split; [reflexivity |].
    destruct (decide (p = this)) as [-> | Hp'].
    - apply lookup_delete_Some in Hx as [Hm Hx]. split; [exact Hx | congruence].
    - split; [exact Hx | contradiction]. }
  assert (Hother : forall p np0 m x,
             h !! p = Some np0 -> children_ np0 !! m = Some x ->
             (p = this -> m <> path_ c) -> x <> child).
  { intros p np0 m x Ep Hx Hm ->.
    destruct (Hok p np0 m child Ep Hx) as (c0 & Hc0' & Hpar & Hpth).
    assert (c0 = c) as -> by congruence.
    apply Hm; congruence. }
  exists h', n', c'. split; [exact Hrm |]. split.
  { intros p np m x Hp Hx.
    destruct (Hold p np m x Hp Hx) as (np0 & Ep & Hx0 & Hm).
    destruct (Hok p np0 m x Ep Hx0) as (nx & Hnx & Hpar & Hpth).
    pose proof (Hother p np0 m x Ep Hx0 Hm) as Hxc.
    pose proof (Hframe x) as Fx. rewrite Hnx in Fx.
    destruct Fx as (nx' & Hnx' & Hp' & Hpar' & _).
    destruct (decide (x = child)); [contradiction |].
    exists nx'. split; [exact Hnx' |]. split; congruence. }
  split.
  { intros q nq m Hq Hx.
    destruct (Hold q nq m child Hq Hx) as (np0 & Ep & Hx0 & Hm).
    exact (Hother q np0 m child Ep Hx0 Hm eq_refl). }
  split; [exact Hn' |]. split; [exact Hc' |]. split.
  { unfold FindChild. rewrite Hchildren. apply lookup_delete_eq. }
  split.
  { intros m Hm. unfold FindChild. rewrite Hchildren.
    apply lookup_delete_ne. congruence. }
  split; [exact Hparent | exact Hpath].
Qed.

(** X15.  RemoveChild undoes AddChild: adding a catalog below its path and
    removing it again leaves the store as it was, except that the child's
    parent pointer is NULL whatever it pointed to before. *)
Theorem RemoveChild_undoes_AddChild this child h n c :
  h !! this = Some n -> h !! child = Some c ->
  FindChild n (path_ c) = None ->
  exists h1,
    AddChild this child h = Some (Done h1) /\
    RemoveChild this child h1
    = Some (Done (<[child := set_parent c None]> h)).
Proof.
  intros Hthis Hchild Hfree.
  destruct (AddChild_frame this child h n c Hthis Hchild Hfree)
    as (h1 & Hadd & Hframe1).
  exists h1. split; [exact Hadd |].
  pose proof (Hframe1 this) as Ft. rewrite Hthis in Ft.
  destruct Ft as (n1 & Hn1 & _ & _ & Hch1).
  destruct (decide (this = this)); [| contradiction].
  pose proof (Hframe1 child) as Fc. rewrite Hchild in Fc.
  destruct Fc as (c1 & Hc1 & Hpath1 & _ & _).
  destruct (RemoveChild_frame this child h1 n1 c1 Hn1 Hc1) as (h2 & Hrm & Hframe2).
  { unfold FindChild. rewrite Hch1, Hpath1, lookup_insert_eq. eauto. }
  rewrite Hrm. do 2 f_equal. apply map_eq. intros x.
  pose proof (Hframe1 x) as F1. pose proof (Hframe2 x) as F2.
  destruct (h !! x) as [nx |] eqn:Ex.
  - destruct F1 as (nx1 & Hnx1 & Hp1 & Hpar1 & Hc1').
    rewrite Hnx1 in F2. destruct F2 as (nx2 & Hnx2 & Hp2 & Hpar2 & Hc2).
    rewrite Hnx2.
    assert (Hchildren : children_ nx2 = children_ nx).
    { rewrite Hc2, Hc1'. destruct (decide (x = this)) as [-> | _]; [| reflexivity].
      rewrite Hpath1, delete_insert_eq. apply delete_id.
      assert (nx = n) as -> by congruence. exact Hfree. }
    destruct (decide (x = child)) as [-> | Hxc].
    + rewrite lookup_insert_eq. assert (nx = c) as -> by congruence.
      f_equal. destruct nx2, c. unfold set_parent. simpl in *. congruence.
    + rewrite lookup_insert_ne by congruence. rewrite Ex. f_equal.
      destruct nx2, nx. simpl in *. congruence.
  - rewrite F1 in F2. rewrite F2.
    destruct (decide (x = child)) as [-> | Hxc]; [congruence |].
    rewrite lookup_insert_ne by congruence. rewrite Ex. reflexivity.
Qed.

(** *** A root catalog with nested catalogs at /a/b and /a/b/c/d *)

Definition path (s : string) : PathString := list_ascii_of_string s.

Definition root_node : Node :=
  mkNode (path "") None
         (<[path "/a/b" := 11]> (<[path "/a/b/c/d" := 12]> ∅)).

Example FindSubtree_below_mountpoint :
  FindSubtree root_node (path "/a/b/c/d/e") = Some 11.
Proof. vm_compute. reflexivity. Qed.

Example FindSubtree_at_mountpoint :
  FindSubtree root_node (path "/a/b") = Some 11.
Proof. vm_compute. reflexivity. Qed.

Example FindSubtree_above_mountpoint :
  FindSubtree root_node (path "/a") = None.
Proof. vm_compute. reflexivity. Qed.

Example FindSubtree_sibling_name :
  FindSubtree root_node (path "/a/bc") = None.
Proof. vm_compute. reflexivity. Qed.

(** The store before and after the catalog for /a/b is attached below the
    root catalog. *)
Definition detached : gmap Z Node :=
  <[1 := mkNode (path "") None ∅]>
    (<[2 := mkNode (path "/a/b") (Some 1) ∅]> ∅).

Definition attached : gmap Z Node :=
  <[1 := mkNode (path "") None (<[path "/a/b" := 2]> ∅)]>
    (<[2 := mkNode (path "/a/b") (Some 1) ∅]> ∅).

Lemma detached_ok : tree_ok detached /\ unregistered detached 2.
Proof.
  assert (Hnone : forall p np m,
             detached !! p = Some np -> children_ np !! m = None).
  { intros p np m Hp. unfold detached in Hp.
    apply lookup_insert_Some in Hp as [[_ <-] | [_ Hp]]; [reflexivity |].
    apply lookup_insert_Some in Hp as [[_ <-] | [_ Hp]]; [reflexivity |].
    rewrite lookup_empty in Hp. discriminate. }
  split.
  - intros p np m x Hp Hx. rewrite (Hnone p np m Hp) in Hx. discriminate.
  - intros q nq m Hq Hx. rewrite (Hnone q nq m Hq) in Hx. discriminate.
Qed.

Lemma attached_ok : tree_ok attached.
Proof.
  intros p np m x Hp Hx. unfold attached in Hp.
  apply lookup_insert_Some in Hp as [[<- <-] | [_ Hp]].
  - cbn [children_] in Hx.
    apply lookup_insert_Some in Hx as [[<- <-] | [_ Hx]].
    + eexists. split; [reflexivity |]. split; reflexivity.
    + rewrite lookup_empty in Hx. discriminate.
  - apply lookup_insert_Some in Hp as [[_ <-] | [_ Hp]].
    + cbn [children_] in Hx. rewrite lookup_empty in Hx. discriminate.
    + rewrite lookup_empty in Hp. discriminate.
Qed.

Lemma AddChild_registers_child_witness :
  exists h' n' c',
    AddChild 1 2 detached = Some (Done h') /\
    tree_ok h' /\
    h' !! 1 = Some n' /\ h' !! 2 = Some c' /\
    FindChild n' (path "/a/b") = Some 2 /\
    (forall m, m <> path "/a/b" -> FindChild n' m = None) /\
    parent_ c' = Some 1 /\ path_ c' = path "/a/b".
Proof.
  exact (AddChild_registers_child 1 2 detached _ _ (proj1 detached_ok)
           (proj2 detached_ok) eq_refl eq_refl eq_refl).
Defined.

Lemma RemoveChild_unregisters_child_witness :
  exists h' n' c',
    RemoveChild 1 2 attached = Some (Done h') /\
    tree_ok h' /\ unregistered h' 2 /\
    h' !! 1 = Some n' /\ h' !! 2 = Some c' /\
    FindChild n' (path "/a/b") = None /\
    (forall m, m <> path "/a/b" ->
               FindChild n' m = (<[path "/a/b" := 2]> ∅ : gmap PathString Z) !! m) /\
    parent_ c' = None /\ path_ c' = path "/a/b".
Proof.
  exact (RemoveChild_unregisters_child 1 2 attached _ _ attached_ok
           eq_refl eq_refl eq_refl).
Defined.

Lemma RemoveChild_undoes_AddChild_witness :
  exists h1,
    AddChild 1 2 detached = Some (Done h1) /\
    RemoveChild 1 2 h1
    = Some (Done (<[2 := mkNode (path "/a/b") None ∅]> detached)).
Proof.
  exact (RemoveChild_undoes_AddChild 1 2 detached _ _ eq_refl eq_refl eq_refl).
Defined.

Example AddChild_attaches : AddChild 1 2 detached = Some (Done attached).
Proof. vm_compute. reflexivity. Qed.

(** A second catalog for a mountpoint that is taken trips the assertion. *)
Example AddChild_twice : AddChild 1 2 attached = Some AssertionFailed.
Proof. vm_compute. reflexivity. Qed.

Example RemoveChild_not_attached :
  RemoveChild 1 2 detached = Some AssertionFailed.
Proof. vm_compute. reflexivity. Qed.

End CatalogTree.

(** * The open-file engine: cvmfs_release, the open-files counter and the
      back-off on I/O errors (cvmfs.cc) *)

Module OpenRelease.

Import OpenFile.

(** cvmfs_release (lines 1238-1287) on the mangled inode [ino] and the
    handle [fh] (a uint64_t); it always replies 0.  [close_result] is what
    close() returns for the descriptor of a whole file (an int64_t passed
    as an int).  Returns the descriptors handed to close() and the state. *)
Definition cvmfs_release (close_result : Z) (ino fh : Z) (st : State)
  : Outcome (list Z * State) :=
  if wrap_s64 fh <? 0 then
    let chunk_handle := wrap_u64 (- wrap_s64 fh) in
    let t := chunk_tables_ st in
    match handle2fd t !! chunk_handle with
    | None => AssertionFailed
    | Some chunk_fd =>
        let handles := delete chunk_handle (handle2fd t) in
        match inode2references t !! ino with
        | None => AssertionFailed
        | Some refctr0 =>
            let refctr := wrap_u32 (refctr0 - 1) in
            let released :=
              if refctr =? 0 then
                match inode2chunks t !! ino with
                | None => AssertionFailed
                | Some to_delete =>
                    Done (mkChunkTables (next_handle t)
                                        (delete ino (inode2chunks t))
                                        (delete ino (inode2references t))
                                        handles)
                end
              else
                Done (mkChunkTables (next_handle t) (inode2chunks t)
                                    (<[ino := refctr]> (inode2references t))
                                    handles) in
            match released with
            | AssertionFailed => AssertionFailed
            | Done t' =>
                Done (if fd chunk_fd =? -1 then [] else [fd chunk_fd],
                      set_open_files (wrap_s32 (open_files_ st - 1))
                                     (set_chunk_tables t' st))
            end
        end
    end
  else
    Done ([wrap_s32 (wrap_s64 fh)],
          if close_result =? 0
          then set_open_files (wrap_s32 (open_files_ st - 1)) st
          else st).

(** *** Facts *)

(** The chunk tables as cvmfs_open and cvmfs_release keep them for an
    inode: a reference counter exists exactly when the chunk list is loaded,
    and then it is at least one. *)
Definition references_ok (t : ChunkTables) (ino : Z) : Prop :=
  match inode2chunks t !! ino with
  | Some _ => exists refctr,
      inode2references t !! ino = Some refctr /\ 1 <= refctr < 2 ^ 32 - 1
  | None => inode2references t !! ino = None
  end.

(** X16.  Opening a chunked file and releasing the handle again leaves the
    chunk tables as they were, apart from the handle counter: the chunk
    list and the reference counter of the inode, the handle table and the
    open-files counter are restored, and no descriptor is closed. *)
Theorem release_undoes_chunked_open call ino st dirent close_result :
  found call = Some dirent -> o_excl call = false ->
  IsChunkedFile dirent = true ->
  is_s32 (open_files_ st) -> open_files_ st < fd_limit st ->
  (inode2chunks (chunk_tables_ st) !! ino = None ->
   exists c chunks, listed_chunks call = Some (c :: chunks)) ->
  references_ok (chunk_tables_ st) ino ->
  0 < next_handle (chunk_tables_ st) < 2 ^ 63 ->
  handle2fd (chunk_tables_ st) !! next_handle (chunk_tables_ st) = None ->
  exists fh st1 st2,
    cvmfs_open call ino st = Done (reply_open fh 0, st1) /\
    cvmfs_release close_result ino fh st1 = Done ([], st2) /\
    inode2chunks (chunk_tables_ st2) = inode2chunks (chunk_tables_ st) /\
    inode2references (chunk_tables_ st2) = inode2references (chunk_tables_ st) /\
    handle2fd (chunk_tables_ st2) = handle2fd (chunk_tables_ st) /\
    next_handle (chunk_tables_ st2) = next_handle (chunk_tables_ st) + 1 /\
    open_files_ st2 = open_files_ st.
Proof.
  intros Hfound Hexcl Hchunked Hs Hlimit Hlist Hrefs Hnext Hfresh.
  set (t := chunk_tables_ st) in *.
  assert (Hfh : wrap_s64 (wrap_u64 (- next_handle t)) = - next_handle t).
  { unfold wrap_s64, wrap_u64.
    rewrite Zplus_mod_idemp_l.
    replace (- next_handle t + 2 ^ 63) with (2 ^ 63 - next_handle t) by lia.
    rewrite Z.mod_small by lia. lia. }
  assert (Hhandle : wrap_u64 (- wrap_s64 (wrap_u64 (- next_handle t)))
                    = next_handle t).
  { rewrite Hfh. rewrite Z.opp_involutive. apply wrap_u64_id.
    unfold is_u64. lia. }
  assert (Hback : wrap_s32 (wrap_s32 (open_files_ st + 1) - 1) = open_files_ st).
  { rewrite wrap_s32_inc_dec. apply wrap_s32_id. exact Hs. }
  unfold cvmfs_open. rewrite Hfound, Hexcl, Hchunked.
  change (fd_limit (set_open_files _ (count_fs_open st))) with (fd_limit st).
  change (open_files_ (count_fs_open st)) with (open_files_ st).
  destruct (Z.geb_spec (open_files_ st) (fd_limit st)) as [? | _]; [lia |].
  cbn [chunk_tables_ set_open_files count_fs_open]. fold t.
  unfold references_ok in Hrefs. fold t in Hrefs.
  destruct (inode2chunks t !! ino) as [loaded |] eqn:Echunks.
  - destruct Hrefs as (refctr & Hrefctr & Hrange).
    unfold add_reference. rewrite Hrefctr.
    eexists _, _, _. split; [reflexivity |].
    unfold cvmfs_release.
    cbn [link_chunk_handle fst snd chunk_tables_ set_chunk_tables
         set_open_files handle2fd inode2references inode2chunks next_handle].
    rewrite Hhandle, Hfh.
    destruct (Z.ltb_spec (- next_handle t) 0) as [_ | ?]; [| lia].
    rewrite lookup_insert_eq, lookup_insert_eq.
    rewrite (wrap_u32_id (refctr + 1)) by (unfold is_u32; lia).
    replace (refctr + 1 - 1) with refctr by lia.
    rewrite (wrap_u32_id refctr) by (unfold is_u32; lia).
    destruct (Z.eqb_spec refctr 0) as [? | _]; [lia |].
    cbn [fd ChunkFd_new]. cbn [Z.eqb Pos.eqb].
    split; [reflexivity |].
    cbn [chunk_tables_ set_chunk_tables set_open_files handle2fd
         inode2references inode2chunks next_handle open_files_].
    split; [reflexivity |]. split.
    { rewrite insert_insert_eq. apply insert_id. exact Hrefctr. }
    split.
    { rewrite delete_insert_eq. apply delete_id. exact Hfresh. }
    split; [apply wrap_u64_id; unfold is_u64; lia | exact Hback].
  - destruct (Hlist eq_refl) as (c & chunks & Hlisted). rewrite Hlisted.
    eexists _, _, _. split; [reflexivity |].
    unfold cvmfs_release.
    cbn [link_chunk_handle fst snd chunk_tables_ set_chunk_tables
         set_open_files handle2fd inode2references inode2chunks next_handle].
    rewrite Hhandle, Hfh.
    destruct (Z.ltb_spec (- next_handle t) 0) as [_ | ?]; [| lia].
    rewrite !lookup_insert_eq.
    change (wrap_u32 (1 - 1) =? 0) with true. cbn iota.
    cbn [fd ChunkFd_new]. cbn [Z.eqb Pos.eqb].
    split; [reflexivity |].
    cbn [chunk_tables_ set_chunk_tables set_open_files handle2fd
         inode2references inode2chunks next_handle open_files_].
    split.
    { rewrite delete_insert_eq. apply delete_id. exact Echunks. }
    split.
    { rewrite delete_insert_eq. apply delete_id. exact Hrefs. }
    split.
    { rewrite delete_insert_eq. apply delete_id. exact Hfresh. }
    split; [apply wrap_u64_id; unfold is_u64; lia | exact Hback].
Qed.

(** X17.  How cvmfs_open accounts for open files: an open that hands out a
    handle raises [open_files_] by one; an open answered with an error
    leaves it as it was, except that the counter stays raised when a chunked
    file turns out to have no chunks (EIO) and when the surplus descriptor
    of a whole file could not be closed (EMFILE). *)
Theorem cvmfs_open_counts_open_files call ino st r st' :
  is_s32 (open_files_ st) -> open_files_ st + 1 < 2 ^ 31 ->
  cvmfs_open call ino st = Done (r, st') ->
  match r with
  | reply_open _ _ => open_files_ st' = open_files_ st + 1
  | reply_err errno =>
      open_files_ st' = open_files_ st \/
      (open_files_ st' = open_files_ st + 1 /\
       ((errno = EIO /\
         exists dirent, found call = Some dirent /\ IsChunkedFile dirent = true) \/
        (errno = EMFILE /\ 0 <= fetch_fd call /\ close_result call <> 0)))
  end.
Proof.
  intros Hs Hroom Hopen. unfold cvmfs_open in Hopen.
  assert (Hup : wrap_s32 (open_files_ st + 1) = open_files_ st + 1).
  { apply wrap_s32_id. unfold is_s32 in Hs. lia. }
  assert (Hback : wrap_s32 (wrap_s32 (open_files_ st + 1) - 1) = open_files_ st).
  { rewrite wrap_s32_inc_dec. apply wrap_s32_id. exact Hs. }
  destruct (found call) as [dirent |] eqn:Efound.
  2:{ injection Hopen as <- <-. left. reflexivity. }
  destruct (o_excl call).
  { injection Hopen as <- <-. left. reflexivity. }
  change (fd_limit (set_open_files _ (count_fs_open st))) with (fd_limit st) in Hopen.
  change (open_files_ (count_fs_open st)) with (open_files_ st) in Hopen.
  destruct (IsChunkedFile dirent) eqn:Echunked.
  - destruct (open_files_ st >=? fd_limit st).
    + injection Hopen as <- <-. left. exact Hback.
    + destruct (inode2chunks _ !! ino).
      * destruct (add_reference _ _); [| discriminate].
        injection Hopen as <- <-. exact Hup.
      * destruct (listed_chunks call) as [[| c chunks] |];
          injection Hopen as <- <-; try exact Hup;
          right; (split; [exact Hup |]); left; (split; [reflexivity |]);
          exists dirent; split; reflexivity || exact Echunked.
  - destruct (Z.geb_spec (fetch_fd call) 0) as [Hfd | Hfd].
    + destruct (open_files_ st <? fd_limit st).
      * injection Hopen as <- <-. exact Hup.
      * injection Hopen as <- <-.
        destruct (Z.eqb_spec (close_result call) 0) as [Hclose | Hclose].
        -- left. exact Hback.
        -- right. split; [exact Hup |]. right.
           split; [reflexivity |]. split; [lia | exact Hclose].
    + destruct (fetch_errno call =? EMFILE).
      * injection Hopen as <- <-. left. reflexivity.
      * injection Hopen as <- <-. left. unfold io_error_backoff. simpl.
        destruct (now call - previous_io_error_timestamp st <? kForgetDos);
          reflexivity.
Qed.

(** The stored back-off delay is below twice kMaxIoDelay. *)
Definition backoff_ok (st : State) : Prop :=
  0 <= previous_io_error_delay st < 2 * kMaxIoDelay.

(** X18.  The back-off on I/O errors is bounded: cvmfs_open keeps the stored
    delay below twice kMaxIoDelay (a delay below kMaxIoDelay is doubled, so
    the delay can pass kMaxIoDelay once), and no open sleeps for longer than
    that. *)
Theorem io_error_backoff_bounded call ino st r st' :
  0 <= random_value call -> backoff_ok st ->
  cvmfs_open call ino st = Done (r, st') ->
  backoff_ok st' /\ 0 <= slept_ms st' - slept_ms st < 2 * kMaxIoDelay.
Proof.
  unfold backoff_ok, kMaxIoDelay. intros Hrandom Hok Hopen.
  unfold cvmfs_open in Hopen.
  destruct (found call) as [dirent |].
  2:{ injection Hopen as <- <-. lia. }
  destruct (o_excl call).
  { injection Hopen as <- <-. lia. }
  destruct (IsChunkedFile dirent).
  - destruct (_ >=? _).
    + injection Hopen as <- <-. simpl. lia.
    + destruct (inode2chunks _ !! ino).
      * destruct (add_reference _ _); [| discriminate].
        injection Hopen as <- <-. simpl. lia.
      * destruct (listed_chunks call) as [[| c chunks] |];
          injection Hopen as <- <-; simpl; lia.
  - destruct (fetch_fd call >=? 0).
    + destruct (_ <? _).
      * injection Hopen as <- <-. simpl. lia.
      * injection Hopen as <- <-.
        destruct (close_result call =? 0); simpl; lia.
    + destruct (fetch_errno call =? EMFILE).
      * injection Hopen as <- <-. simpl. lia.
      * injection Hopen as <- <-. unfold io_error_backoff.
        cbn [open_files_ max_open_files_ chunk_tables_ num_fs_open_
             num_io_error_ previous_io_error_timestamp
             previous_io_error_delay slept_ms count_fs_open].
        destruct (now call - previous_io_error_timestamp st <? kForgetDos);
          cbn [previous_io_error_delay slept_ms].
        -- destruct (Z.ltb_spec (previous_io_error_delay st) kMaxIoDelay)
             as [Hlow | Hhigh]; unfold kMaxIoDelay in *.
           ++ rewrite wrap_s32_id by lia. lia.
           ++ lia.
        -- unfold kMaxInitIoDelay.
           pose proof (Z.rem_bound_pos (random_value call) (32 - 1) Hrandom).
           lia.
Qed.

(** *** A chunked file in an idle process *)

Definition one_chunk : FileChunk := mkChunk 77 0 10.

Definition open_chunked : OpenCall :=
  mkOpenCall (Some (mkEntry true "/a/big")) false (Some [one_chunk]) (-1) 0 0
             1000 7.

Lemma release_undoes_chunked_open_witness :
  exists fh st1 st2,
    cvmfs_open open_chunked 300 idle_state = Done (reply_open fh 0, st1) /\
    cvmfs_release 0 300 fh st1 = Done ([], st2) /\
    inode2chunks (chunk_tables_ st2) = ∅ /\
    inode2references (chunk_tables_ st2) = ∅ /\
    handle2fd (chunk_tables_ st2) = ∅ /\
    next_handle (chunk_tables_ st2) = 3 /\
    open_files_ st2 = 0.
Proof.
  apply (release_undoes_chunked_open open_chunked 300 idle_state
           (mkEntry true "/a/big") 0).
  - reflexivity.
  - reflexivity.
  - reflexivity.
  - unfold is_s32. simpl. lia.
  - vm_compute. reflexivity.
  - intros _. exists one_chunk, []. reflexivity.
  - reflexivity.
  - simpl. lia.
  - reflexivity.
Defined.

(** A chunked file for which the catalog lists no chunks. *)
Definition open_without_chunks : OpenCall :=
  mkOpenCall (Some (mkEntry true "/a/big")) false (Some []) (-1) 0 0 1000 7.

Lemma cvmfs_open_counts_open_files_witness :
  exists st',
    cvmfs_open open_without_chunks 300 idle_state = Done (reply_err EIO, st') /\
    (open_files_ st' = 0 \/
     (open_files_ st' = 0 + 1 /\
      ((EIO = EIO /\
        exists dirent, found open_without_chunks = Some dirent /\
                       IsChunkedFile dirent = true) \/
       (EIO = EMFILE /\ 0 <= fetch_fd open_without_chunks /\
        close_result open_without_chunks <> 0)))).
Proof.
  eexists. split; [reflexivity |].
  apply (cvmfs_open_counts_open_files open_without_chunks 300 idle_state
           (reply_err EIO) _).
  - unfold is_s32. simpl. lia.
  - simpl. lia.
  - reflexivity.
Defined.

Example open_without_chunks_keeps_counter_raised :
  exists st',
    cvmfs_open open_without_chunks 300 idle_state = Done (reply_err EIO, st') /\
    open_files_ st' = 1.
Proof. eexists. split; reflexivity. Qed.

(** A whole file whose fetch fails, 3 seconds after the previous failure
    left a delay of 1984 ms. *)
Definition fetch_failed : OpenCall :=
  mkOpenCall (Some (mkEntry false "/a/f")) false None (- EIO) EIO 0 1003 7.

Definition after_errors : State := mkState 0 1024 idle_tables 0 6 1000 1984 0.

Lemma io_error_backoff_bounded_witness :
  exists st',
    cvmfs_open fetch_failed 300 after_errors = Done (reply_err EIO, st') /\
    backoff_ok st' /\ 0 <= slept_ms st' - slept_ms after_errors < 2 * kMaxIoDelay.
Proof.
  eexists. split; [reflexivity |].
  apply (io_error_backoff_bounded fetch_failed 300 after_errors (reply_err EIO) _).
  - simpl. lia.
  - unfold backoff_ok, kMaxIoDelay. simpl. lia.
  - reflexivity.
Defined.

(** The delay passes kMaxIoDelay: after sleeping 1984 ms it is 3968 ms. *)
Example backoff_passes_kMaxIoDelay :
  exists st',
    cvmfs_open fetch_failed 300 after_errors = Done (reply_err EIO, st') /\
    slept_ms st' = 1984 /\ previous_io_error_delay st' = 3968.
Proof. eexists. split; [reflexivity |]. split; reflexivity. Qed.

End OpenRelease.

(** * The remount state machine: drain-out, its guards and the TTL cap
      (cvmfs.cc) *)

Module RemountGuards.

Import Remount.

Arguments inode_cache_ {Mgr Cache} _.
Arguments path_cache_ {Mgr Cache} _.
Arguments md5path_cache_ {Mgr Cache} _.
Arguments fence_blocking_ {Mgr Cache} _.
Arguments kcache_timeout_ {Mgr Cache} _.
Arguments max_ttl_ {Mgr Cache} _.

Section WithCatalogManager.

Context {Mgr Cache : Type}.

Implicit Types (st : @State Mgr Cache).

(** SetMaxTTL (lines 270-274): minutes in, seconds stored, in unsigned
    arithmetic. *)
Definition SetMaxTTL (value : Z) st : @State Mgr Cache :=
  mkState (catalog_manager_ st) (has_inode_annotation st) (inode_generation st)
          (inode_cache_ st) (path_cache_ st) (md5path_cache_ st)
          (fence_blocking_ st) (maintenance_mode_ st) (catalogs_expired_ st)
          (drainout_mode_ st) (reload_critical_section_ st)
          (drainout_deadline_ st) (catalogs_valid_until_ st)
          (kcache_timeout_ st) (wrap_u32 (value * 60)) (pending_alarm st)
          (time_calls st).

(** GetKcacheTimeout (lines 285-289). *)
Definition GetKcacheTimeout st : Z :=
  if negb (drainout_mode_ st =? 0) || negb (maintenance_mode_ st =? 0)
  then 0
  else kcache_timeout_ st.

(** MaintenanceMode (lines 2272-2281), as far as the state machine sees
    it: the alarm signal is reset to its default action and
    [maintenance_mode_] is raised. *)
Definition MaintenanceMode st : @State Mgr Cache :=
  mkState (catalog_manager_ st) (has_inode_annotation st) (inode_generation st)
          (inode_cache_ st) (path_cache_ st) (md5path_cache_ st)
          (fence_blocking_ st)
          (if maintenance_mode_ st =? 0 then 1 else maintenance_mode_ st)
          (catalogs_expired_ st)
          (drainout_mode_ st) (reload_critical_section_ st)
          (drainout_deadline_ st) (catalogs_valid_until_ st)
          (kcache_timeout_ st) (max_ttl_ st) (pending_alarm st)
          (time_calls st).

End WithCatalogManager.

Section GuardFacts.

Context {Mgr Cache : Type}.
Variable Remount : bool -> Mgr -> LoadError * Mgr.
Variable offline_mode : Mgr -> bool.
Variable GetTTL : Mgr -> Z.
Variable GetGeneration : Mgr -> Z.
Variables Pause Drop Resume : Cache -> Cache.
Variable clock : nat -> Z.

Implicit Types (st : @State Mgr Cache).

(** X19.  SetMaxTTL caps the effective TTL: a cap of [value] minutes (as long
    as its seconds fit an unsigned) is read back by GetMaxTTL, the effective
    TTL is then the smaller of the cap and the catalog's TTL, and a cap of 0
    minutes means no cap.  The effective TTL never exceeds the catalog's
    TTL. *)
Theorem SetMaxTTL_caps_effective_TTL st value :
  0 <= value -> value * 60 < 2 ^ 32 ->
  is_u32 (GetTTL (catalog_manager_ st)) ->
  let st' := SetMaxTTL value st in
  GetMaxTTL _ _ st' = value /\
  GetEffectiveTTL _ _ GetTTL st'
  = (if value =? 0 then GetTTL (catalog_manager_ st)
     else Z.min (value * 60) (GetTTL (catalog_manager_ st))) /\
  GetEffectiveTTL _ _ GetTTL st' <= GetTTL (catalog_manager_ st).
Proof.
  intros Hvalue Hfits Httl st'.
  assert (Hmax : GetMaxTTL _ _ st' = value).
  { unfold GetMaxTTL, st', SetMaxTTL. cbn [max_ttl_].
    rewrite wrap_u32_id by (unfold is_u32; lia).
    apply Z.div_mul. lia. }
  split; [exact Hmax |].
  unfold GetEffectiveTTL. rewrite Hmax.
  change (catalog_manager_ st') with (catalog_manager_ st).
  rewrite (wrap_u32_id (value * 60)) by (unfold is_u32; lia).
  rewrite (wrap_u32_id (GetTTL _)) by exact Httl.
  destruct (Z.eqb_spec value 0) as [-> | Hpos].
  - simpl. split; [reflexivity | lia].
  - destruct (Z.eqb_spec (value * 60) 0) as [? | _]; [lia |].
    split; [reflexivity | lia].
Qed.

(** RemountFinish does not reach the catalog swap: another thread is in the
    critical section, drain-out has not begun, or the drain-out deadline
    has not passed. *)
Definition finish_held_back st : Prop :=
  reload_critical_section_ st <> 0 \/
  drainout_mode_ st = 0 \/
  clock (time_calls st) <= drainout_deadline_ st.

(** X20.  The catalogs are not swapped before the kernel caches are drained
    out.  A RemountStart that finds a new revision sets the drain-out
    deadline to the current time + kcache_timeout_ + 1 and switches the
    kernel cache timeout that is handed out to 0; and a RemountFinish that
    is held back (by the critical section, outside drain-out mode, or while
    the deadline has not passed) leaves the catalog manager, the caches, the
    TTL and the drain-out mode as they are. *)
Theorem no_swap_before_drainout_deadline :
  (forall st,
     (Remount true (catalog_manager_ st)).1 = kLoadNew ->
     let st' := (RemountStart _ _ Remount clock st).2 in
     drainout_deadline_ st' = last_time clock st' + kcache_timeout_ st + 1 /\
     (drainout_mode_ st = 0 -> drainout_mode_ st' = 1) /\
     GetKcacheTimeout st' = 0) /\
  (forall st,
     finish_held_back st ->
     let st' := RemountFinish _ _ Remount offline_mode GetTTL GetGeneration
                              Pause Drop Resume clock st in
     catalog_manager_ st' = catalog_manager_ st /\
     inode_cache_ st' = inode_cache_ st /\
     path_cache_ st' = path_cache_ st /\
     md5path_cache_ st' = md5path_cache_ st /\
     inode_generation st' = inode_generation st /\
     catalogs_valid_until_ st' = catalogs_valid_until_ st /\
     pending_alarm st' = pending_alarm st /\
     drainout_mode_ st' = drainout_mode_ st /\
     drainout_deadline_ st' = drainout_deadline_ st).
Proof.
  split.
  - intros st Hnew st'. subst st'.
    destruct st as [mgr ha ig ic pc mc fb mm ce dm rcs dd cvu kt mt pa tc].
    unfold RemountStart, last_time, GetKcacheTimeout. simpl in *.
    rewrite Hnew. simpl. split; [reflexivity |]. split.
    + intros ->. reflexivity.
    + destruct (Z.eqb_spec dm 0) as [-> | Hdm]; [reflexivity |].
      destruct (Z.eqb_spec dm 0); [contradiction | reflexivity].
  - intros st Hheld st'. subst st'.
    destruct st as [mgr ha ig ic pc mc fb mm ce dm rcs dd cvu kt mt pa tc].
    unfold finish_held_back in Hheld. unfold RemountFinish. simpl in *.
    destruct (Z.eqb_spec rcs 0) as [-> | Hrcs]; simpl; [| repeat split].
    destruct (Z.eqb_spec dm 0) as [-> | Hdm]; simpl; [repeat split |].
    destruct (Z.gtb_spec (clock tc) dd) as [Hlate | _]; simpl; [| repeat split].
    destruct Hheld as [? | [? | ?]]; [congruence | congruence | lia].
Qed.

Lemma RemountFinish_releases st :
  fence_blocking_ st = 0 -> reload_critical_section_ st = 0 ->
  let st' := RemountFinish _ _ Remount offline_mode GetTTL GetGeneration
                           Pause Drop Resume clock st in
  fence_blocking_ st' = 0 /\ reload_critical_section_ st' = 0.
Proof.
  destruct st as [mgr ha ig ic pc mc fb mm ce dm rcs dd cvu kt mt pa tc].
  cbn [fence_blocking_ reload_critical_section_]. intros -> ->.
  unfold RemountFinish. simpl.
  destruct (dm =? 0); simpl; [split; reflexivity |].
  destruct (clock tc >? dd); simpl; [| split; reflexivity].
  destruct (is_failure _ || offline_mode _); simpl; split; reflexivity.
Qed.

Lemma RemountStart_keeps_locks st :
  let st' := (RemountStart _ _ Remount clock st).2 in
  fence_blocking_ st' = fence_blocking_ st /\
  reload_critical_section_ st' = reload_critical_section_ st.
Proof.
  unfold RemountStart.
  destruct (LoadError_eqb _ kLoadNew); split; reflexivity.
Qed.

(** X21.  RemountCheck gives back what it takes: if the fence is open and
    nobody is in the critical section when it is called, the fence is open
    and the critical section is free when it returns, whatever Remount
    answered; and once MaintenanceMode has been entered it changes nothing
    at all. *)
Theorem RemountCheck_releases_fence_and_critical_section st :
  (fence_blocking_ st = 0 -> reload_critical_section_ st = 0 ->
   let st' := RemountCheck _ _ Remount offline_mode GetTTL GetGeneration
                           Pause Drop Resume clock st in
   fence_blocking_ st' = 0 /\ reload_critical_section_ st' = 0) /\
  (maintenance_mode_ st = 0 \/ maintenance_mode_ st = 1 ->
   RemountCheck _ _ Remount offline_mode GetTTL GetGeneration
                Pause Drop Resume clock (MaintenanceMode st)
   = MaintenanceMode st).
Proof.
  split.
  - intros Hfb Hrcs st'. subst st'. unfold RemountCheck.
    destruct (maintenance_mode_ st =? 1); [split; assumption |].
    pose proof (RemountFinish_releases st Hfb Hrcs) as Hfinish.
    set (st1 := RemountFinish _ _ Remount offline_mode GetTTL GetGeneration
                              Pause Drop Resume clock st) in *.
    cbv zeta in Hfinish.
    destruct (catalogs_expired_ st1 =? 1); [| exact Hfinish].
    pose proof (RemountStart_keeps_locks (set_catalogs_expired _ _ 0 st1)) as Hstart.
    cbv zeta in Hstart.
    change (fence_blocking_ (set_catalogs_expired _ _ 0 st1))
      with (fence_blocking_ st1) in Hstart.
    change (reload_critical_section_ (set_catalogs_expired _ _ 0 st1))
      with (reload_critical_section_ st1) in Hstart.
    set (started := RemountStart _ _ Remount clock _) in *.
    destruct Hstart as [Hfb' Hrcs']. destruct Hfinish as [Hfb1 Hrcs1].
    destruct (is_failure started.1);
      [| destruct (LoadError_eqb started.1 kLoadUp2Date)];
      cbn [install_ttl time_ fst snd fence_blocking_ reload_critical_section_];
      split; congruence.
  - intros Hmode. unfold RemountCheck, MaintenanceMode. cbn [maintenance_mode_].
    destruct Hmode as [-> | ->]; reflexivity.
Qed.

End GuardFacts.

(** *** On the catalog manager of the remount examples *)

Lemma SetMaxTTL_caps_effective_TTL_witness :
  let st' := SetMaxTTL 3 expired in
  GetMaxTTL _ _ st' = 3 /\
  GetEffectiveTTL _ _ ttl st' = 180 /\
  GetEffectiveTTL _ _ ttl st' <= 240.
Proof.
  apply (SetMaxTTL_caps_effective_TTL ttl expired 3).
  - lia.
  - lia.
  - unfold is_u32. simpl. lia.
Defined.

(** A new revision (42) has been published and the TTL alarm has fired. *)
Definition outdated : State SimpleManager unit :=
  mkState (mkManager 41 240 false 0 [Manifest 42; Manifest 42]) true 0 tt tt tt
          0 0 1 0 0 0 4800 60 0 0 0%nat.

(** RemountCheck starts the drain-out: the deadline is 5000 + 60 + 1, and
    revision 41 stays loaded. *)
Example RemountCheck_starts_drainout :
  let st' := RemountCheck _ _ SimpleRemount offline ttl generation
                          (fun c => c) (fun c => c) (fun c => c)
                          wall_clock outdated in
  (drainout_mode_ st', drainout_deadline_ st', GetKcacheTimeout st',
   revision (catalog_manager_ st')) = (1, 5061, 0, 41).
Proof. vm_compute. reflexivity. Qed.

(** A second RemountCheck one second later is held back. *)
Example RemountCheck_waits_for_deadline :
  let st1 := RemountCheck _ _ SimpleRemount offline ttl generation
                          (fun c => c) (fun c => c) (fun c => c)
                          wall_clock outdated in
  let st2 := RemountCheck _ _ SimpleRemount offline ttl generation
                          (fun c => c) (fun c => c) (fun c => c)
                          wall_clock st1 in
  (drainout_mode_ st2, revision (catalog_manager_ st2)) = (1, 41).
Proof. vm_compute. reflexivity. Qed.

Lemma no_swap_before_drainout_deadline_witness :
  (let st' := (RemountStart _ _ SimpleRemount wall_clock outdated).2 in
   drainout_deadline_ st' = 5000 + 60 + 1 /\
   drainout_mode_ st' = 1 /\ GetKcacheTimeout st' = 0) /\
  (let st1 := (RemountStart _ _ SimpleRemount wall_clock outdated).2 in
   let st' := RemountFinish _ _ SimpleRemount offline ttl generation
                            (fun c => c) (fun c => c) (fun c => c)
                            wall_clock st1 in
   catalog_manager_ st' = catalog_manager_ st1 /\ drainout_mode_ st' = 1).
Proof.
  destruct (no_swap_before_drainout_deadline (Cache := unit)
              SimpleRemount offline ttl generation
              (fun c => c) (fun c => c) (fun c => c) wall_clock)
    as [Hstart Hfinish].
  split.
  - destruct (Hstart outdated eq_refl) as (Hdeadline & Hmode & Htimeout).
    split; [exact Hdeadline |]. split; [exact (Hmode eq_refl) | exact Htimeout].
  - destruct (Hfinish (RemountStart _ _ SimpleRemount wall_clock outdated).2)
      as (Hmgr & _ & _ & _ & _ & _ & _ & Hmode & _).
    + right. right. apply Z.leb_le. reflexivity.
    + split; [exact Hmgr | exact Hmode].
Defined.

Lemma RemountCheck_releases_fence_and_critical_section_witness :
  (let st' := RemountCheck _ _ SimpleRemount offline ttl generation
                           (fun c => c) (fun c => c) (fun c => c)
                           wall_clock outdated in
   fence_blocking_ st' = 0 /\ reload_critical_section_ st' = 0) /\
  RemountCheck _ _ SimpleRemount offline ttl generation
               (fun c => c) (fun c => c) (fun c => c)
               wall_clock (MaintenanceMode outdated)
  = MaintenanceMode outdated.
Proof.
  destruct (RemountCheck_releases_fence_and_critical_section (Cache := unit)
              SimpleRemount offline ttl generation
              (fun c => c) (fun c => c) (fun c => c) wall_clock outdated)
    as [Hlocks Hmaintenance].
  split.
  - exact (Hlocks eq_refl eq_refl).
  - apply Hmaintenance. left. reflexivity.
Defined.

(** In maintenance mode the expired TTL starts no reload. *)
Example RemountCheck_in_maintenance_mode :
  RemountCheck _ _ SimpleRemount offline ttl generation
               (fun c => c) (fun c => c) (fun c => c)
               wall_clock (MaintenanceMode outdated)
  = MaintenanceMode outdated.
Proof. vm_compute. reflexivity. Qed.

End RemountGuards.

(** * cvmfs_listxattr and cvmfs_statfs (cvmfs.cc) *)

Module XattrList.

Import Xattr.

(** The terminator of each name in the list. *)
Definition nul : string := String (ascii_of_nat 0) EmptyString.

(** [base_list] and [regular_file_list] (lines 1499-1507). *)
Definition base_list : string :=
  ("user.pid" +:+ nul +:+ "user.version" +:+ nul +:+ "user.revision" +:+ nul
   +:+ "user.root_hash" +:+ nul +:+ "user.expires" +:+ nul
   +:+ "user.maxfd" +:+ nul +:+ "user.usedfd" +:+ nul +:+ "user.nioerr" +:+ nul
   +:+ "user.host" +:+ nul +:+ "user.proxy" +:+ nul +:+ "user.uptime" +:+ nul
   +:+ "user.nclg" +:+ nul +:+ "user.nopen" +:+ nul +:+ "user.ndownload" +:+ nul
   +:+ "user.timeout" +:+ nul +:+ "user.timeout_direct" +:+ nul
   +:+ "user.rx" +:+ nul +:+ "user.speed" +:+ nul +:+ "user.fqrn" +:+ nul
   +:+ "user.ndiropen" +:+ nul)%string.

Definition regular_file_list : string :=
  ("user.hash" +:+ nul +:+ "user.lhash" +:+ nul)%string.

(** cvmfs_listxattr (lines 1484-1517); [found] is the entry that
    GetDirentForInode delivered, if any. *)
Definition cvmfs_listxattr (found : option DirectoryEntry) (size : Z) : Reply :=
  match found with
  | None => reply_err ENOENT
  | Some d =>
      let attribute_list :=
        match checksum d with
        | Some _ => (base_list +:+ regular_file_list)%string
        | None => base_list
        end in
      if size =? 0 then reply_xattr (length_of attribute_list)
      else if size >=? length_of attribute_list
      then reply_buf attribute_list (length_of attribute_list)
      else reply_err ERANGE
  end.

(** The names in a buffer of NUL-terminated names, as the caller of
    listxattr(2) reads them. *)
Fixpoint names_in (buf : string) (current : string) : list string :=
  match buf with
  | EmptyString => []
  | String c rest =>
      if Ascii.eqb c (ascii_of_nat 0) then current :: names_in rest EmptyString
      else names_in rest (current +:+ String c EmptyString)
  end.

(** *** Facts *)

Lemma names_in_base_list :
  names_in base_list "" =
  [ "user.pid"; "user.version"; "user.revision"; "user.root_hash";
    "user.expires"; "user.maxfd"; "user.usedfd"; "user.nioerr"; "user.host";
    "user.proxy"; "user.uptime"; "user.nclg"; "user.nopen"; "user.ndownload";
    "user.timeout"; "user.timeout_direct"; "user.rx"; "user.speed";
    "user.fqrn"; "user.ndiropen" ]%string.
Proof. vm_compute. reflexivity. Qed.

Lemma names_in_full_list :
  names_in (base_list +:+ regular_file_list) "" =
  [ "user.pid"; "user.version"; "user.revision"; "user.root_hash";
    "user.expires"; "user.maxfd"; "user.usedfd"; "user.nioerr"; "user.host";
    "user.proxy"; "user.uptime"; "user.nclg"; "user.nopen"; "user.ndownload";
    "user.timeout"; "user.timeout_direct"; "user.rx"; "user.speed";
    "user.fqrn"; "user.ndiropen"; "user.hash"; "user.lhash" ]%string.
Proof. vm_compute. reflexivity. Qed.

(** X22.  listxattr follows the same buffer protocol as getxattr (length
    for size 0, the list if it fits, ERANGE otherwise), and it lists only
    attributes that getxattr answers for the same entry: every name in the
    list has a value (for user.lhash, provided the cached copy is absent or
    readable). *)
Theorem listxattr_lists_answered_attributes rt d size :
  exists attribute_list,
    cvmfs_listxattr (Some d) size
    = (if size =? 0 then reply_xattr (length_of attribute_list)
       else if size >=? length_of attribute_list
       then reply_buf attribute_list (length_of attribute_list)
       else reply_err ERANGE) /\
    forall name,
      In name (names_in attribute_list "") ->
      (name = "user.lhash"%string -> lhash_computable rt) ->
      exists v, attribute_value rt d name = Value v.
Proof.
  unfold cvmfs_listxattr.
  destruct (checksum d) as [hex |] eqn:Esum; eexists; (split; [reflexivity |]);
    intros name Hin Hlhash; apply known_attribute_has_value.
  - rewrite names_in_full_list in Hin.
    assert (Hcase : In name runtime_attributes \/ name = "user.hash"%string
                    \/ name = "user.lhash"%string).
    { unfold runtime_attributes. simpl in Hin |- *. intuition auto. }
    destruct Hcase as [Hrt | [-> | ->]].
    + left. exact Hrt.
    + right. split; [congruence |]. left. reflexivity.
    + right. split; [congruence |]. right. split; [reflexivity |].
      apply Hlhash. reflexivity.
  - rewrite names_in_base_list in Hin. left.
    unfold runtime_attributes. simpl in Hin |- *. intuition auto.
Qed.

(** getxattr answers user.useddirp, which listxattr does not list. *)
Example useddirp_is_not_listed :
  cvmfs_getxattr mounted (Some regular_file) "user.useddirp" 8 = reply_buf "1" 1 /\
  ~ In "user.useddirp"%string (names_in (base_list +:+ regular_file_list) "").
Proof.
  split; [vm_compute; reflexivity |].
  rewrite names_in_full_list. simpl. intuition discriminate.
Qed.

Example listxattr_length_of_directory :
  cvmfs_listxattr (Some (mkDirent None)) 0 = reply_xattr 244.
Proof. vm_compute. reflexivity. Qed.

Example listxattr_short_buffer :
  cvmfs_listxattr (Some regular_file) 244 = reply_err ERANGE.
Proof. vm_compute. reflexivity. Qed.

End XattrList.

Module Statfs.

(** [struct statvfs], the fields cvmfs_statfs fills (the others are 0). *)
Record Statvfs := mkStatvfs {
  f_bsize : Z;
  f_blocks : Z;
  f_bfree : Z;
  f_bavail : Z;
  f_files : Z;
  f_ffree : Z;
  f_favail : Z
}.

(** What cvmfs_statfs asks its collaborators: quota::GetCapacity() and
    quota::GetSize(), statfs(".") on the cache directory ([None] when it
    fails, else f_bavail and f_bsize), and the inode counts of the catalog
    manager. *)
Record Environment := mkEnvironment {
  capacity : Z;
  size : Z;
  cache_statfs : option (Z * Z);
  all_inodes : Z;
  loaded_inodes : Z
}.

(** cvmfs_statfs (lines 1290-1333), in uint64_t arithmetic. *)
Definition cvmfs_statfs (env : Environment) : Statvfs :=
  if capacity env =? 0 then mkStatvfs 0 0 0 0 0 0 0
  else
    let blocks_available :=
      if capacity env =? wrap_u64 (-1) then
        match cache_statfs env with
        | Some (cache_bavail, cache_bsize) =>
            let available := wrap_u64 (cache_bavail * cache_bsize) in
            (wrap_u64 (size env + available), available)
        | None => (size env, 0)
        end
      else (capacity env, wrap_u64 (capacity env - size env)) in
    mkStatvfs 1 blocks_available.1 blocks_available.2 blocks_available.2
              (all_inodes env)
              (wrap_u64 (all_inodes env - loaded_inodes env))
              (wrap_u64 (all_inodes env - loaded_inodes env)).

(** X23.  The numbers cvmfs_statfs reports add up: with an unmanaged cache
    (capacity 0) every field is 0; otherwise the block size is 1, free and
    available blocks agree, the cache size plus the available blocks is the
    block total, and the loaded inodes plus the free inodes are the inode
    total (in 64 bit arithmetic), whether the capacity is taken from the
    quota manager or from the file system of the cache directory. *)
Theorem cvmfs_statfs_adds_up env :
  is_u64 (capacity env) -> is_u64 (size env) ->
  is_u64 (all_inodes env) -> is_u64 (loaded_inodes env) ->
  let info := cvmfs_statfs env in
  (capacity env = 0 -> info = mkStatvfs 0 0 0 0 0 0 0) /\
  (capacity env <> 0 ->
   f_bsize info = 1 /\
   f_bfree info = f_bavail info /\
   wrap_u64 (size env + f_bavail info) = f_blocks info /\
   f_favail info = f_ffree info /\
   wrap_u64 (loaded_inodes env + f_ffree info) = f_files info).
Proof.
  intros Hcap Hsize Hall Hloaded info. subst info. unfold cvmfs_statfs.
  assert (Hwrap : forall a b, wrap_u64 (a + wrap_u64 (b - a)) = wrap_u64 b).
  { intros a b. unfold wrap_u64. rewrite Zplus_mod_idemp_r. f_equal. lia. }
  split.
  - intros ->. reflexivity.
  - intros Hne. destruct (Z.eqb_spec (capacity env) 0) as [? | _]; [contradiction |].
    cbn [f_bsize f_blocks f_bfree f_bavail f_files f_ffree f_favail].
    split; [reflexivity |]. split; [reflexivity |]. split.
    + destruct (capacity env =? wrap_u64 (-1)).
      * destruct (cache_statfs env) as [[cache_bavail cache_bsize] |];
          cbn [fst snd]; [reflexivity |].
        rewrite Z.add_0_r. apply wrap_u64_id. exact Hsize.
      * cbn [fst snd]. rewrite Hwrap. apply wrap_u64_id. exact Hcap.
    + split; [reflexivity |]. rewrite Hwrap. apply wrap_u64_id. exact Hall.
Qed.

(** A managed cache of 1000 bytes holding 400, and an unrestricted cache on
    a file system with 50 free blocks of 4096 bytes. *)
Definition managed : Environment := mkEnvironment 1000 400 None 5000 1200.

Definition unrestricted : Environment :=
  mkEnvironment (2 ^ 64 - 1) 400 (Some (50, 4096)) 5000 1200.

Lemma cvmfs_statfs_adds_up_witness :
  let info := cvmfs_statfs unrestricted in
  f_bsize info = 1 /\
  f_bfree info = f_bavail info /\
  wrap_u64 (400 + f_bavail info) = f_blocks info /\
  f_favail info = f_ffree info /\
  wrap_u64 (1200 + f_ffree info) = f_files info.
Proof.
  apply (cvmfs_statfs_adds_up unrestricted); unfold is_u64; simpl; lia.
Defined.

Example statfs_managed :
  cvmfs_statfs managed = mkStatvfs 1 1000 600 600 5000 3800 3800.
Proof. vm_compute. reflexivity. Qed.

Example statfs_unrestricted :
  cvmfs_statfs unrestricted = mkStatvfs 1 205200 204800 204800 5000 3800 3800.
Proof. vm_compute. reflexivity. Qed.

End Statfs.

(** * The reload protocol between cvmfs_talk and the loader
      (loader_talk.cc) *)

Module LoaderTalk.

(** What travels over the socket and what is printed: characters. *)
Definition text (s : string) : list ascii := list_ascii_of_string s.

Definition tilde : ascii := "~"%char.

(** The four bytes of an [int] in memory, least significant first (both
    ends of the socket run on the same host), and the [int] that four bytes
    in memory stand for. *)
Definition byte (b : Z) : ascii := ascii_of_nat (Z.to_nat (b mod 256)).

Definition int_bytes (v : Z) : list ascii :=
  let u := wrap_u32 v in
  [byte u; byte (u / 2 ^ 8); byte (u / 2 ^ 16); byte (u / 2 ^ 24)].

Definition byte_value (c : ascii) : Z := Z.of_nat (nat_of_ascii c).

Definition int_of_bytes (bytes : list ascii) : Z :=
  wrap_s32 (byte_value (nth 0 bytes zero)
            + 2 ^ 8 * byte_value (nth 1 bytes zero)
            + 2 ^ 16 * byte_value (nth 2 bytes zero)
            + 2 ^ 24 * byte_value (nth 3 bytes zero)).

Section WithLoader.

(** loader::kFailOk is declared in loader.h. *)
Variable kFailOk : Z.

(** **** The server side: MainTalk *)

(** What Reload(con_fd) does for one connection: the progress messages it
    sends to the connection, and its return value. *)
Record Reloaded := mkReloaded {
  progress : list ascii;
  retval : Z
}.

(** One round of the loop of MainTalk (lines 50-72) after a successful
    accept: [received] is the byte that recv delivered, if any.  Returns
    what was handed to send on the connection, in order, and whether the
    process aborted. *)
Definition serve_connection (received : option ascii) (reload : Reloaded)
  : list ascii * bool :=
  match received with
  | Some command =>
      if negb (Ascii.eqb command "R"%char) then (text "unknown command
", false)
      else (progress reload ++ [tilde] ++ int_bytes (retval reload),
            negb (retval reload =? kFailOk))
  | None => ([], false)
  end.

(** MainTalk over the connections that accept delivers, until accept fails
    or the process aborts: what was sent on each connection served. *)
Fixpoint MainTalk (connections : list (option ascii * Reloaded))
  : list (list ascii) * bool :=
  match connections with
  | [] => ([], false)
  | (received, reload) :: rest =>
      let served := serve_connection received reload in
      if served.2 then ([served.1], true)
      else
        let later := MainTalk rest in
        (served.1 :: later.1, later.2)
  end.

(** **** The client side: MainReload *)

(** The loop of lines 116-120: reads one character at a time and prints it,
    until '~' arrives or read does not return 1 (the stream has ended).
    Returns what was printed and, if '~' arrived, the rest of the stream. *)
Fixpoint read_progress (stream : list ascii)
  : list ascii * option (list ascii) :=
  match stream with
  | [] => ([], None)
  | buf :: rest =>
      if Ascii.eqb buf tilde then ([], Some rest)
      else
        let r := read_progress rest in
        (buf :: r.1, r.2)
  end.

(** [read(socket_fd, &result, sizeof(result))]: the bytes that arrive
    overwrite the front of the four bytes of [result]; [delivered] is the
    number of bytes this one call to read hands over at most. *)
Definition read_result (result : Z) (stream : list ascii) (delivered : nat) : Z :=
  let arrived := take (Nat.min 4 delivered) stream in
  int_of_bytes (arrived ++ drop (length arrived) (int_bytes result)).

(** What MainReload leaves on stdout and stderr, and returns.  LogCvmfs
    ends a message with a line break unless kLogNoLinebreak is given. *)
Record ReloadOutcome := mkOutcome {
  stdout : list ascii;
  stderr : list ascii;
  result : Z
}.

(** MainReload (lines 103-133).  [connection] is the stream that the
    socket delivers after the command has been written, [None] if
    ConnectSocket fails. *)
Definition MainReload (connection : option (list ascii)) (delivered : nat)
  : ReloadOutcome :=
  let greeting := text "Connecting to CernVM-FS loader... " in
  match connection with
  | None => mkOutcome (greeting ++ text "failed!
") [] 100
  | Some stream =>
      let r := read_progress stream in
      let printed := greeting ++ text "done
" ++ r.1 in
      match r.2 with
      | None => mkOutcome printed [] 101
      | Some rest =>
          let result := read_result 102 rest delivered in
          mkOutcome printed
                    (if negb (result =? kFailOk)
                     then text "Reload FAILED! CernVM-FS unusuable.
"
                     else [])
                    result
      end
  end.

End WithLoader.

(** *** Facts *)

Lemma byte_value_byte b : byte_value (byte b) = b mod 256.
Proof.
  unfold byte_value, byte.
  rewrite nat_ascii_embedding.
  - apply Z2Nat.id. apply Z.mod_pos_bound. lia.
  - pose proof (Z.mod_pos_bound b 256 ltac:(lia)). lia.
Qed.

Lemma int_of_bytes_int_bytes v : is_s32 v -> int_of_bytes (int_bytes v) = v.
Proof.
  intros Hv. unfold int_of_bytes, int_bytes. cbn [nth].
  rewrite !byte_value_byte.
  set (u := wrap_u32 v).
  assert (Hu : 0 <= u < 2 ^ 32) by apply wrap_u32_range.
  assert (Hsum : u mod 256 + 2 ^ 8 * ((u / 2 ^ 8) mod 256)
                 + 2 ^ 16 * ((u / 2 ^ 16) mod 256)
                 + 2 ^ 24 * ((u / 2 ^ 24) mod 256) = u).
  { pose proof (Z.div_mod u 256 ltac:(lia)) as H0.
    pose proof (Z.div_mod (u / 2 ^ 8) 256 ltac:(lia)) as H1.
    pose proof (Z.div_mod (u / 2 ^ 16) 256 ltac:(lia)) as H2.
    replace (u / 2 ^ 8 / 256) with (u / 2 ^ 16) in H1
      by (rewrite Z.div_div by lia; reflexivity).
    replace (u / 2 ^ 16 / 256) with (u / 2 ^ 24) in H2
      by (rewrite Z.div_div by lia; reflexivity).
    assert (H3 : (u / 2 ^ 24) mod 256 = u / 2 ^ 24).
    { apply Z.mod_small. split.
      - apply Z.div_pos; lia.
      - apply Z.div_lt_upper_bound; lia. }
    change (2 ^ 8) with 256 in *. lia. }
  rewrite Hsum. unfold u, wrap_s32, wrap_u32.
  rewrite Zplus_mod_idemp_l.
  unfold is_s32 in Hv. rewrite Z.mod_small by lia. lia.
Qed.

Lemma read_progress_app p rest :
  ~ In tilde p ->
  read_progress (p ++ tilde :: rest) = (p, Some rest).
Proof.
  induction p as [| c p IH]; intros Hfree; cbn [app read_progress].
  - rewrite Ascii.eqb_refl. reflexivity.
  - destruct (Ascii.eqb_spec c tilde) as [-> | _].
    + exfalso. apply Hfree. left. reflexivity.
    + rewrite IH by (intros Hin; apply Hfree; right; exact Hin). reflexivity.
Qed.

Lemma read_progress_no_tilde stream :
  ~ In tilde stream -> read_progress stream = (stream, None).
Proof.
  induction stream as [| c stream IH]; intros Hfree; cbn [read_progress].
  - reflexivity.
  - destruct (Ascii.eqb_spec c tilde) as [-> | _].
    + exfalso. apply Hfree. left. reflexivity.
    + rewrite IH by (intros Hin; apply Hfree; right; exact Hin). reflexivity.
Qed.

Section TalkFacts.

Variable kFailOk : Z.

(** X24.  The reload protocol round trip: when MainTalk serves an 'R'
    command, MainReload on the other end of the connection prints the
    progress messages of Reload and returns Reload's return value, provided
    the progress messages contain no '~' and the four bytes of the result
    arrive in one read. *)
Theorem MainReload_returns_what_Reload_returned reload delivered :
  ~ In tilde (progress reload) -> is_s32 (retval reload) ->
  (4 <= delivered)%nat ->
  let sent := (serve_connection kFailOk (Some "R"%char) reload).1 in
  let outcome := MainReload kFailOk (Some sent) delivered in
  result outcome = retval reload /\
  stdout outcome
  = text "Connecting to CernVM-FS loader... " ++ text "done
" ++ progress reload /\
  (stderr outcome = [] <-> retval reload = kFailOk).
Proof.
  intros Hfree Hs Hdelivered sent outcome. subst outcome sent.
  unfold MainReload, serve_connection. cbn [Ascii.eqb Bool.eqb negb fst].
  cbn [andb]. cbn [app]. rewrite read_progress_app by exact Hfree.
  cbn [fst snd].
  assert (Hread : read_result 102 (int_bytes (retval reload)) delivered
                  = retval reload).
  { unfold read_result. rewrite Nat.min_l by exact Hdelivered.
    change (take 4 (int_bytes (retval reload))) with (int_bytes (retval reload)).
    change (length (int_bytes (retval reload))) with 4%nat.
    change (drop 4 (int_bytes 102)) with (@nil ascii).
    rewrite app_nil_r. apply int_of_bytes_int_bytes. exact Hs. }
  rewrite Hread. cbn [result stdout stderr].
  split; [reflexivity |]. split; [reflexivity |].
  destruct (Z.eqb_spec (retval reload) kFailOk) as [Heq | Hne]; cbn [negb].
  - split; [intros _; exact Heq | reflexivity].
  - split; [discriminate | contradiction].
Qed.

(** X25.  The error returns of MainReload: 100 if the loader socket cannot
    be connected; 101 if the stream ends before a '~' has arrived, after
    printing all of it; and 102, the initial value of the result, if the
    stream ends right after the '~'. *)
Theorem MainReload_error_returns delivered :
  result (MainReload kFailOk None delivered) = 100 /\
  (forall stream,
     ~ In tilde stream ->
     let outcome := MainReload kFailOk (Some stream) delivered in
     result outcome = 101 /\
     stdout outcome
     = text "Connecting to CernVM-FS loader... " ++ text "done
" ++ stream) /\
  (forall printed,
     ~ In tilde printed ->
     result (MainReload kFailOk (Some (printed ++ [tilde])) delivered) = 102).
Proof.
  split; [reflexivity |]. split.
  - intros stream Hfree outcome. subst outcome. unfold MainReload.
    rewrite read_progress_no_tilde by exact Hfree. split; reflexivity.
  - intros printed Hfree. unfold MainReload.
    rewrite read_progress_app by exact Hfree. cbn [fst snd result].
    unfold read_result. rewrite take_nil. cbn [length app drop].
    vm_compute. reflexivity.
Qed.

End TalkFacts.

(** *** A reload that succeeds, and one that fails *)

Definition reloaded_ok : Reloaded :=
  mkReloaded (text "Saving inode tracker
Restoring inode tracker...  done
") 0.

Definition reloaded_failed : Reloaded := mkReloaded (text "Blocking new file system calls
") 5.

Lemma MainReload_returns_what_Reload_returned_witness :
  let sent := (serve_connection 0 (Some "R"%char) reloaded_failed).1 in
  let outcome := MainReload 0 (Some sent) 4 in
  result outcome = 5 /\
  stdout outcome
  = text "Connecting to CernVM-FS loader... " ++ text "done
" ++ progress reloaded_failed /\
  (stderr outcome = [] <-> 5 = 0).
Proof.
  apply (MainReload_returns_what_Reload_returned 0 reloaded_failed 4).
  - apply (bool_decide_unpack _). vm_compute. exact I.
  - unfold is_s32. simpl. lia.
  - lia.
Defined.

(** The loader serves connections until a reload fails; then it aborts. *)
Example MainTalk_aborts_after_failed_reload :
  MainTalk 0 [ (Some "x"%char, reloaded_ok); (None, reloaded_ok);
               (Some "R"%char, reloaded_ok); (Some "R"%char, reloaded_failed);
               (Some "R"%char, reloaded_ok) ]
  = ([ text "unknown command
"; [];
       progress reloaded_ok ++ [tilde] ++ int_bytes 0;
       progress reloaded_failed ++ [tilde] ++ int_bytes 5 ], true).
Proof. vm_compute. reflexivity. Qed.

(** A result of which only two bytes arrive keeps the upper bytes of 102. *)
Example MainReload_short_read :
  result (MainReload 0 (Some (text "ok
~" ++ int_bytes 5)) 2) = 5 /\
  result (MainReload 0 (Some (text "ok
~" ++ int_bytes (-1))) 2) = 65535.
Proof. vm_compute. split; reflexivity. Qed.

End LoaderTalk.
